(** * Field collection and defer grouping of graphql-js (execution/collectFields)

    A shallow embedding of [collectFields], [collectFieldsImpl],
    [getDeferValues], [shouldIncludeNode], [doesFragmentConditionMatch],
    [buildGroupedFieldSets], [getTargetSetDetails] and
    [getOrderedGroupedFieldSet], followed by the properties of the
    specification that concern them. *)

From stdpp Require Import base option list strings gmap.

Set Default Proof Using "Type".

(** ** JavaScript values and containers *)

(** The values a coerced directive argument can take. *)
Inductive JSValue : Type :=
| JSUndefined
| JSNull
| JSBool (b : bool)
| JSString (s : string)
| JSNumber (n : Z).

#[global] Instance JSValue_eq_dec : EqDecision JSValue.
Proof. solve_decision. Defined.

(** Property read [o.k] on an object used as a record of arguments: a
    property that is not there reads as [undefined]. *)
Definition prop (o : gmap string JSValue) (k : string) : JSValue :=
  default JSUndefined (o !! k).

(** How a call ends: with a value, with the failed [invariant], with the
    [TypeError] of a read through [undefined], or (in the embedding only)
    with the recursion budget used up. *)
Inductive Outcome (A : Type) : Type :=
| Ok (a : A)
| InvariantViolation (message : string)
| TypeError
| OutOfFuel.
Arguments Ok {A} a.
Arguments InvariantViolation {A} message.
Arguments TypeError {A}.
Arguments OutOfFuel {A}.

#[global] Instance Outcome_ret : MRet Outcome := λ A a, Ok a.
#[global] Instance Outcome_bind : MBind Outcome := λ A B f m,
  match m with
  | Ok a => f a
  | InvariantViolation msg => InvariantViolation msg
  | TypeError => TypeError
  | OutOfFuel => OutOfFuel
  end.

(** A loop [for (const x of xs) body] whose body may throw. *)
Fixpoint forOf {A S : Type} (body : S → A → Outcome S) (xs : list A) (s : S)
  : Outcome S :=
  match xs with
  | [] => Ok s
  | x :: rest => s' ← body s x; forOf body rest s'
  end.

(** A JavaScript [Set] keeps its members in insertion order, without
    repetition: a list, and [add] that appends a member not yet there. *)
Module JSSet.
Section ops.
Context {A : Type} `{EqDecision A}.

Definition has (x : A) (s : list A) : bool := bool_decide (x ∈ s).

Definition add (x : A) (s : list A) : list A :=
  if has x s then s else s ++ [x].

(** [new Set(iterable)] *)
Definition of_list (l : list A) : list A :=
  fold_left (λ s x, add x s) l [].
End ops.
End JSSet.

(** A JavaScript [Map] keeps its entries in insertion order, one per key:
  an association list, [set] overwriting in place or appending. *)
Module JSMap.
Section ops.
Context {K V : Type} `{EqDecision K}.

Fixpoint get (k : K) (m : list (K * V)) : option V :=
  match m with
  | [] => None
  | (k', v) :: rest => if decide (k' = k) then Some v else get k rest
  end.

Fixpoint set (k : K) (v : V) (m : list (K * V)) : list (K * V) :=
  match m with
  | [] => [(k, v)]
  | (k', v') :: rest =>
      if decide (k' = k) then (k', v) :: rest else (k', v') :: set k v rest
  end.

Definition delete (k : K) (m : list (K * V)) : list (K * V) :=
  filter (λ e, e.1 ≠ k) m.

Definition keys (m : list (K * V)) : list K := m.*1.
End ops.
End JSMap.

(** ** Targets *)

(** A defer usage is an object: [oid] stands for its identity (the
    allocation it came from), so that two usages created by two
    evaluations of [{ ...defer, ancestors }] differ even with equal
    fields.  The base target is [undefined], here [None]. *)
#[warnings="-register-all"]
Inductive DeferUsage : Type :=
  mkDeferUsage {
    oid : nat;
    label : option string;
    ancestors : list (option DeferUsage)
  }.

Abbreviation Target := (option DeferUsage).

#[global] Instance DeferUsage_eq_dec : EqDecision DeferUsage.
Proof.
  unfold EqDecision, Decision. fix IH 1. intros [i l anc] [j l' anc'].
  destruct (decide (i = j)) as [Hi|Hi]; [|right; congruence].
  destruct (decide (l = l')) as [Hl|Hl]; [|right; congruence].
  enough (Hanc : {anc = anc'} + {anc ≠ anc'}).
  { destruct Hanc as [Ha|Ha]; [left; congruence|right; congruence]. }
  clear Hi Hl. revert anc anc'. fix IHl 1. intros [|x xs] [|y ys];
    try (right; congruence); [by left|].
  destruct (IHl xs ys) as [Hr|Hr]; [|right; congruence].
  destruct x as [d|], y as [e|]; try (right; congruence);
    [|left; congruence].
  destruct (IH d e) as [Hd|Hd]; [left; congruence|right; congruence].
Defined.

(** The number of usages nested in a target: a usage is built after its
    ancestors, which makes the ancestor relation well founded. *)
Fixpoint DeferUsage_size (d : DeferUsage) : nat :=
  match d with
  | mkDeferUsage _ _ anc =>
      S (list_sum (map (λ t, match t with
                             | Some e => DeferUsage_size e
                             | None => 0
                             end) anc))
  end.

Definition Target_size (t : Target) : nat :=
  match t with Some d => DeferUsage_size d | None => 0 end.

(** [NON_DEFERRED_TARGET_SET = new Set([undefined])] *)
Definition NON_DEFERRED_TARGET_SET : list Target := JSSet.of_list [None].

(** ** Documents *)

Inductive ValueNode : Type :=
| VariableNode (name : string)
| BooleanValueNode (value : bool)
| StringValueNode (value : string)
| IntValueNode (value : Z)
| NullValueNode.

Record DirectiveNode : Type := mkDirectiveNode {
  directiveName : string;
  directiveArguments : list (string * ValueNode)
}.

Record NamedTypeNode : Type := mkNamedTypeNode { typeNodeName : string }.

(** The three kinds of selection.  A field node keeps what the collector
    reads (alias, name, directives, sub-selection). *)
#[warnings="-register-all"]
Inductive Selection : Type :=
| Field (node : FieldNode)
| InlineFragment (typeCondition : option NamedTypeNode)
    (directives : list DirectiveNode) (selectionSet : list Selection)
| FragmentSpread (name : string) (directives : list DirectiveNode)
with FieldNode : Type :=
| mkFieldNode (alias : option string) (name : string)
    (directives : list DirectiveNode) (selectionSet : option (list Selection)).

Definition fieldAlias (node : FieldNode) : option string :=
  match node with mkFieldNode alias _ _ _ => alias end.
Definition fieldName (node : FieldNode) : string :=
  match node with mkFieldNode _ name _ _ => name end.
Definition fieldDirectives (node : FieldNode) : list DirectiveNode :=
  match node with mkFieldNode _ _ directives _ => directives end.
Definition fieldSelectionSet (node : FieldNode) : option (list Selection) :=
  match node with mkFieldNode _ _ _ selectionSet => selectionSet end.

Definition selectionDirectives (node : Selection) : list DirectiveNode :=
  match node with
  | Field f => fieldDirectives f
  | InlineFragment _ ds _ | FragmentSpread _ ds => ds
  end.

Record FragmentDefinition : Type := mkFragmentDefinition {
  fragmentName : string;
  fragmentTypeCondition : NamedTypeNode;
  fragmentSelectionSet : list Selection
}.

Inductive OperationTypeNode : Type := QUERY | MUTATION | SUBSCRIPTION.

#[global] Instance OperationTypeNode_eq_dec : EqDecision OperationTypeNode.
Proof. solve_decision. Defined.

Record OperationDefinition : Type := mkOperationDefinition {
  operationType : OperationTypeNode;
  operationSelectionSet : list Selection
}.

(** ** The type system, as far as the collector consults it *)

Inductive TypeKind : Type :=
| ScalarKind | ObjectKind | InterfaceKind | UnionKind | EnumKind
| InputObjectKind.

#[global] Instance TypeKind_eq_dec : EqDecision TypeKind.
Proof. solve_decision. Defined.

(** A named type of a schema.  A schema holds one type per name, so the
    identity of a type object is the equality of these records. *)
Record GraphQLType : Type := mkGraphQLType {
  typeName : string;
  typeKind : TypeKind
}.

#[global] Instance GraphQLType_eq_dec : EqDecision GraphQLType.
Proof. solve_decision. Defined.

Record GraphQLSchema : Type := mkGraphQLSchema {
  getType : string → option GraphQLType;
  isSubType : GraphQLType → GraphQLType → bool
}.

(** Modelled from the spec: typeFromAST (utilities/typeFromAST.mjs is not
    among the sources) "resolves the condition to a named type via the
    schema"; an unknown name resolves to nothing ([undefined]). *)
Definition typeFromAST (schema : GraphQLSchema) (typeNode : NamedTypeNode)
  : option GraphQLType :=
  getType schema (typeNodeName typeNode).

(** Modelled from the spec: isAbstractType (type/definition.mjs is not among
    the sources) holds of "an abstract type (interface/union)"; of
    [undefined] it does not hold. *)
Definition isAbstractType (type : option GraphQLType) : bool :=
  match type with
  | Some t =>
      match typeKind t with
      | InterfaceKind | UnionKind => true
      | _ => false
      end
  | None => false
  end.

(** The directive definitions handed to [getDirectiveValues]: the name and
    the default values of the arguments. *)
Record GraphQLDirective : Type := mkGraphQLDirective {
  directiveDefName : string;
  directiveDefaults : list (string * JSValue)
}.

Definition GraphQLSkipDirective : GraphQLDirective :=
  mkGraphQLDirective "skip" [].
Definition GraphQLIncludeDirective : GraphQLDirective :=
  mkGraphQLDirective "include" [].
Definition GraphQLDeferDirective : GraphQLDirective :=
  mkGraphQLDirective "defer" [("if", JSBool true)].

(** ** jsutils *)

(** Modelled from the spec: isSameSet (jsutils/isSameSet.mjs is not among
    the sources) is "set equality, not reference equality — compare by
    membership". *)
Definition isSameSet {A} `{EqDecision A} (setA setB : list A) : bool :=
  forallb (λ item, JSSet.has item setB) setA
  && forallb (λ item, JSSet.has item setA) setB.

(** Modelled from the spec: getBySet (jsutils/getBySet.mjs is not among the
    sources) looks a set up in a map keyed by sets, "by membership": the
    value of the first entry whose key is the same set. *)
Fixpoint getBySet {A V} `{EqDecision A} (map : list (list A * V))
    (setToMatch : list A) : option V :=
  match map with
  | [] => None
  | (set, v) :: rest =>
      if isSameSet set setToMatch then Some v else getBySet rest setToMatch
  end.

(** The write through the reference that [getBySet] returned: the value of
    that first matching entry is replaced. *)
Fixpoint updateBySet {A V} `{EqDecision A} (map : list (list A * V))
    (setToMatch : list A) (v : V) : list (list A * V) :=
  match map with
  | [] => []
  | (set, v') :: rest =>
      if isSameSet set setToMatch then (set, v) :: rest
      else (set, v') :: updateBySet rest setToMatch v
  end.

(** Modelled from the spec: AccumulatorMap (jsutils/AccumulatorMap.mjs is
    not among the sources) is "an ordered multimap from response key to
    ordered list", [add] "appending, never replacing". *)
Module AccumulatorMap.
Definition add {K T} `{EqDecision K} (key : K) (item : T)
    (m : list (K * list T)) : list (K * list T) :=
  match JSMap.get key m with
  | None => JSMap.set key [item] m
  | Some group => JSMap.set key (group ++ [item]) m
  end.
End AccumulatorMap.

(** ** The collector and the grouped-field-set builder *)

(** The [{ label }] record that [getDeferValues] returns. *)
Record DeferValues : Type := mkDeferValues { deferLabel : option string }.

Record FieldDetails : Type := mkFieldDetails {
  node : FieldNode;
  target : Target
}.

Record FieldGroup : Type := mkFieldGroup {
  fields : list FieldDetails;
  targets : list Target
}.

Record TargetSetDetails : Type := mkTargetSetDetails {
  keys : list string;
  shouldInitiateDefer : bool
}.

Record GroupedFieldSetDetails : Type := mkGroupedFieldSetDetails {
  detailsGroupedFieldSet : list (string * FieldGroup);
  detailsShouldInitiateDefer : bool
}.

Record GroupedFieldSets : Type := mkGroupedFieldSets {
  groupedFieldSet : list (string * FieldGroup);
  newGroupedFieldSetDetails : list (list Target * GroupedFieldSetDetails)
}.

Record CollectFieldsResult : Type := mkCollectFieldsResult {
  resultGroupedFieldSet : list (string * FieldGroup);
  resultNewGroupedFieldSetDetails :
    list (list Target * GroupedFieldSetDetails);
  resultNewDeferUsages : list DeferUsage
}.

(** The accumulators of the [context] object, which the collector mutates.
    [nextOid] is the identity the next allocated defer usage receives. *)
Record Context : Type := mkContext {
  fieldsByTarget : list (Target * list (string * list FieldNode));
  targetsByKey : list (string * list Target);
  newDeferUsages : list DeferUsage;
  visitedFragmentNames : gset string;
  nextOid : nat
}.

Definition newContext (oid0 : nat) : Context :=
  mkContext [] [] [] ∅ oid0.

Definition optProp (o : option (gmap string JSValue)) (k : string) : JSValue :=
  match o with Some o => prop o k | None => JSUndefined end.

Section collector.

(** The directive-argument coercion of values.mjs, which is not among the
    sources: from a directive definition, a node and the variable values,
    the record of coerced arguments, or [undefined] when the node does not
    carry the directive. *)
Variable getDirectiveValues :
  GraphQLDirective → Selection → gmap string JSValue →
  option (gmap string JSValue).

Definition getDeferValues (operation : OperationDefinition)
    (variableValues : gmap string JSValue) (node : Selection)
  : Outcome (option DeferValues) :=
  match getDirectiveValues GraphQLDeferDirective node variableValues with
  | None => Ok None
  | Some defer =>
      if decide (prop defer "if" = JSBool false) then Ok None
      else if decide (operationType operation = SUBSCRIPTION) then
        InvariantViolation
          "`@defer` directive not supported on subscription operations. Disable `@defer` by setting the `if` argument to `false`."
      else
        Ok (Some {| deferLabel :=
                      match prop defer "label" with
                      | JSString l => Some l
                      | _ => None
                      end |})
  end.

Definition shouldIncludeNode (variableValues : gmap string JSValue)
    (node : Selection) : bool :=
  let skip := getDirectiveValues GraphQLSkipDirective node variableValues in
  if decide (optProp skip "if" = JSBool true) then false
  else
    let include :=
      getDirectiveValues GraphQLIncludeDirective node variableValues in
    if decide (optProp include "if" = JSBool false) then false
    else true.

(** The source reads [fragment.typeCondition] of a fragment definition or
    an inline fragment; the embedding is handed that field. *)
Definition doesFragmentConditionMatch (schema : GraphQLSchema)
    (typeConditionNode : option NamedTypeNode) (type : GraphQLType) : bool :=
  match typeConditionNode with
  | None => true
  | Some typeConditionNode =>
      let conditionalType := typeFromAST schema typeConditionNode in
      if decide (conditionalType = Some type) then true
      else if isAbstractType conditionalType then
        match conditionalType with
        | Some abstractType => isSubType schema abstractType type
        | None => false
        end
      else false
  end.

Definition getFieldEntryKey (node : FieldNode) : string :=
  match fieldAlias node with
  | Some alias => alias
  | None => fieldName node
  end.

(** [parentTarget === undefined ? [parentTarget]
      : [parentTarget, ...parentTarget.ancestors]] *)
Definition ancestorsFor (parentTarget : Target) : list Target :=
  match parentTarget with
  | None => [parentTarget]
  | Some p => parentTarget :: ancestors p
  end.

(** [target = { ...defer, ancestors }; newDeferUsages.push(target)] *)
Definition pushDeferUsage (defer : DeferValues) (parentTarget : Target)
    (context : Context) : DeferUsage * Context :=
  let target :=
    mkDeferUsage (nextOid context) (deferLabel defer)
      (ancestorsFor parentTarget) in
  (target,
   mkContext (fieldsByTarget context) (targetsByKey context)
     (newDeferUsages context ++ [target]) (visitedFragmentNames context)
     (S (nextOid context))).

(** The body of [case Kind.FIELD] after the directive check. *)
Definition recordField (node : FieldNode) (parentTarget : Target)
    (newTarget : option DeferUsage) (context : Context) : Context :=
  let key := getFieldEntryKey node in
  let target := match newTarget with
                | Some _ => newTarget
                | None => parentTarget
                end in
  let keyTargets := match JSMap.get key (targetsByKey context) with
                    | Some keyTargets => keyTargets
                    | None => []
                    end in
  let targetFields := match JSMap.get target (fieldsByTarget context) with
                      | Some targetFields => targetFields
                      | None => []
                      end in
  mkContext
    (JSMap.set target (AccumulatorMap.add key node targetFields)
       (fieldsByTarget context))
    (JSMap.set key (JSSet.add target keyTargets) (targetsByKey context))
    (newDeferUsages context) (visitedFragmentNames context)
    (nextOid context).

Definition markVisited (fragName : string) (context : Context) : Context :=
  mkContext (fieldsByTarget context) (targetsByKey context)
    (newDeferUsages context) ({[fragName]} ∪ visitedFragmentNames context)
    (nextOid context).

Section collectFieldsImpl.

Variable schema : GraphQLSchema.
Variable fragments : gmap string FragmentDefinition.
Variable variableValues : gmap string JSValue.
Variable runtimeType : GraphQLType.
Variable operation : OperationDefinition.

(** The body of the loop of [collectFieldsImpl]: the [switch] on the kind
    of one selection, [recurse] standing for the recursive call. *)
Definition collectSelection
    (recurse : list Selection → Target → option DeferUsage → Context →
               Outcome Context)
    (parentTarget : Target) (newTarget : option DeferUsage)
    (context : Context) (selection : Selection) : Outcome Context :=
  match selection with
  | Field node =>
      if negb (shouldIncludeNode variableValues selection)
      then Ok context
      else Ok (recordField node parentTarget newTarget context)
  | InlineFragment typeCondition _ selectionSet =>
      if negb (shouldIncludeNode variableValues selection)
         || negb (doesFragmentConditionMatch schema typeCondition
                    runtimeType)
      then Ok context
      else
        defer ← getDeferValues operation variableValues selection;
        match defer with
        | None => recurse selectionSet parentTarget newTarget context
        | Some defer =>
            let '(target, context) :=
              pushDeferUsage defer parentTarget context in
            recurse selectionSet parentTarget (Some target) context
        end
  | FragmentSpread fragName _ =>
      if negb (shouldIncludeNode variableValues selection)
      then Ok context
      else
        defer ← getDeferValues operation variableValues selection;
        if bool_decide (fragName ∈ visitedFragmentNames context)
           && bool_decide (defer = None)
        then Ok context
        else
          match fragments !! fragName with
          | None => Ok context
          | Some fragment =>
              if negb (doesFragmentConditionMatch schema
                         (Some (fragmentTypeCondition fragment))
                         runtimeType)
              then Ok context
              else
                match defer with
                | None =>
                    recurse (fragmentSelectionSet fragment) parentTarget
                      newTarget (markVisited fragName context)
                | Some defer =>
                    let '(target, context) :=
                      pushDeferUsage defer parentTarget context in
                    recurse (fragmentSelectionSet fragment) parentTarget
                      (Some target) context
                end
          end
  end.

(** [fuel] bounds the depth of the recursion through selection sets and
    fragment definitions. *)
Fixpoint collectFieldsImpl (fuel : nat) (selectionSet : list Selection)
    (parentTarget : Target) (newTarget : option DeferUsage)
    (context : Context) {struct fuel} : Outcome Context :=
  match fuel with
  | 0 => OutOfFuel
  | S fuel =>
      forOf (collectSelection (collectFieldsImpl fuel) parentTarget
               newTarget)
        selectionSet context
  end.

End collectFieldsImpl.
End collector.

(** The test of the inner loop of [getTargetSetDetails]: the target is
    [undefined], or none of its ancestors is among the targets of the key. *)
Definition isMaskingTarget (targets : list Target) (target : Target) : bool :=
  match target with
  | None => true
  | Some deferUsage =>
      forallb (λ ancestor, negb (JSSet.has ancestor targets))
        (ancestors deferUsage)
  end.

Definition maskingTargetListOf (targets : list Target) : list Target :=
  filter (λ target, isMaskingTarget targets target) targets.

(** One turn of the loop over [targetsByKey] in [getTargetSetDetails]. *)
Definition targetSetDetailsStep (parentTargets : list Target)
    (acc : list string * list (list Target * TargetSetDetails))
    (entry : string * list Target)
  : list string * list (list Target * TargetSetDetails) :=
  let '(parentTargetKeys, targetSetDetailsMap) := acc in
  let '(responseKey, targets) := entry in
  let maskingTargetList := maskingTargetListOf targets in
  let maskingTargets := JSSet.of_list maskingTargetList in
  if isSameSet maskingTargets parentTargets then
    (JSSet.add responseKey parentTargetKeys, targetSetDetailsMap)
  else
    match getBySet targetSetDetailsMap maskingTargets with
    | None =>
        (parentTargetKeys,
         targetSetDetailsMap ++
           [(maskingTargets,
             {| keys := JSSet.add responseKey [];
                shouldInitiateDefer :=
                  existsb (λ deferUsage,
                             negb (JSSet.has deferUsage parentTargets))
                    maskingTargetList |})])
    | Some targetSetDetails =>
        (parentTargetKeys,
         updateBySet targetSetDetailsMap maskingTargets
           {| keys := JSSet.add responseKey (keys targetSetDetails);
              shouldInitiateDefer := shouldInitiateDefer targetSetDetails |})
    end.

Definition getTargetSetDetails (targetsByKey : list (string * list Target))
    (parentTargets : list Target)
  : list string * list (list Target * TargetSetDetails) :=
  fold_left (targetSetDetailsStep parentTargets) targetsByKey ([], []).

(** The loop over the targets of one key in [getOrderedGroupedFieldSet]:
    the nodes of the key are moved from each target's map to the group. *)
Definition takeFieldsOfTarget (key : string)
    (acc : list FieldDetails
           * list (Target * list (string * list FieldNode)))
    (target : Target)
  : Outcome (list FieldDetails
             * list (Target * list (string * list FieldNode))) :=
  let '(groupFields, fieldsByTarget) := acc in
  match JSMap.get target fieldsByTarget with
  | None => TypeError
  | Some fieldsForTarget =>
      match JSMap.get key fieldsForTarget with
      | None => TypeError
      | Some nodes =>
          Ok (groupFields ++ map (λ node, mkFieldDetails node target) nodes,
              JSMap.set target (JSMap.delete key fieldsForTarget)
                fieldsByTarget)
      end
  end.

(** One turn of the loop over the keys of the first target's map. *)
Definition orderedGroupStep (keys : list string)
    (maskingTargets : list Target)
    (targetsByKey : list (string * list Target))
    (acc : list (string * FieldGroup)
           * list (Target * list (string * list FieldNode)))
    (key : string)
  : Outcome (list (string * FieldGroup)
             * list (Target * list (string * list FieldNode))) :=
  let '(groupedFieldSet, fieldsByTarget) := acc in
  if JSSet.has key keys then
    let fieldGroup := match JSMap.get key groupedFieldSet with
                      | Some fieldGroup => fieldGroup
                      | None => mkFieldGroup [] maskingTargets
                      end in
    match JSMap.get key targetsByKey with
    | None => TypeError
    | Some keyTargets =>
        '(groupFields, fieldsByTarget) ←
          forOf (takeFieldsOfTarget key) keyTargets
            (fields fieldGroup, fieldsByTarget);
        Ok (JSMap.set key (mkFieldGroup groupFields (targets fieldGroup))
              groupedFieldSet,
            fieldsByTarget)
    end
  else Ok (groupedFieldSet, fieldsByTarget).

(** Returns the grouped field set together with [fieldsByTarget] as the
    deletions leave it.  The loop runs over the keys that the first
    target's map has when it starts: the only deletion from that map
    during the loop is that of the key in hand. *)
Definition getOrderedGroupedFieldSet (keys : list string)
    (maskingTargets : list Target)
    (targetsByKey : list (string * list Target))
    (fieldsByTarget : list (Target * list (string * list FieldNode)))
  : Outcome (list (string * FieldGroup)
             * list (Target * list (string * list FieldNode))) :=
  let firstTarget := match maskingTargets with
                     | firstTarget :: _ => firstTarget
                     | [] => None
                     end in
  match JSMap.get firstTarget fieldsByTarget with
  | None => TypeError
  | Some firstFields =>
      forOf (orderedGroupStep keys maskingTargets targetsByKey)
        (JSMap.keys firstFields) ([], fieldsByTarget)
  end.

Definition newGroupedFieldSetStep
    (targetsByKey : list (string * list Target))
    (acc : list (list Target * GroupedFieldSetDetails)
           * list (Target * list (string * list FieldNode)))
    (entry : list Target * TargetSetDetails)
  : Outcome (list (list Target * GroupedFieldSetDetails)
             * list (Target * list (string * list FieldNode))) :=
  let '(newGroupedFieldSetDetails, fieldsByTarget) := acc in
  let '(maskingTargets, targetSetDetails) := entry in
  '(newGroupedFieldSet, fieldsByTarget) ←
    getOrderedGroupedFieldSet (keys targetSetDetails) maskingTargets
      targetsByKey fieldsByTarget;
  Ok (newGroupedFieldSetDetails ++
        [(maskingTargets,
          {| detailsGroupedFieldSet := newGroupedFieldSet;
             detailsShouldInitiateDefer :=
               shouldInitiateDefer targetSetDetails |})],
      fieldsByTarget).

Definition buildGroupedFieldSets
    (targetsByKey : list (string * list Target))
    (fieldsByTarget : list (Target * list (string * list FieldNode)))
    (parentTargets : list Target) : Outcome GroupedFieldSets :=
  let '(parentTargetKeys, targetSetDetailsMap) :=
    getTargetSetDetails targetsByKey parentTargets in
  '(groupedFieldSet, fieldsByTarget) ←
    (if bool_decide (0 < length parentTargetKeys) then
       getOrderedGroupedFieldSet parentTargetKeys parentTargets targetsByKey
         fieldsByTarget
     else Ok ([], fieldsByTarget));
  '(newGroupedFieldSetDetails, _) ←
    forOf (newGroupedFieldSetStep targetsByKey) targetSetDetailsMap
      ([], fieldsByTarget);
  Ok {| groupedFieldSet := groupedFieldSet;
        newGroupedFieldSetDetails := newGroupedFieldSetDetails |}.

Section entry_points.

Variable getDirectiveValues :
  GraphQLDirective → Selection → gmap string JSValue →
  option (gmap string JSValue).

Definition collectFields (fuel : nat) (schema : GraphQLSchema)
    (fragments : gmap string FragmentDefinition)
    (variableValues : gmap string JSValue) (runtimeType : GraphQLType)
    (operation : OperationDefinition) : Outcome CollectFieldsResult :=
  context ←
    collectFieldsImpl getDirectiveValues schema fragments variableValues
      runtimeType operation fuel (operationSelectionSet operation) None None
      (newContext 0);
  sets ← buildGroupedFieldSets (targetsByKey context)
            (fieldsByTarget context) NON_DEFERRED_TARGET_SET;
  Ok {| resultGroupedFieldSet := groupedFieldSet sets;
        resultNewGroupedFieldSetDetails := newGroupedFieldSetDetails sets;
        resultNewDeferUsages := newDeferUsages context |}.

(** [oid0] is an identity above those of the defer usages that exist when
    the call is made (those of [fieldGroup]). *)
Definition collectSubfields (fuel : nat) (oid0 : nat)
    (schema : GraphQLSchema) (fragments : gmap string FragmentDefinition)
    (variableValues : gmap string JSValue)
    (operation : OperationDefinition) (returnType : GraphQLType)
    (fieldGroup : FieldGroup) : Outcome CollectFieldsResult :=
  context ←
    forOf (λ context fieldDetails,
             match fieldSelectionSet (node fieldDetails) with
             | Some selectionSet =>
                 collectFieldsImpl getDirectiveValues schema fragments
                   variableValues returnType operation fuel selectionSet
                   (target fieldDetails) None context
             | None => Ok context
             end) (fields fieldGroup) (newContext oid0);
  sets ← buildGroupedFieldSets (targetsByKey context)
            (fieldsByTarget context) (targets fieldGroup);
  Ok {| resultGroupedFieldSet := groupedFieldSet sets;
        resultNewGroupedFieldSetDetails := newGroupedFieldSetDetails sets;
        resultNewDeferUsages := newDeferUsages context |}.

End entry_points.

(** ** A directive-argument coercion to run the collector with *)

Definition valueOfNode (variableValues : gmap string JSValue)
    (valueNode : ValueNode) : option JSValue :=
  match valueNode with
  | VariableNode name => variableValues !! name
  | BooleanValueNode b => Some (JSBool b)
  | StringValueNode s => Some (JSString s)
  | IntValueNode n => Some (JSNumber n)
  | NullValueNode => Some JSNull
  end.

(** Modelled from the spec: getDirectiveValues (execution/values.mjs is not
    among the sources) "produces typed directive argument maps from AST +
    variables", an [Option<Map<name, value>>] that is none when the node
    does not carry the directive.  An argument takes the value of its
    literal or of its variable, else the default of the definition. *)
Definition getDirectiveValues (directiveDef : GraphQLDirective)
    (node : Selection) (variableValues : gmap string JSValue)
  : option (gmap string JSValue) :=
  match
    List.find (λ d, bool_decide (directiveName d
                                 = directiveDefName directiveDef))
      (selectionDirectives node)
  with
  | None => None
  | Some directive =>
      Some (fold_left
              (λ coerced '(name, valueNode),
                 match valueOfNode variableValues valueNode with
                 | Some v => <[name := v]> coerced
                 | None => coerced
                 end)
              (directiveArguments directive)
              (list_to_map (directiveDefaults directiveDef)))
  end.

(** ** Documents and accumulators to run the code on *)

Definition queryType : GraphQLType := mkGraphQLType "Query" ObjectKind.
Definition nodeInterface : GraphQLType := mkGraphQLType "Node" InterfaceKind.

(** A schema with an object type [Query] that implements the interface
    [Node]. *)
Definition smallSchema : GraphQLSchema :=
  mkGraphQLSchema
    (λ name, if decide (name = "Query") then Some queryType
             else if decide (name = "Node") then Some nodeInterface
             else None)
    (λ abstractType type,
       bool_decide (abstractType = nodeInterface ∧ type = queryType)).

Definition plainField (name : string) : Selection :=
  Field (mkFieldNode None name [] None).

Definition deferDirective : DirectiveNode := mkDirectiveNode "defer" [].

Definition deferLabelled (l : string) : DirectiveNode :=
  mkDirectiveNode "defer" [("label", StringValueNode l)].

Definition skipTrue : DirectiveNode :=
  mkDirectiveNode "skip" [("if", BooleanValueNode true)].

Definition includeTrue : DirectiveNode :=
  mkDirectiveNode "include" [("if", BooleanValueNode true)].

(** The scenario of the specification, [{ a b ... @defer { b c } }], the
    defer usage it creates and the accumulators that the collector leaves
    for it. *)
Definition scenarioSelectionSet : list Selection :=
  [plainField "a"; plainField "b";
   InlineFragment None [deferDirective] [plainField "b"; plainField "c"]].

Definition scenarioUsage : DeferUsage := mkDeferUsage 0 None [None].

Definition scenarioTargetsByKey : list (string * list Target) :=
  [("a", [None]); ("b", [None; Some scenarioUsage]);
   ("c", [Some scenarioUsage])].

Definition scenarioFieldsByTarget
  : list (Target * list (string * list FieldNode)) :=
  [(None, [("a", [mkFieldNode None "a" [] None]);
           ("b", [mkFieldNode None "b" [] None])]);
   (Some scenarioUsage, [("b", [mkFieldNode None "b" [] None]);
                         ("c", [mkFieldNode None "c" [] None])])].

(** A fragment [fragment F on Query { y }] and selection sets that spread
    it twice: [{ x ...F z ...F }] and [{ ...F ... @defer { ...F w } }]. *)
Definition fragmentF : FragmentDefinition :=
  mkFragmentDefinition "F" (mkNamedTypeNode "Query") [plainField "y"].

Definition fragmentsF : gmap string FragmentDefinition :=
  {["F" := fragmentF]}.

Definition spreadTwice : list Selection :=
  [plainField "x"; FragmentSpread "F" []; plainField "z";
   FragmentSpread "F" []].

Definition spreadOnce : list Selection :=
  [plainField "x"; FragmentSpread "F" []; plainField "z"].

Definition spreadThenDeferred : list Selection :=
  [FragmentSpread "F" [];
   InlineFragment None [deferDirective]
     [FragmentSpread "F" []; plainField "w"]].

(** ** Notions used to state the properties *)

Abbreviation FieldsByTarget :=
  (list (Target * list (string * list FieldNode))).

(** Two sets have the same members. *)
Definition sameMembers {A} (s1 s2 : list A) : Prop := ∀ x, x ∈ s1 ↔ x ∈ s2.

(** The masking target set that [getTargetSetDetails] computes for a key
    with the given targets. *)
Definition maskingTargetsOf (targets : list Target) : list Target :=
  JSSet.of_list (maskingTargetListOf targets).

(** [target.ancestors]; the base target has none. *)
Definition targetAncestors (target : Target) : list Target :=
  match target with
  | Some deferUsage => ancestors deferUsage
  | None => []
  end.

(** The nodes accumulated for a key under a target. *)
Definition nodesOf (fieldsByTarget : FieldsByTarget) (target : Target)
    (key : string) : option (list FieldNode) :=
  fieldsForTarget ← JSMap.get target fieldsByTarget;
  JSMap.get key fieldsForTarget.

(** The field details that the nodes of a key under a target become. *)
Definition detailsOf (fieldsByTarget : FieldsByTarget) (key : string)
    (target : Target) : list FieldDetails :=
  map (λ node, mkFieldDetails node target)
    (default [] (nodesOf fieldsByTarget target key)).

(** The targets recorded for a key. *)
Definition keyTargetsOf (targetsByKey : list (string * list Target))
    (key : string) : list Target :=
  default [] (JSMap.get key targetsByKey).

(** [maskingTargets.values().next().value]: the first member, [undefined]
    for an empty set. *)
Definition firstTargetOf (maskingTargets : list Target) : Target :=
  match maskingTargets with
  | firstTarget :: _ => firstTarget
  | [] => None
  end.

(** No map of a target repeats a key. *)
Definition innerKeysNoDup (fieldsByTarget : FieldsByTarget) : Prop :=
  ∀ T fs, JSMap.get T fieldsByTarget = Some fs → NoDup (JSMap.keys fs).

(** The two accumulators are in step: keys and members are not repeated,
    every key has a target, and every target that a key lists has, in its
    own map, a non-empty list of nodes for that key. *)
Record Synced (targetsByKey : list (string * list Target))
    (fieldsByTarget : FieldsByTarget) : Prop := {
  synced_keys : NoDup (JSMap.keys targetsByKey);
  synced_targets : ∀ K ts,
    JSMap.get K targetsByKey = Some ts → NoDup ts ∧ ts ≠ [];
  synced_inner : innerKeysNoDup fieldsByTarget;
  synced_nodes : ∀ K ts T,
    JSMap.get K targetsByKey = Some ts → T ∈ ts →
    ∃ nodes, nodesOf fieldsByTarget T K = Some nodes ∧ nodes ≠ []
}.

(** What holds of the two results of [getTargetSetDetails] after the
    entries [processed] of [targetsByKey]. *)
Record PartitionInv (parentTargets : list Target)
    (processed : list (string * list Target))
    (parentTargetKeys : list string)
    (targetSetDetailsMap : list (list Target * TargetSetDetails)) : Prop := {
  inv_parent_keys : ∀ K,
    K ∈ parentTargetKeys ↔
    ∃ ts, (K, ts) ∈ processed
          ∧ sameMembers (maskingTargetsOf ts) parentTargets;
  inv_parent_NoDup : NoDup parentTargetKeys;
  inv_entry_keys : ∀ M d K,
    (M, d) ∈ targetSetDetailsMap →
    K ∈ keys d ↔
    ∃ ts, (K, ts) ∈ processed
          ∧ ¬ sameMembers (maskingTargetsOf ts) parentTargets
          ∧ sameMembers M (maskingTargetsOf ts);
  inv_entry_exists : ∀ K ts,
    (K, ts) ∈ processed →
    ¬ sameMembers (maskingTargetsOf ts) parentTargets →
    ∃ M d, (M, d) ∈ targetSetDetailsMap
           ∧ sameMembers M (maskingTargetsOf ts);
  inv_entries_distinct : ∀ i j M M',
    targetSetDetailsMap.*1 !! i = Some M →
    targetSetDetailsMap.*1 !! j = Some M' →
    sameMembers M M' → i = j;
  inv_entry_flag : ∀ M d,
    (M, d) ∈ targetSetDetailsMap →
    shouldInitiateDefer d = true ↔ ∃ T, T ∈ M ∧ T ∉ parentTargets;
  inv_entry_shape : ∀ M d,
    (M, d) ∈ targetSetDetailsMap →
    keys d ≠ [] ∧ NoDup (keys d) ∧ ¬ sameMembers M parentTargets
    ∧ ∃ K ts, (K, ts) ∈ processed ∧ M = maskingTargetsOf ts
}.

(** The entries of [targetSetDetailsMap] take keys that no earlier group
    has taken. *)
Fixpoint freshGroups (used : list string)
    (entries : list (list Target * TargetSetDetails)) : Prop :=
  match entries with
  | [] => True
  | (_, d) :: rest =>
      (∀ K, K ∈ keys d → K ∉ used) ∧ freshGroups (used ++ keys d) rest
  end.

(** What [fieldsByTarget] is, relative to the accumulator [original] the
    builder was handed, once the keys [used] have been moved to groups. *)
Record Remaining (original : FieldsByTarget) (used : list string)
    (fieldsByTarget : FieldsByTarget) : Prop := {
  remaining_inner : innerKeysNoDup fieldsByTarget;
  remaining_targets : ∀ T,
    is_Some (JSMap.get T fieldsByTarget) ↔ is_Some (JSMap.get T original);
  remaining_nodes : ∀ T K,
    K ∉ used → nodesOf fieldsByTarget T K = nodesOf original T K
}.

(** An entry of [newGroupedFieldSetDetails] is the group of an entry of
    [targetSetDetailsMap]: same masking set, same flag, the keys of the
    entry, each with the nodes of all the targets of the key. *)
Definition GroupOf (targetsByKey : list (string * list Target))
    (fieldsByTarget : FieldsByTarget)
    (entry : list Target * TargetSetDetails)
    (group : list Target * GroupedFieldSetDetails) : Prop :=
  group.1 = entry.1
  ∧ detailsShouldInitiateDefer group.2 = shouldInitiateDefer entry.2
  ∧ (∀ K, K ∈ JSMap.keys (detailsGroupedFieldSet group.2)
          ↔ K ∈ keys entry.2)
  ∧ (∀ K g, (K, g) ∈ detailsGroupedFieldSet group.2 →
       fields g = flat_map (detailsOf fieldsByTarget K)
                    (keyTargetsOf targetsByKey K)
       ∧ targets g = entry.1).

(** The field list of a group as the specification words it: the
    concatenation over the targets of the masking set, no node collected
    under a target outside the masking set appearing in it. *)
Definition fieldsFromMaskingTargetsOnly (keys : list string)
    (maskingTargets : list Target)
    (targetsByKey : list (string * list Target))
    (fieldsByTarget : FieldsByTarget) : Prop :=
  ∀ gfs fieldsByTarget' K g,
    getOrderedGroupedFieldSet keys maskingTargets targetsByKey
      fieldsByTarget = Ok (gfs, fieldsByTarget') →
    (K, g) ∈ gfs →
    fields g = flat_map (detailsOf fieldsByTarget K) maskingTargets
    ∧ ∀ fieldDetails,
        fieldDetails ∈ fields g → target fieldDetails ∈ maskingTargets.

(** ** Notions used to state further properties *)

(** [newTarget ?? parentTarget]: the target a field is recorded under. *)
Definition effectiveTarget (parentTarget : Target)
    (newTarget : option DeferUsage) : Target :=
  match newTarget with
  | Some _ => newTarget
  | None => parentTarget
  end.

(** The nodes of a list whose fields are included and have a given key. *)
Definition includedWithKey (included : Selection → bool) (key : string)
    (nodes : list FieldNode) : list FieldNode :=
  filter (λ node, included (Field node) = true ∧ getFieldEntryKey node = key)
    nodes.

(** A list of nodes after more nodes have been appended to it; no list is
    made when there is nothing to append. *)
Definition appendNodes {A} (old : option (list A)) (added : list A)
  : option (list A) :=
  match added with
  | [] => old
  | _ :: _ => Some (default [] old ++ added)
  end.


(** The nesting of inline fragments in a selection, and the names spread
    in it at the level the collector walks (sub-selections of fields are
    not walked by one collection). *)
Fixpoint selectionDepth (selection : Selection) : nat :=
  match selection with
  | Field _ => 0
  | FragmentSpread _ _ => 0
  | InlineFragment _ _ selectionSet =>
      S (list_max (map selectionDepth selectionSet))
  end.

Definition selectionSetDepth (selectionSet : list Selection) : nat :=
  list_max (map selectionDepth selectionSet).

Fixpoint spreadsIn (selection : Selection) : list string :=
  match selection with
  | Field _ => []
  | FragmentSpread name _ => [name]
  | InlineFragment _ _ selectionSet => flat_map spreadsIn selectionSet
  end.

(** The spread graph of the fragment table has no cycle: a rank on the
    names decreases along every spread of a defined fragment. *)
Definition RankedFragments (fragments : gmap string FragmentDefinition)
    (rank : string → nat) : Prop :=
  ∀ F frag G,
    fragments !! F = Some frag →
    G ∈ flat_map spreadsIn (fragmentSelectionSet frag) →
    is_Some (fragments !! G) →
    rank G < rank F.

(** All the field groups that a result holds: those of the base grouped
    field set, then those of each entry of [newGroupedFieldSetDetails]. *)
Definition groupsOf (result : CollectFieldsResult)
  : list (string * FieldGroup) :=
  resultGroupedFieldSet result
  ++ flat_map (λ entry, detailsGroupedFieldSet entry.2)
       (resultNewGroupedFieldSetDetails result).


Definition fragmentsDeferLoop : gmap string FragmentDefinition :=
  {["Loop" := mkFragmentDefinition "Loop" (mkNamedTypeNode "Query")
                [FragmentSpread "Loop" [deferDirective]]]}.

(** * Validation rules *)

(** [new GraphQLError(message, { nodes })], as far as the rules fill it. *)
Record GraphQLError (Node : Type) : Type := mkGraphQLError {
  errorMessage : string;
  errorNodes : list Node
}.
Arguments mkGraphQLError {Node} errorMessage errorNodes.
Arguments errorMessage {Node} _.
Arguments errorNodes {Node} _.

(** ** UniqueOperationTypesRule *)

Record OperationTypeDefinitionNode : Type := mkOperationTypeDefinitionNode {
  operationTypeOperation : OperationTypeNode;
  operationTypeType : NamedTypeNode
}.

(** The text of an [OperationTypeNode] in a template string (the values of
    the enumeration of language/ast). *)
Definition operationText (operation : OperationTypeNode) : string :=
  match operation with
  | QUERY => "query"
  | MUTATION => "mutation"
  | SUBSCRIPTION => "subscription"
  end.

(** What the rule reads of [context.getSchema()]. *)
Record SchemaRootTypes : Type := mkSchemaRootTypes {
  getQueryType : option GraphQLType;
  getMutationType : option GraphQLType;
  getSubscriptionType : option GraphQLType
}.

(** [existingOperationTypes[operation]], the object being [{}] without a
    schema. *)
Definition existingOperationTypes (schema : option SchemaRootTypes)
    (operation : OperationTypeNode) : option GraphQLType :=
  match schema with
  | Some schema =>
      match operation with
      | QUERY => getQueryType schema
      | MUTATION => getMutationType schema
      | SUBSCRIPTION => getSubscriptionType schema
      end
  | None => None
  end.

(** The state that the visitor closes over, with the errors reported to
    the context. *)
Record OperationTypesState : Type := mkOperationTypesState {
  definedOperationTypes :
    list (OperationTypeNode * OperationTypeDefinitionNode);
  operationTypeErrors : list (GraphQLError OperationTypeDefinitionNode)
}.

Definition alreadyInSchemaError (operationType : OperationTypeDefinitionNode)
  : GraphQLError OperationTypeDefinitionNode :=
  mkGraphQLError
    (String.append "Type for "
       (String.append (operationText (operationTypeOperation operationType))
          " already defined in the schema. It cannot be redefined."))
    [operationType].

Definition onlyOneError
    (alreadyDefinedOperationType operationType : OperationTypeDefinitionNode)
  : GraphQLError OperationTypeDefinitionNode :=
  mkGraphQLError
    (String.append "There can be only one "
       (String.append (operationText (operationTypeOperation operationType))
          " type in schema."))
    [alreadyDefinedOperationType; operationType].

(** The body of the loop of [checkOperationTypes]. *)
Definition checkOperationType (schema : option SchemaRootTypes)
    (state : OperationTypesState)
    (operationType : OperationTypeDefinitionNode) : OperationTypesState :=
  let operation := operationTypeOperation operationType in
  let alreadyDefinedOperationType :=
    JSMap.get operation (definedOperationTypes state) in
  match existingOperationTypes schema operation with
  | Some _ =>
      mkOperationTypesState (definedOperationTypes state)
        (operationTypeErrors state ++ [alreadyInSchemaError operationType])
  | None =>
      match alreadyDefinedOperationType with
      | Some alreadyDefinedOperationType =>
          mkOperationTypesState (definedOperationTypes state)
            (operationTypeErrors state
             ++ [onlyOneError alreadyDefinedOperationType operationType])
      | None =>
          mkOperationTypesState
            (JSMap.set operation operationType (definedOperationTypes state))
            (operationTypeErrors state)
      end
  end.

(** [checkOperationTypes(node)]; [operationTypes] is [node.operationTypes],
    which a schema extension may not have. *)
Definition checkOperationTypes (schema : option SchemaRootTypes)
    (state : OperationTypesState)
    (operationTypes : option (list OperationTypeDefinitionNode))
  : OperationTypesState :=
  fold_left (checkOperationType schema) (default [] operationTypes) state.

(** The rule over the schema definitions and extensions of a document, in
    the order in which the visitor meets them, each given by its
    [operationTypes]. *)
Definition UniqueOperationTypesRule (schema : option SchemaRootTypes)
    (document : list (option (list OperationTypeDefinitionNode)))
  : OperationTypesState :=
  fold_left (checkOperationTypes schema) document
    (mkOperationTypesState [] []).

(** The operation type definitions of a document, in order. *)
Definition operationTypesOf
    (document : list (option (list OperationTypeDefinitionNode)))
  : list OperationTypeDefinitionNode :=
  flat_map (default []) document.

(** The first definition of an operation in a list. *)
Definition firstDefinition (operation : OperationTypeNode)
    (operationTypes : list OperationTypeDefinitionNode)
  : option OperationTypeDefinitionNode :=
  List.find (λ operationType,
               bool_decide (operationTypeOperation operationType = operation))
    operationTypes.

(** A schema with a query type, and a document
    [schema { query: Q }  extend schema { mutation: M  mutation: N }]. *)
Definition schemaWithQuery : option SchemaRootTypes :=
  Some (mkSchemaRootTypes (Some queryType) None None).

Definition redefiningDocument
  : list (option (list OperationTypeDefinitionNode)) :=
  [Some [mkOperationTypeDefinitionNode QUERY (mkNamedTypeNode "Q")];
   None;
   Some [mkOperationTypeDefinitionNode MUTATION (mkNamedTypeNode "M");
         mkOperationTypeDefinitionNode MUTATION (mkNamedTypeNode "N")]].

(** ** NoFragmentCyclesRule *)

Record FragmentSpreadNode : Type := mkFragmentSpreadNode {
  spreadNodeName : string;
  spreadNodeDirectives : list DirectiveNode
}.

(** The state that the visitor closes over, with the errors reported to
    the context.  A property of [spreadPathIndexByName] holds a position or
    [undefined]. *)
Record CyclesState : Type := mkCyclesState {
  visitedFrags : gset string;
  spreadPath : list FragmentSpreadNode;
  spreadPathIndexByName : gmap string (option nat);
  cycleErrors : list (GraphQLError FragmentSpreadNode)
}.

Definition newCyclesState : CyclesState := mkCyclesState ∅ [] ∅ [].

(** [spreadPathIndexByName[name]] *)
Definition cycleIndexOf (state : CyclesState) (name : string) : option nat :=
  match spreadPathIndexByName state !! name with
  | Some index => index
  | None => None
  end.

(** [spreadPathIndexByName[name] = index] *)
Definition setIndex (name : string) (index : option nat)
    (state : CyclesState) : CyclesState :=
  mkCyclesState (visitedFrags state) (spreadPath state)
    (<[name := index]> (spreadPathIndexByName state)) (cycleErrors state).

(** [visitedFrags.add(fragmentName)] *)
Definition addVisited (fragmentName : string) (state : CyclesState)
  : CyclesState :=
  mkCyclesState ({[fragmentName]} ∪ visitedFrags state) (spreadPath state)
    (spreadPathIndexByName state) (cycleErrors state).

(** [spreadPath.push(spreadNode)] and [spreadPath.pop()] *)
Definition pushSpread (spreadNode : FragmentSpreadNode) (state : CyclesState)
  : CyclesState :=
  mkCyclesState (visitedFrags state) (spreadPath state ++ [spreadNode])
    (spreadPathIndexByName state) (cycleErrors state).

Definition popSpread (state : CyclesState) : CyclesState :=
  mkCyclesState (visitedFrags state) (removelast (spreadPath state))
    (spreadPathIndexByName state) (cycleErrors state).

(** The character of a double quote, and a name between two of them. *)
Definition doubleQuote : string :=
  String (Ascii.ascii_of_nat 34) EmptyString.

Definition quoted (name : string) : string :=
  String.append doubleQuote (String.append name doubleQuote).

(** The message of a cycle: [viaPath] is made of the names of all the
    spreads of the cycle path but the last. *)
Definition cycleMessage (spreadName : string)
    (cyclePath : list FragmentSpreadNode) : string :=
  let viaPath :=
    String.concat ", "
      (map (λ s, quoted (spreadNodeName s)) (removelast cyclePath)) in
  String.append "Cannot spread fragment "
    (String.append (quoted spreadName)
       (String.append " within itself"
          (if decide (viaPath = EmptyString) then "."
           else String.append " via " (String.append viaPath ".")))).

(** The [else] branch of the loop: the error on [spreadPath.slice(cycleIndex)]. *)
Definition reportCycle (spreadName : string) (cycleIndex : nat)
    (state : CyclesState) : CyclesState :=
  let cyclePath := drop cycleIndex (spreadPath state) in
  mkCyclesState (visitedFrags state) (spreadPath state)
    (spreadPathIndexByName state)
    (cycleErrors state
     ++ [mkGraphQLError (cycleMessage spreadName cyclePath) cyclePath]).

Section NoFragmentCyclesRule.

(** [context.getFragmentSpreads] and [context.getFragment] of the
    validation context, which is not among the sources. *)
Variable getFragmentSpreads : list Selection → list FragmentSpreadNode.
Variable getFragment : string → option FragmentDefinition.

(** The body of the loop over the spreads of a fragment, [recurse] standing
    for the recursive call. *)
Definition visitSpread
    (recurse : FragmentDefinition → CyclesState → Outcome CyclesState)
    (state : CyclesState) (spreadNode : FragmentSpreadNode)
  : Outcome CyclesState :=
  let spreadName := spreadNodeName spreadNode in
  let cycleIndex := cycleIndexOf state spreadName in
  let state := pushSpread spreadNode state in
  state ←
    match cycleIndex with
    | None =>
        match getFragment spreadName with
        | Some spreadFragment => recurse spreadFragment state
        | None => Ok state
        end
    | Some cycleIndex => Ok (reportCycle spreadName cycleIndex state)
    end;
  Ok (popSpread state).

(** [fuel] bounds the depth of the recursion. *)
Fixpoint detectCycleRecursive (fuel : nat) (fragment : FragmentDefinition)
    (state : CyclesState) {struct fuel} : Outcome CyclesState :=
  match fuel with
  | 0 => OutOfFuel
  | S fuel =>
      if bool_decide (fragmentName fragment ∈ visitedFrags state)
      then Ok state
      else
        let fragmentName := fragmentName fragment in
        let state := addVisited fragmentName state in
        let spreadNodes :=
          getFragmentSpreads (fragmentSelectionSet fragment) in
        if bool_decide (length spreadNodes = 0) then Ok state
        else
          let state :=
            setIndex fragmentName (Some (length (spreadPath state))) state in
          state ← forOf (visitSpread (detectCycleRecursive fuel)) spreadNodes
                     state;
          Ok (setIndex fragmentName None state)
  end.

(** The rule over the fragment definitions of a document, in the order in
    which the visitor meets them (operation definitions are skipped). *)
Definition NoFragmentCyclesRule (fuel : nat)
    (definitions : list FragmentDefinition) : Outcome CyclesState :=
  forOf (λ state node, detectCycleRecursive fuel node state) definitions
    newCyclesState.

(** The spreads of the fragment of a name. *)
Definition spreadNodesOf (name : string) : list FragmentSpreadNode :=
  match getFragment name with
  | Some fragment => getFragmentSpreads (fragmentSelectionSet fragment)
  | None => []
  end.

(** A chain of spreads from a fragment to another: each spread is in the
    fragment that the one before names. *)
Inductive SpreadChain : string → list FragmentSpreadNode → string → Prop :=
| chain_last (from : string) (spreadNode : FragmentSpreadNode) :
    spreadNode ∈ spreadNodesOf from →
    SpreadChain from [spreadNode] (spreadNodeName spreadNode)
| chain_cons (from to : string) (spreadNode : FragmentSpreadNode)
    (rest : list FragmentSpreadNode) :
    spreadNode ∈ spreadNodesOf from →
    SpreadChain (spreadNodeName spreadNode) rest to →
    SpreadChain from (spreadNode :: rest) to.

(** The context is built from one document: a fragment is found under its
    own name. *)
Definition ConsistentContext : Prop :=
  ∀ name fragment,
    getFragment name = Some fragment → fragmentName fragment = name.

(** The fragments on the path of the search: [stack] lists them, the
    position of each being its index; with [current], the fragment being
    entered, they are linked by the spreads of the path. *)
Record OnPath (stack : list string) (state : CyclesState) : Prop := {
  path_index : ∀ name i,
    cycleIndexOf state name = Some i ↔ stack !! i = Some name;
  path_visited : ∀ name, name ∈ stack → name ∈ visitedFrags state
}.

Definition Linked (names : list string) (path : list FragmentSpreadNode)
  : Prop :=
  length names = S (length path)
  ∧ ∀ i spreadNode,
      path !! i = Some spreadNode →
      ∃ name,
        names !! i = Some name
        ∧ spreadNode ∈ spreadNodesOf name
        ∧ names !! S i = Some (spreadNodeName spreadNode).

(** Every error is on a chain of spreads that comes back to the fragment
    it starts from, and names that fragment. *)
Definition SoundErrors (errors : list (GraphQLError FragmentSpreadNode))
  : Prop :=
  ∀ error, error ∈ errors →
    ∃ name,
      SpreadChain name (errorNodes error) name
      ∧ errorMessage error = cycleMessage name (errorNodes error).

(** The fragments the search is done with (visited and no more on the
    path) spread only such fragments, of lower rank. *)
Definition Finished (stack : list string) (state : CyclesState)
    (rank : string → nat) (bound : nat) : Prop :=
  ∀ name,
    name ∈ visitedFrags state → name ∉ stack →
    rank name < bound
    ∧ ∀ spreadNode,
        spreadNode ∈ spreadNodesOf name →
        is_Some (getFragment (spreadNodeName spreadNode)) →
        spreadNodeName spreadNode ∈ visitedFrags state
        ∧ (spreadNodeName spreadNode ∉ stack)
        ∧ rank (spreadNodeName spreadNode) < rank name.

End NoFragmentCyclesRule.

(** A name with a position on the path has been visited. *)
Definition IndexedVisited (state : CyclesState) : Prop :=
  ∀ name, is_Some (cycleIndexOf state name) → name ∈ visitedFrags state.

(** What a call leaves as it found it, and what it only adds to. *)
Record CycleFrame (state state' : CyclesState) : Prop := {
  frame_path : spreadPath state' = spreadPath state;
  frame_index : ∀ name, cycleIndexOf state' name = cycleIndexOf state name;
  frame_visited : visitedFrags state ⊆ visitedFrags state';
  frame_errors : cycleErrors state `prefix_of` cycleErrors state'
}.

(** A reading of the spreads of a selection set to run the rule with: the
    spreads that the collector meets, in document order. *)
Definition spreadNodesIn (selectionSet : list Selection)
  : list FragmentSpreadNode :=
  (λ name, mkFragmentSpreadNode name []) <$> flat_map spreadsIn selectionSet.

(** [fragment Loop on Query { y ...Loop }] and a fragment that spreads it,
    [fragment Outer on Query { ... { ...Loop } }]. *)
Definition loopDefinition : FragmentDefinition :=
  mkFragmentDefinition "Loop" (mkNamedTypeNode "Query")
    [plainField "y"; FragmentSpread "Loop" []].

Definition outerDefinition : FragmentDefinition :=
  mkFragmentDefinition "Outer" (mkNamedTypeNode "Query")
    [InlineFragment None [] [FragmentSpread "Loop" []]].

Definition loopDocument : gmap string FragmentDefinition :=
  {["Outer" := outerDefinition; "Loop" := loopDefinition]}.

(** [fragment A on Query { ...B x }  fragment B on Query { y }] *)
Definition chainDocument : gmap string FragmentDefinition :=
  {["A" := mkFragmentDefinition "A" (mkNamedTypeNode "Query")
             [FragmentSpread "B" []; plainField "x"];
    "B" := mkFragmentDefinition "B" (mkNamedTypeNode "Query")
             [plainField "y"]]}.

(** * Properties *)

(** ** Loops *)

Lemma bind_Ok {A B} (m : Outcome A) (f : A → Outcome B) (b : B) :
  m ≫= f = Ok b ↔ ∃ a, m = Ok a ∧ f a = Ok b.
Proof.
  destruct m as [a| | |]; simpl; split; try done.
  - intros H. by exists a.
  - by intros (a' & [= <-] & H).
  - by intros (a' & ? & _).
  - by intros (a' & ? & _).
  - by intros (a' & ? & _).
Qed.

Lemma forOf_nil {A S} (body : S → A → Outcome S) (s : S) :
  forOf body [] s = Ok s.
Proof. done. Qed.

Lemma forOf_cons {A S} (body : S → A → Outcome S) (x : A) (xs : list A)
    (s : S) :
  forOf body (x :: xs) s = body s x ≫= forOf body xs.
Proof. done. Qed.

Lemma forOf_app {A S} (body : S → A → Outcome S) (xs ys : list A) (s : S) :
  forOf body (xs ++ ys) s = forOf body xs s ≫= forOf body ys.
Proof.
  revert s. induction xs as [|x xs IH]; intros s; [done|].
  rewrite <- app_comm_cons, !forOf_cons.
  destruct (body s x) as [s'| | |]; simpl; [apply IH|done..].
Qed.

(** ** Sets and maps *)

Module JSSetFacts.
Section facts.
Context {A : Type} `{EqDecision A}.
Implicit Types (x y : A) (s l : list A).

Lemma has_true x s : JSSet.has x s = true ↔ x ∈ s.
Proof. unfold JSSet.has. by rewrite bool_decide_eq_true. Qed.

Lemma has_false x s : JSSet.has x s = false ↔ x ∉ s.
Proof. unfold JSSet.has. by rewrite bool_decide_eq_false. Qed.

Lemma elem_of_add x y s : x ∈ JSSet.add y s ↔ x = y ∨ x ∈ s.
Proof.
  unfold JSSet.add. destruct (JSSet.has y s) eqn:E.
  - apply has_true in E. split; [by right|]. by intros [->|].
  - rewrite elem_of_app, list_elem_of_singleton. tauto.
Qed.

Lemma NoDup_add y s : NoDup s → NoDup (JSSet.add y s).
Proof.
  intros Hs. unfold JSSet.add. destruct (JSSet.has y s) eqn:E; [done|].
  apply has_false in E. apply NoDup_app. split_and!; [done| |apply NoDup_singleton].
  intros z Hz ->%list_elem_of_singleton. done.
Qed.

Lemma add_not_nil y s : JSSet.add y s ≠ [].
Proof.
  unfold JSSet.add. destruct (JSSet.has y s) eqn:E.
  - apply has_true in E. intros ->. by apply not_elem_of_nil in E.
  - by destruct s.
Qed.

Lemma fold_add_elem x l s :
  x ∈ fold_left (λ s x, JSSet.add x s) l s ↔ x ∈ s ∨ x ∈ l.
Proof.
  revert s. induction l as [|y l IH]; intros s; simpl.
  - rewrite elem_of_nil. tauto.
  - rewrite IH, elem_of_add, elem_of_cons. tauto.
Qed.

Lemma fold_add_NoDup l s :
  NoDup s → NoDup (fold_left (λ s x, JSSet.add x s) l s).
Proof.
  revert s. induction l as [|y l IH]; intros s Hs; simpl; [done|].
  by apply IH, NoDup_add.
Qed.

Lemma elem_of_of_list x l : x ∈ JSSet.of_list l ↔ x ∈ l.
Proof. unfold JSSet.of_list. rewrite fold_add_elem, elem_of_nil. tauto. Qed.

Lemma NoDup_of_list l : NoDup (JSSet.of_list l).
Proof. apply fold_add_NoDup, NoDup_nil_2. Qed.

Lemma of_list_not_nil l : l ≠ [] → JSSet.of_list l ≠ [].
Proof.
  destruct l as [|x l]; [done|]. intros _ Hnil.
  assert (Hx : x ∈ JSSet.of_list (x :: l)) by (apply elem_of_of_list; left).
  rewrite Hnil in Hx. by apply not_elem_of_nil in Hx.
Qed.

End facts.
End JSSetFacts.

Lemma sameMembers_refl {A} (s : list A) : sameMembers s s.
Proof. by intros x. Qed.

Lemma sameMembers_sym {A} (s1 s2 : list A) :
  sameMembers s1 s2 → sameMembers s2 s1.
Proof. intros H x. symmetry. apply H. Qed.

Lemma sameMembers_trans {A} (s1 s2 s3 : list A) :
  sameMembers s1 s2 → sameMembers s2 s3 → sameMembers s1 s3.
Proof. intros H1 H2 x. etrans; [apply H1|apply H2]. Qed.

Lemma isSameSet_true {A} `{EqDecision A} (s1 s2 : list A) :
  isSameSet s1 s2 = true ↔ sameMembers s1 s2.
Proof.
  unfold isSameSet, sameMembers.
  rewrite andb_true_iff, !forallb_forall. split.
  - intros [H1 H2] x. split; intros Hx.
    + apply JSSetFacts.has_true, H1. by apply list_elem_of_In.
    + apply JSSetFacts.has_true, H2. by apply list_elem_of_In.
  - intros H'. split; intros x Hx%list_elem_of_In;
      apply JSSetFacts.has_true; by apply H'.
Qed.

Lemma isSameSet_false {A} `{EqDecision A} (s1 s2 : list A) :
  isSameSet s1 s2 = false ↔ ¬ sameMembers s1 s2.
Proof.
  rewrite <- isSameSet_true. by destruct (isSameSet s1 s2).
Qed.

Module JSMapFacts.
Section facts.
Context {K V : Type} `{EqDecision K}.
Implicit Types (k : K) (v : V) (m : list (K * V)).

Lemma get_set k k' v m :
  JSMap.get k' (JSMap.set k v m) =
  if decide (k = k') then Some v else JSMap.get k' m.
Proof.
  induction m as [|[k0 v0] m IH]; csimpl.
  - destruct (decide (k = k')); done.
  - destruct (decide (k0 = k)) as [->|Hne]; csimpl.
    + destruct (decide (k = k')); done.
    + destruct (decide (k0 = k')) as [->|]; [|done].
      by destruct (decide (k = k')); [congruence|].
Qed.

Lemma get_set_eq k v m : JSMap.get k (JSMap.set k v m) = Some v.
Proof. rewrite get_set. by destruct (decide (k = k)). Qed.

Lemma get_set_ne k k' v m :
  k ≠ k' → JSMap.get k' (JSMap.set k v m) = JSMap.get k' m.
Proof. intros. rewrite get_set. by destruct (decide (k = k')). Qed.

Lemma get_delete k k' m :
  JSMap.get k' (JSMap.delete k m) =
  if decide (k = k') then None else JSMap.get k' m.
Proof.
  unfold JSMap.delete. induction m as [|[k0 v0] m IH]; csimpl.
  - by destruct (decide (k = k')).
  - rewrite filter_cons. simpl. destruct (decide (k0 ≠ k)) as [Hne|Heq]; csimpl.
    + destruct (decide (k0 = k')) as [->|]; [|done].
      by destruct (decide (k = k')); [congruence|].
    + apply dec_stable in Heq as ->. rewrite IH.
      destruct (decide (k = k')); done.
Qed.

Lemma get_Some_elem_of k v m : JSMap.get k m = Some v → (k, v) ∈ m.
Proof.
  induction m as [|[k0 v0] m IH]; csimpl; [done|].
  destruct (decide (k0 = k)) as [->|].
  - intros [= ->]. left.
  - intros. right. auto.
Qed.

Lemma get_is_Some k m : is_Some (JSMap.get k m) ↔ k ∈ JSMap.keys m.
Proof.
  unfold JSMap.keys. induction m as [|[k0 v0] m IH]; csimpl.
  - rewrite elem_of_nil. split; [by intros [? ?]|done].
  - rewrite elem_of_cons. destruct (decide (k0 = k)) as [->|Hne].
    + split; [by left|by eexists].
    + rewrite IH. split; [by right|]. intros [->|]; [done|done].
Qed.

Lemma get_None k m : JSMap.get k m = None ↔ k ∉ JSMap.keys m.
Proof. rewrite <- get_is_Some, eq_None_not_Some. done. Qed.

Lemma elem_of_get k v m :
  NoDup (JSMap.keys m) → (k, v) ∈ m → JSMap.get k m = Some v.
Proof.
  unfold JSMap.keys. induction m as [|[k0 v0] m IH]; csimpl.
  - by intros _ ?%elem_of_nil.
  - intros [Hk0 Hnd]%NoDup_cons [[= -> ->]|Hin]%elem_of_cons.
    + by destruct (decide (k0 = k0)).
    + destruct (decide (k0 = k)) as [->|]; [|by apply IH].
      destruct Hk0. apply list_elem_of_fmap. by exists (k, v).
Qed.

Lemma keys_set k v m :
  JSMap.keys (JSMap.set k v m) =
  if decide (k ∈ JSMap.keys m) then JSMap.keys m else JSMap.keys m ++ [k].
Proof.
  unfold JSMap.keys. induction m as [|[k0 v0] m IH]; csimpl.
  - by destruct (decide (k ∈ [])) as [?%elem_of_nil|].
  - destruct (decide (k0 = k)) as [->|Hne]; csimpl.
    + destruct (decide (k ∈ k :: m.*1)) as [|Hn]; [done|].
      destruct Hn. left.
    + rewrite IH. destruct (decide (k ∈ m.*1)) as [Hin|Hnin].
      * destruct (decide (k ∈ k0 :: m.*1)) as [|Hn]; [done|].
        destruct Hn. by right.
      * destruct (decide (k ∈ k0 :: m.*1)) as [[->|]%elem_of_cons|]; done.
Qed.

Lemma elem_of_keys_set k k' v m :
  k' ∈ JSMap.keys (JSMap.set k v m) ↔ k' = k ∨ k' ∈ JSMap.keys m.
Proof.
  rewrite <- !get_is_Some, get_set. destruct (decide (k = k')) as [->|].
  - split; [by left|by eexists].
  - split; [by right|]. by intros [->|].
Qed.

Lemma NoDup_keys_set k v m :
  NoDup (JSMap.keys m) → NoDup (JSMap.keys (JSMap.set k v m)).
Proof.
  intros Hnd. rewrite keys_set. destruct (decide (k ∈ JSMap.keys m)); [done|].
  apply NoDup_app. split_and!; [done| |apply NoDup_singleton].
  by intros z Hz ->%list_elem_of_singleton.
Qed.

Lemma keys_delete k m :
  JSMap.keys (JSMap.delete k m) = filter (λ k', k' ≠ k) (JSMap.keys m).
Proof.
  unfold JSMap.keys, JSMap.delete. induction m as [|[k0 v0] m IH]; [done|].
  rewrite fmap_cons, !filter_cons. simpl.
  destruct (decide (k0 ≠ k)); csimpl; by rewrite IH.
Qed.

Lemma NoDup_keys_delete k m :
  NoDup (JSMap.keys m) → NoDup (JSMap.keys (JSMap.delete k m)).
Proof. intros. rewrite keys_delete. by apply NoDup_filter. Qed.

End facts.
End JSMapFacts.

(** ** The directive evaluator and the fragment condition *)

Section directive_evaluator.

Variable gdv :
  GraphQLDirective → Selection → gmap string JSValue →
  option (gmap string JSValue).

Lemma shouldIncludeNode_false vars node :
  shouldIncludeNode gdv vars node = false ↔
    optProp (gdv GraphQLSkipDirective node vars) "if" = JSBool true
    ∨ optProp (gdv GraphQLIncludeDirective node vars) "if" = JSBool false.
Proof.
  unfold shouldIncludeNode.
  destruct (decide (optProp (gdv GraphQLSkipDirective node vars) "if"
                    = JSBool true)) as [Hs|Hs]; [tauto|].
  destruct (decide (optProp (gdv GraphQLIncludeDirective node vars) "if"
                    = JSBool false)) as [Hi|Hi]; [tauto|].
  split; [done|]. intros [?|?]; done.
Qed.

Lemma shouldIncludeNode_true vars node :
  shouldIncludeNode gdv vars node = true ↔
    optProp (gdv GraphQLSkipDirective node vars) "if" ≠ JSBool true
    ∧ optProp (gdv GraphQLIncludeDirective node vars) "if" ≠ JSBool false.
Proof.
  rewrite <- not_false_iff_true, shouldIncludeNode_false. tauto.
Qed.

End directive_evaluator.

(** C7: [shouldIncludeNode] returns false exactly when the [if] argument of
    [@skip] is true or, that not being so, [@include] is there with an
    [if] argument that is false; otherwise (also with no directive and no
    argument at all) it returns true.  A selection (field, inline fragment
    or spread) with both [@skip(if: true)] and [@include(if: true)] is
    excluded. *)
Theorem shouldIncludeNode_spec
    (gdv : GraphQLDirective → Selection → gmap string JSValue →
           option (gmap string JSValue))
    (vars : gmap string JSValue) (node : Selection) :
  (shouldIncludeNode gdv vars node = false ↔
     optProp (gdv GraphQLSkipDirective node vars) "if" = JSBool true
     ∨ (optProp (gdv GraphQLSkipDirective node vars) "if" ≠ JSBool true
        ∧ optProp (gdv GraphQLIncludeDirective node vars) "if"
          = JSBool false))
  ∧ (shouldIncludeNode gdv vars node = true ↔
       optProp (gdv GraphQLSkipDirective node vars) "if" ≠ JSBool true
       ∧ optProp (gdv GraphQLIncludeDirective node vars) "if"
         ≠ JSBool false)
  ∧ (gdv GraphQLSkipDirective node vars = None
     ∧ gdv GraphQLIncludeDirective node vars = None
     → shouldIncludeNode gdv vars node = true)
  ∧ (∀ alias name sub,
       shouldIncludeNode getDirectiveValues vars
         (Field (mkFieldNode alias name [skipTrue; includeTrue] sub))
       = false)
  ∧ (∀ cond sub,
       shouldIncludeNode getDirectiveValues vars
         (InlineFragment cond [skipTrue; includeTrue] sub) = false)
  ∧ (∀ name,
       shouldIncludeNode getDirectiveValues vars
         (FragmentSpread name [skipTrue; includeTrue]) = false).
Proof.
  split_and!.
  - rewrite shouldIncludeNode_false.
    destruct (decide (optProp (gdv GraphQLSkipDirective node vars) "if"
                      = JSBool true)); tauto.
  - apply shouldIncludeNode_true.
  - intros [Hs Hi]. apply shouldIncludeNode_true. by rewrite Hs, Hi.
  - intros. apply shouldIncludeNode_false. left. by vm_compute.
  - intros. apply shouldIncludeNode_false. left. by vm_compute.
  - intros. apply shouldIncludeNode_false. left. by vm_compute.
Qed.

Lemma shouldIncludeNode_spec_witness :
  shouldIncludeNode getDirectiveValues ∅
    (Field (mkFieldNode None "a" [] None)) = true.
Proof.
  apply (shouldIncludeNode_spec getDirectiveValues ∅
           (Field (mkFieldNode None "a" [] None))).
  split; reflexivity.
Defined.

(** C6: [getDeferValues] returns nothing when the node has no [@defer]
    values or when their [if] is false; otherwise it fails the invariant
    on a subscription operation, and on any other operation it returns a
    record whose label is the label of the directive when that is a
    string and is absent when it is not. *)
Theorem getDeferValues_spec
    (gdv : GraphQLDirective → Selection → gmap string JSValue →
           option (gmap string JSValue))
    (operation : OperationDefinition) (vars : gmap string JSValue)
    (node : Selection) :
  (getDeferValues gdv operation vars node = Ok None ↔
     gdv GraphQLDeferDirective node vars = None
     ∨ optProp (gdv GraphQLDeferDirective node vars) "if" = JSBool false)
  ∧ (∀ defer,
       gdv GraphQLDeferDirective node vars = Some defer →
       prop defer "if" ≠ JSBool false →
       (operationType operation = SUBSCRIPTION →
        ∃ message,
          getDeferValues gdv operation vars node
          = InvariantViolation message)
       ∧ (operationType operation ≠ SUBSCRIPTION →
          ∃ l,
            getDeferValues gdv operation vars node
            = Ok (Some (mkDeferValues l))
            ∧ (∀ s, l = Some s ↔ prop defer "label" = JSString s))).
Proof.
  unfold getDeferValues. split.
  - destruct (gdv GraphQLDeferDirective node vars) as [defer|]; simpl;
      [|by split; [left|]].
    destruct (decide (prop defer "if" = JSBool false)) as [Hif|Hif].
    + by split; [right|].
    + destruct (decide (operationType operation = SUBSCRIPTION));
        (split; [done|intros [?|?]; done]).
  - intros defer -> Hif.
    destruct (decide (prop defer "if" = JSBool false)); [done|].
    destruct (decide (operationType operation = SUBSCRIPTION)) as [Hop|Hop].
    + split; [by eexists|done].
    + split; [done|]. intros _. eexists. split; [done|].
      intros s. destruct (prop defer "label"); split; congruence.
Qed.

Lemma getDeferValues_spec_witness :
  (∃ message,
     getDeferValues getDirectiveValues
       (mkOperationDefinition SUBSCRIPTION []) ∅
       (InlineFragment None [deferLabelled "later"] [])
     = InvariantViolation message)
  ∧ getDeferValues getDirectiveValues (mkOperationDefinition QUERY []) ∅
      (InlineFragment None [deferLabelled "later"] [])
    = Ok (Some (mkDeferValues (Some "later"))).
Proof.
  split.
  - refine (proj1 (proj2 (getDeferValues_spec getDirectiveValues
       (mkOperationDefinition SUBSCRIPTION []) ∅
       (InlineFragment None [deferLabelled "later"] [])) _ _ _) _);
      [by vm_compute|by vm_compute|reflexivity].
  - by vm_compute.
Defined.

#[local] Arguments isAbstractType : simpl never.

(** C8: [doesFragmentConditionMatch] returns true if and only if there is
    no type condition, or the condition resolves to the candidate type
    itself, or it resolves to an abstract type of which the schema reports
    the candidate as a subtype.  It is a total boolean function: in every
    other case, a condition that resolves to no type included, the answer
    is false and nothing is raised. *)
Theorem doesFragmentConditionMatch_spec (schema : GraphQLSchema)
    (typeConditionNode : option NamedTypeNode) (type : GraphQLType) :
  (doesFragmentConditionMatch schema typeConditionNode type = true ↔
     typeConditionNode = None
     ∨ ∃ n, typeConditionNode = Some n
         ∧ (typeFromAST schema n = Some type
            ∨ ∃ abstractType,
                typeFromAST schema n = Some abstractType
                ∧ isAbstractType (Some abstractType) = true
                ∧ isSubType schema abstractType type = true))
  ∧ (∀ n, typeConditionNode = Some n → typeFromAST schema n = None →
       doesFragmentConditionMatch schema typeConditionNode type = false).
Proof.
  unfold doesFragmentConditionMatch. split.
  - destruct typeConditionNode as [n|]; [|by split; [left|]].
    destruct (decide (typeFromAST schema n = Some type)) as [He|Hne].
    { split; [|done]. intros _. right. exists n. by split; [|left]. }
    destruct (typeFromAST schema n) as [c|] eqn:Hc; simpl.
    + destruct (isAbstractType (Some c)) eqn:Hab.
      * split.
        -- intros Hsub. right. exists n. split; [done|]. right.
           exists c. by split_and!.
        -- intros [?|(n' & [= <-] & [?|(a & Ha & _ & Hsub)])]; congruence.
      * split; [done|].
        intros [?|(n' & [= <-] & [?|(a & Ha & Habs & _)])]; congruence.
    + split; [done|].
      intros [?|(n' & [= <-] & [?|(a & Ha & _)])]; congruence.
  - intros n -> Hnone. rewrite Hnone. simpl.
    by destruct (decide (None = Some type)).
Qed.

Lemma doesFragmentConditionMatch_spec_witness :
  doesFragmentConditionMatch smallSchema (Some (mkNamedTypeNode "Missing"))
    queryType = false.
Proof.
  apply (proj2 (doesFragmentConditionMatch_spec smallSchema
                  (Some (mkNamedTypeNode "Missing")) queryType)
           (mkNamedTypeNode "Missing")); reflexivity.
Defined.

(** ** The scenario [{ a b ... @defer { b c } }] *)

(** C3: on the root selection set [{ a b ... @defer { b c } }] (no type
    condition, no variables, any schema and runtime type, an operation
    that is not a subscription) [collectFields] returns a base grouped
    field set with the keys a and b, in that order, and one deferred entry,
    whose only key is c and whose [shouldInitiateDefer] is true; c is not
    in the base set and b is not in the deferred entry. *)
Theorem collectFields_scenario (fuel : nat) (schema : GraphQLSchema)
    (runtimeType : GraphQLType) (kind : OperationTypeNode) :
  kind ≠ SUBSCRIPTION →
  ∃ base deferred,
    collectFields getDirectiveValues (S (S fuel)) schema ∅ ∅ runtimeType
      (mkOperationDefinition kind scenarioSelectionSet)
    = Ok {| resultGroupedFieldSet := base;
            resultNewGroupedFieldSetDetails :=
              [([Some scenarioUsage],
                {| detailsGroupedFieldSet := deferred;
                   detailsShouldInitiateDefer := true |})];
            resultNewDeferUsages := [scenarioUsage] |}
    ∧ JSMap.keys base = ["a"; "b"]
    ∧ JSMap.keys deferred = ["c"]
    ∧ ("c" ∉ JSMap.keys base)
    ∧ ("b" ∉ JSMap.keys deferred).
Proof.
  intros Hkind.
  destruct kind; [| |done]; do 2 eexists;
    (split; [by vm_compute|]); (split_and!; [done|done| |]);
    intros Hin; repeat (apply elem_of_cons in Hin as [Hin|Hin]; [done|]);
    by apply elem_of_nil in Hin.
Qed.

Lemma collectFields_scenario_witness :
  ∃ base deferred,
    collectFields getDirectiveValues 2 smallSchema ∅ ∅ queryType
      (mkOperationDefinition QUERY scenarioSelectionSet)
    = Ok {| resultGroupedFieldSet := base;
            resultNewGroupedFieldSetDetails :=
              [([Some scenarioUsage],
                {| detailsGroupedFieldSet := deferred;
                   detailsShouldInitiateDefer := true |})];
            resultNewDeferUsages := [scenarioUsage] |}
    ∧ JSMap.keys base = ["a"; "b"]
    ∧ JSMap.keys deferred = ["c"]
    ∧ ("c" ∉ JSMap.keys base)
    ∧ ("b" ∉ JSMap.keys deferred).
Proof.
  apply (collectFields_scenario 0 smallSchema queryType QUERY). discriminate.
Defined.

(** ** Masking *)

Lemma ancestors_smaller (a : Target) (d : DeferUsage) :
  a ∈ ancestors d → Target_size a < DeferUsage_size d.
Proof.
  destruct d as [i l anc]. simpl. intros Hin.
  enough (Target_size a ≤
          list_sum (map (λ t, match t with
                              | Some e => DeferUsage_size e
                              | None => 0
                              end) anc)) by lia.
  induction Hin as [a anc|a b anc _ IH]; simpl.
  - unfold Target_size. destruct a; lia.
  - lia.
Qed.

Lemma smallest_target (targets : list Target) :
  targets ≠ [] →
  ∃ t, t ∈ targets ∧ ∀ u, u ∈ targets → Target_size t ≤ Target_size u.
Proof.
  induction targets as [|x l IH]; [done|]. intros _.
  destruct l as [|y l'].
  - exists x. split; [left|]. by intros u ->%list_elem_of_singleton.
  - destruct IH as (t & Ht & Hmin); [done|].
    destruct (decide (Target_size x ≤ Target_size t)).
    + exists x. split; [left|].
      intros u [->|Hu]%elem_of_cons; [done|]. specialize (Hmin u Hu). lia.
    + exists t. split; [by right|].
      intros u [->|Hu]%elem_of_cons; [lia|by apply Hmin].
Qed.

Lemma isMaskingTarget_true (targets : list Target) (t : Target) :
  isMaskingTarget targets t = true ↔
  ∀ a, a ∈ targetAncestors t → a ∉ targets.
Proof.
  destruct t as [d|]; simpl.
  - rewrite forallb_forall. split.
    + intros H a Ha. apply JSSetFacts.has_false, negb_true_iff, H.
      by apply list_elem_of_In.
    + intros H a Ha%list_elem_of_In.
      by apply negb_true_iff, JSSetFacts.has_false, H.
  - split; [|done]. by intros _ a ?%elem_of_nil.
Qed.

Lemma elem_of_maskingTargetListOf (targets : list Target) (t : Target) :
  t ∈ maskingTargetListOf targets ↔
  t ∈ targets ∧ ∀ a, a ∈ targetAncestors t → a ∉ targets.
Proof.
  unfold maskingTargetListOf. rewrite list_elem_of_filter.
  rewrite Is_true_true, isMaskingTarget_true. tauto.
Qed.

Lemma elem_of_maskingTargetsOf (targets : list Target) (t : Target) :
  t ∈ maskingTargetsOf targets ↔
  t ∈ targets ∧ ∀ a, a ∈ targetAncestors t → a ∉ targets.
Proof.
  unfold maskingTargetsOf.
  by rewrite JSSetFacts.elem_of_of_list, elem_of_maskingTargetListOf.
Qed.

Lemma maskingTargetsOf_subset (targets : list Target) (t : Target) :
  t ∈ maskingTargetsOf targets → t ∈ targets.
Proof. rewrite elem_of_maskingTargetsOf. tauto. Qed.

Lemma maskingTargetsOf_not_nil (targets : list Target) :
  targets ≠ [] → maskingTargetsOf targets ≠ [].
Proof.
  intros Hne. destruct (smallest_target targets Hne) as (t & Ht & Hmin).
  assert (Hin : t ∈ maskingTargetsOf targets).
  { apply elem_of_maskingTargetsOf. split; [done|].
    intros a Ha Hin. specialize (Hmin a Hin).
    destruct t as [d|]; [|by apply elem_of_nil in Ha].
    apply ancestors_smaller in Ha. simpl in Hmin. lia. }
  intros Hnil. rewrite Hnil in Hin. by apply elem_of_nil in Hin.
Qed.

Lemma NoDup_maskingTargetsOf (targets : list Target) :
  NoDup (maskingTargetsOf targets).
Proof. apply JSSetFacts.NoDup_of_list. Qed.

(** ** Partitioning *)

Section getBySet_facts.
Context {A V : Type} `{EqDecision A}.
Implicit Types (map : list (list A * V)) (s : list A).

Lemma getBySet_None map s :
  getBySet map s = None ↔ ∀ s' v, (s', v) ∈ map → ¬ sameMembers s' s.
Proof.
  induction map as [|[s0 v0] map IH]; simpl.
  - split; [|done]. by intros _ s' v ?%elem_of_nil.
  - destruct (isSameSet s0 s) eqn:E.
    + apply isSameSet_true in E. split; [done|]. intros H.
      destruct (H s0 v0); [left|done].
    + apply isSameSet_false in E. rewrite IH. split.
      * intros H s' v [[= -> ->]|Hin]%elem_of_cons; [done|by eapply H].
      * intros H s' v Hin. apply (H s' v). by right.
Qed.

Lemma getBySet_Some map s v :
  getBySet map s = Some v →
  ∃ pre s1 post,
    map = pre ++ (s1, v) :: post ∧ sameMembers s1 s
    ∧ (∀ s' v', (s', v') ∈ pre → ¬ sameMembers s' s)
    ∧ ∀ w, updateBySet map s w = pre ++ (s1, w) :: post.
Proof.
  induction map as [|[s0 v0] map IH]; simpl; [done|].
  destruct (isSameSet s0 s) eqn:E.
  - apply isSameSet_true in E. intros [= ->]. exists [], s0, map.
    split_and!; [done|done| |done]. by intros s' v' ?%elem_of_nil.
  - apply isSameSet_false in E. intros Hget.
    destruct (IH Hget) as (pre & s1 & post & -> & Hs1 & Hpre & Hupd).
    exists ((s0, v0) :: pre), s1, post. split_and!; [done|done| |].
    + intros s' v' [[= -> ->]|Hin]%elem_of_cons; [done|by eapply Hpre].
    + intros w. by rewrite Hupd.
Qed.

End getBySet_facts.

Lemma PartitionInv_nil (parentTargets : list Target) :
  PartitionInv parentTargets [] [] [].
Proof.
  split.
  - intros K. split; [by intros ?%elem_of_nil|].
    by intros (ts & ?%elem_of_nil & _).
  - apply NoDup_nil_2.
  - by intros M d K ?%elem_of_nil.
  - by intros K ts ?%elem_of_nil.
  - by intros i j M M' ?.
  - by intros M d ?%elem_of_nil.
  - by intros M d ?%elem_of_nil.
Qed.

Lemma existsb_not_has (parentTargets l : list Target) :
  existsb (λ deferUsage, negb (JSSet.has deferUsage parentTargets)) l = true
  ↔ ∃ T, T ∈ l ∧ T ∉ parentTargets.
Proof.
  rewrite existsb_exists. split.
  - intros (T & HT%list_elem_of_In & Hn). exists T. split; [done|].
    by apply JSSetFacts.has_false, negb_true_iff.
  - intros (T & HT & Hn). exists T. split; [by apply list_elem_of_In|].
    by apply negb_true_iff, JSSetFacts.has_false.
Qed.

Lemma PartitionInv_step (parentTargets : list Target)
    (processed : list (string * list Target)) (ptk : list string)
    (tsd : list (list Target * TargetSetDetails)) (K : string)
    (ts : list Target) :
  PartitionInv parentTargets processed ptk tsd →
  let acc := targetSetDetailsStep parentTargets (ptk, tsd) (K, ts) in
  PartitionInv parentTargets (processed ++ [(K, ts)]) acc.1 acc.2.
Proof.
  intros [Hpk Hpnd Hek Hex Hdist Hflag Hshape]. simpl.
  fold (maskingTargetsOf ts).
  destruct (isSameSet (maskingTargetsOf ts) parentTargets) eqn:Esame.
  { apply isSameSet_true in Esame. simpl. split.
    - intros K'. rewrite JSSetFacts.elem_of_add, Hpk. split.
      + intros [->|(ts' & Hin & Hs)].
        * exists ts. split; [|done]. apply elem_of_app. right. left.
        * exists ts'. split; [|done]. apply elem_of_app. by left.
      + intros (ts' & [Hin|[= -> ->]%list_elem_of_singleton]%elem_of_app
                & Hs); [right; by exists ts'|by left].
    - by apply JSSetFacts.NoDup_add.
    - intros M d K' Hin. rewrite (Hek M d K' Hin). split.
      + intros (ts' & Hin' & Hs). exists ts'. split; [|done].
        apply elem_of_app. by left.
      + intros (ts' & [Hin'|[= -> ->]%list_elem_of_singleton]%elem_of_app
                & Hn & Hs); [by exists ts'|done].
    - intros K' ts' [Hin|[= -> ->]%list_elem_of_singleton]%elem_of_app Hn;
        [by eapply Hex|done].
    - done.
    - done.
    - intros M d Hin. destruct (Hshape M d Hin) as (? & ? & ? & K' & ts' & ? & ?).
      split_and!; try done. exists K', ts'. split; [|done].
      apply elem_of_app. by left. }
  apply isSameSet_false in Esame.
  destruct (getBySet tsd (maskingTargetsOf ts)) as [d0|] eqn:Eget; simpl.
  - destruct (getBySet_Some _ _ _ Eget)
      as (pre & M1 & post & -> & HM1 & Hpre & Hupd).
    rewrite Hupd.
    set (d0' := {| keys := JSSet.add K (keys d0);
                   shouldInitiateDefer := shouldInitiateDefer d0 |}).
    assert (Hfst : (pre ++ (M1, d0') :: post).*1
                   = (pre ++ (M1, d0) :: post).*1).
    { by rewrite !fmap_app, !fmap_cons. }
    assert (Hmem : ∀ M d, (M, d) ∈ pre ++ (M1, d0') :: post →
              (M, d) = (M1, d0')
              ∨ ((M, d) ∈ pre ++ (M1, d0) :: post
                 ∧ ¬ sameMembers M (maskingTargetsOf ts))).
    { intros M d [Hin|[[= -> ->]|Hin]%elem_of_cons]%elem_of_app.
      - right. split; [apply elem_of_app; by left|]. by eapply Hpre.
      - by left.
      - right. split; [apply elem_of_app; right; by right|].
        intros Hs.
        apply list_elem_of_lookup in Hin as [j Hj].
        assert (Hi : (pre ++ (M1, d0) :: post).*1 !! length pre = Some M1).
        { rewrite fmap_app, fmap_cons, lookup_app_r, length_fmap; [|by rewrite length_fmap].
          by rewrite Nat.sub_diag. }
        assert (Hj' : (pre ++ (M1, d0) :: post).*1 !! (length pre + S j)
                      = Some M).
        { rewrite fmap_app, fmap_cons, lookup_app_r, length_fmap;
            [|rewrite length_fmap; lia].
          replace (length pre + S j - length pre) with (S j) by lia.
          simpl. by rewrite list_lookup_fmap, Hj. }
        assert (length pre = length pre + S j); [|lia].
        eapply Hdist; [done|done|].
        eapply sameMembers_trans; [done|]. by apply sameMembers_sym. }
    assert (Hold : (M1, d0) ∈ pre ++ (M1, d0) :: post).
    { apply elem_of_app. right. left. }
    split.
    + intros K'. rewrite Hpk. split.
      * intros (ts' & Hin & Hs). exists ts'. split; [|done].
        apply elem_of_app. by left.
      * intros (ts' & [Hin|[= -> ->]%list_elem_of_singleton]%elem_of_app
                & Hs); [by exists ts'|done].
    + done.
    + intros M d K' Hin. destruct (Hmem M d Hin) as [[= -> ->]|[Hin' Hn]].
      * simpl. rewrite JSSetFacts.elem_of_add, (Hek M1 d0 K' Hold). split.
        -- intros [->|(ts' & Hin' & Hn & Hs)].
           ++ exists ts. split_and!; [apply elem_of_app; right; left|done|done].
           ++ exists ts'. split_and!; [apply elem_of_app; by left|done|done].
        -- intros (ts' & [Hin'|[= -> ->]%list_elem_of_singleton]%elem_of_app
                   & Hn & Hs); [right; by exists ts'|by left].
      * rewrite (Hek M d K' Hin'). split.
        -- intros (ts' & Hin'' & Hn' & Hs). exists ts'.
           split_and!; [apply elem_of_app; by left|done|done].
        -- intros (ts' & [Hin''|[= -> ->]%list_elem_of_singleton]%elem_of_app
                   & Hn' & Hs); [by exists ts'|done].
    + intros K' ts' [Hin|[= -> ->]%list_elem_of_singleton]%elem_of_app Hn.
      * destruct (Hex K' ts' Hin Hn) as (M & d & Hin' & Hs).
        apply elem_of_app in Hin' as [Hin'|[[= -> ->]|Hin']%elem_of_cons].
        -- exists M, d. split; [apply elem_of_app; by left|done].
        -- exists M1, d0'. split; [apply elem_of_app; right; left|done].
        -- exists M, d. split; [apply elem_of_app; right; by right|done].
      * exists M1, d0'. split; [apply elem_of_app; right; left|done].
    + intros i j M M'. rewrite Hfst. apply Hdist.
    + intros M d Hin. destruct (Hmem M d Hin) as [[= -> ->]|[Hin' Hn]].
      * simpl. by apply Hflag.
      * by apply Hflag.
    + intros M d Hin. destruct (Hmem M d Hin) as [[= -> ->]|[Hin' Hn]].
      * destruct (Hshape M1 d0 Hold) as (? & ? & ? & K' & ts' & ? & ?).
        simpl. split_and!; [apply JSSetFacts.add_not_nil
                           |by apply JSSetFacts.NoDup_add|done|].
        exists K', ts'. split; [apply elem_of_app; by left|done].
      * destruct (Hshape M d Hin') as (? & ? & ? & K' & ts' & ? & ?).
        split_and!; try done.
        exists K', ts'. split; [apply elem_of_app; by left|done].
  - pose proof (proj1 (getBySet_None _ _) Eget) as Hnone.
    set (dn := {| keys := JSSet.add K [];
                  shouldInitiateDefer :=
                    existsb (λ deferUsage,
                               negb (JSSet.has deferUsage parentTargets))
                      (maskingTargetListOf ts) |}).
    split.
    + intros K'. rewrite Hpk. split.
      * intros (ts' & Hin & Hs). exists ts'. split; [|done].
        apply elem_of_app. by left.
      * intros (ts' & [Hin|[= -> ->]%list_elem_of_singleton]%elem_of_app
                & Hs); [by exists ts'|done].
    + done.
    + intros M d K' [Hin|[= -> ->]%list_elem_of_singleton]%elem_of_app.
      * rewrite (Hek M d K' Hin). split.
        -- intros (ts' & Hin' & Hn' & Hs). exists ts'.
           split_and!; [apply elem_of_app; by left|done|done].
        -- intros (ts' & [Hin'|[= -> ->]%list_elem_of_singleton]%elem_of_app
                   & Hn' & Hs); [by exists ts'|].
           by destruct (Hnone M d Hin).
      * simpl. rewrite JSSetFacts.elem_of_add, elem_of_nil. split.
        -- intros [->|[]]. exists ts.
           split_and!; [apply elem_of_app; right; left|done|done].
        -- intros (ts' & [Hin'|[= -> ->]%list_elem_of_singleton]%elem_of_app
                   & Hn' & Hs); [|by left].
           destruct (Hex K' ts' Hin' Hn') as (M & d & Hin & Hs').
           destruct (Hnone M d Hin).
           eapply sameMembers_trans; [done|]. by apply sameMembers_sym.
    + intros K' ts' [Hin|[= -> ->]%list_elem_of_singleton]%elem_of_app Hn.
      * destruct (Hex K' ts' Hin Hn) as (M & d & Hin' & Hs).
        exists M, d. split; [apply elem_of_app; by left|done].
      * exists (maskingTargetsOf ts), dn.
        split; [apply elem_of_app; right; left|done].
    + intros i j M M'. rewrite fmap_app. simpl. intros Hi Hj Hs.
      assert (Hlen : length tsd.*1 = length tsd) by apply length_fmap.
      destruct (decide (i < length tsd)) as [Hil|Hil],
               (decide (j < length tsd)) as [Hjl|Hjl].
      * rewrite lookup_app_l in Hi, Hj by lia. by eapply Hdist.
      * rewrite lookup_app_l in Hi by lia.
        rewrite lookup_app_r in Hj by lia.
        apply list_lookup_singleton_Some in Hj as [_ <-].
        apply list_lookup_fmap_Some in Hi as ([M0 d] & -> & Hi).
        apply list_elem_of_lookup_2 in Hi. by destruct (Hnone M0 d Hi).
      * rewrite lookup_app_r in Hi by lia.
        rewrite lookup_app_l in Hj by lia.
        apply list_lookup_singleton_Some in Hi as [_ <-].
        apply list_lookup_fmap_Some in Hj as ([M0 d] & -> & Hj).
        apply list_elem_of_lookup_2 in Hj. destruct (Hnone M0 d Hj).
        by apply sameMembers_sym.
      * rewrite lookup_app_r in Hi, Hj by lia.
        apply list_lookup_singleton_Some in Hi as [Hi _].
        apply list_lookup_singleton_Some in Hj as [Hj _]. lia.
    + intros M d [Hin|[= -> ->]%list_elem_of_singleton]%elem_of_app;
        [by apply Hflag|].
      simpl. rewrite existsb_not_has. unfold maskingTargetsOf.
      split; intros (T & HT & Hn); exists T; (split; [|done]).
      * by apply JSSetFacts.elem_of_of_list.
      * by apply JSSetFacts.elem_of_of_list.
    + intros M d [Hin|[= -> ->]%list_elem_of_singleton]%elem_of_app.
      * destruct (Hshape M d Hin) as (? & ? & ? & K' & ts' & ? & ?).
        split_and!; try done.
        exists K', ts'. split; [apply elem_of_app; by left|done].
      * simpl. split_and!; [apply JSSetFacts.add_not_nil
                           |apply JSSetFacts.NoDup_add, NoDup_nil_2|done|].
        exists K, ts. split; [apply elem_of_app; right; left|done].
Qed.

Lemma getTargetSetDetails_inv (targetsByKey : list (string * list Target))
    (parentTargets : list Target) :
  PartitionInv parentTargets targetsByKey
    (getTargetSetDetails targetsByKey parentTargets).1
    (getTargetSetDetails targetsByKey parentTargets).2.
Proof.
  unfold getTargetSetDetails.
  induction targetsByKey as [|[K ts] l IH] using rev_ind.
  - apply PartitionInv_nil.
  - rewrite fold_left_app. simpl.
    destruct (fold_left (targetSetDetailsStep parentTargets) l ([], []))
      as [ptk tsd].
    by apply PartitionInv_step.
Qed.

(** ** Building one grouped field set *)

Lemma flat_map_ext_elem {A B} (f g : A → list B) (l : list A) :
  (∀ x, x ∈ l → f x = g x) → flat_map f l = flat_map g l.
Proof.
  induction l as [|x l IH]; intros H; simpl; [done|].
  rewrite H by left. f_equal. apply IH. intros y Hy. apply H. by right.
Qed.

Lemma nodesOf_set_delete (fbt : FieldsByTarget) (T T' : Target)
    (key K' : string) (fs : list (string * list FieldNode)) :
  JSMap.get T fbt = Some fs →
  nodesOf (JSMap.set T (JSMap.delete key fs) fbt) T' K' =
  if decide (K' = key ∧ T' = T) then None else nodesOf fbt T' K'.
Proof.
  intros Hget. unfold nodesOf. rewrite JSMapFacts.get_set.
  destruct (decide (T = T')) as [<-|Hne]; simpl.
  - rewrite JSMapFacts.get_delete, Hget. simpl.
    destruct (decide (key = K')) as [<-|Hk].
    + by rewrite decide_True.
    + rewrite decide_False; [done|]. intros [? _]. done.
  - rewrite decide_False; [done|]. intros [_ ?]. done.
Qed.

Lemma takeFields_spec (key : string) (ts : list Target)
    (acc acc' : list FieldDetails) (fbt fbt' : FieldsByTarget) :
  forOf (takeFieldsOfTarget key) ts (acc, fbt) = Ok (acc', fbt') →
  NoDup ts
  ∧ (∀ T, T ∈ ts → is_Some (nodesOf fbt T key))
  ∧ acc' = acc ++ flat_map (detailsOf fbt key) ts
  ∧ (∀ T K', nodesOf fbt' T K' =
             if decide (K' = key ∧ T ∈ ts) then None else nodesOf fbt T K')
  ∧ (∀ T, is_Some (JSMap.get T fbt') ↔ is_Some (JSMap.get T fbt))
  ∧ (innerKeysNoDup fbt → innerKeysNoDup fbt').
Proof.
  revert acc fbt. induction ts as [|T rest IH]; intros acc fbt; simpl.
  - intros [= <- <-]. split_and!; try done.
    + apply NoDup_nil_2.
    + by intros T ?%elem_of_nil.
    + by rewrite app_nil_r.
    + intros T K'. rewrite decide_False; [done|].
      by intros [_ ?%elem_of_nil].
  - destruct (JSMap.get T fbt) as [fs|] eqn:Hfs; [|done].
    destruct (JSMap.get key fs) as [nodes|] eqn:Hnodes; [|done].
    simpl. intros Hrest.
    destruct (IH _ _ Hrest) as (Hnd & Hsome & -> & Hframe & Hdom & Hinner).
    pose proof (nodesOf_set_delete fbt T) as Hone.
    assert (HT : nodesOf fbt T key = Some nodes).
    { unfold nodesOf. by rewrite Hfs. }
    assert (Hnotin : T ∉ rest).
    { intros Hin. destruct (Hsome T Hin) as [x Hx].
      rewrite (Hone T key key fs Hfs), decide_True in Hx; done. }
    split_and!.
    + by apply NoDup_cons.
    + intros T' [->|Hin]%elem_of_cons; [by eexists|].
      specialize (Hsome T' Hin). rewrite (Hone T' key key fs Hfs) in Hsome.
      rewrite decide_False in Hsome; [done|]. intros [_ ->]. done.
    + rewrite <- app_assoc. f_equal. unfold detailsOf at 2. rewrite HT.
      simpl. f_equal. apply flat_map_ext_elem.
      intros T' HT'. unfold detailsOf.
      rewrite (Hone T' key key fs Hfs), decide_False; [done|].
      intros [_ ->]. done.
    + intros T' K'. rewrite Hframe, (Hone T' key K' fs Hfs).
      destruct (decide (K' = key ∧ T' ∈ rest)) as [[-> Hin]|Hn1].
      * rewrite decide_True; [done|]. split; [done|by right].
      * destruct (decide (K' = key ∧ T' = T)) as [[-> ->]|Hn2].
        -- rewrite decide_True; [done|]. split; [done|left].
        -- rewrite decide_False; [done|].
           intros [-> [->|Hin]%elem_of_cons]; tauto.
    + intros T'. rewrite Hdom, JSMapFacts.get_set.
      destruct (decide (T = T')) as [<-|]; [|done].
      rewrite Hfs. split; by eexists.
    + intros Hin0. apply Hinner. intros T' fs'.
      rewrite JSMapFacts.get_set. destruct (decide (T = T')) as [<-|].
      * intros [= <-]. apply JSMapFacts.NoDup_keys_delete.
        by eapply Hin0.
      * apply Hin0.
Qed.

Lemma orderedGroupStep_skip keys M tbk gfs fbt K :
  K ∉ keys → orderedGroupStep keys M tbk (gfs, fbt) K = Ok (gfs, fbt).
Proof.
  intros Hn. unfold orderedGroupStep.
  by rewrite (proj2 (JSSetFacts.has_false K keys) Hn).
Qed.

Lemma orderedGroupStep_take keys M tbk gfs fbt K r :
  K ∈ keys → orderedGroupStep keys M tbk (gfs, fbt) K = Ok r →
  ∃ kt gf fbt1,
    JSMap.get K tbk = Some kt
    ∧ forOf (takeFieldsOfTarget K) kt
        (fields (default (mkFieldGroup [] M) (JSMap.get K gfs)), fbt)
      = Ok (gf, fbt1)
    ∧ r = (JSMap.set K
             (mkFieldGroup gf
                (targets (default (mkFieldGroup [] M) (JSMap.get K gfs))))
             gfs, fbt1).
Proof.
  intros Hin. unfold orderedGroupStep.
  rewrite (proj2 (JSSetFacts.has_true K keys) Hin).
  destruct (JSMap.get K tbk) as [kt|]; [|done].
  replace (match JSMap.get K gfs with
           | Some fieldGroup => fieldGroup
           | None => mkFieldGroup [] M
           end) with (default (mkFieldGroup [] M) (JSMap.get K gfs))
    by by destruct (JSMap.get K gfs).
  destruct (forOf _ kt _) as [[gf fbt1]| | |] eqn:E; simpl; try done.
  intros [= <-]. by exists kt, gf, fbt1.
Qed.

Lemma orderedGroup_spec (keys : list string) (M : list Target)
    (tbk : list (string * list Target)) (ks : list string)
    (gfs gfs' : list (string * FieldGroup)) (fbt fbt' : FieldsByTarget) :
  forOf (orderedGroupStep keys M tbk) ks (gfs, fbt) = Ok (gfs', fbt') →
  (∀ K, K ∈ JSMap.keys gfs' ↔ K ∈ JSMap.keys gfs ∨ (K ∈ ks ∧ K ∈ keys))
  ∧ (∀ T K, nodesOf fbt' T K =
            if decide (K ∈ ks ∧ K ∈ keys ∧ T ∈ keyTargetsOf tbk K)
            then None else nodesOf fbt T K)
  ∧ (∀ T, is_Some (JSMap.get T fbt') ↔ is_Some (JSMap.get T fbt))
  ∧ (∀ K g', JSMap.get K gfs' = Some g' →
       if decide (K ∈ ks ∧ K ∈ keys) then
         ∃ kt, JSMap.get K tbk = Some kt
               ∧ (∀ T, T ∈ kt → is_Some (nodesOf fbt T K))
               ∧ fields g' =
                   fields (default (mkFieldGroup [] M) (JSMap.get K gfs))
                   ++ flat_map (detailsOf fbt K) kt
               ∧ targets g' =
                   targets (default (mkFieldGroup [] M) (JSMap.get K gfs))
       else JSMap.get K gfs = Some g')
  ∧ (NoDup (JSMap.keys gfs) → NoDup (JSMap.keys gfs'))
  ∧ (innerKeysNoDup fbt → innerKeysNoDup fbt').
Proof.
  revert gfs fbt. induction ks as [|K rest IH]; intros gfs fbt.
  { rewrite forOf_nil. intros [= <- <-]. split_and!.
    - intros K. rewrite elem_of_nil. tauto.
    - intros T K. rewrite decide_False; [done|]. by intros [?%elem_of_nil _].
    - done.
    - intros K g' Hg. rewrite decide_False; [done|].
      by intros [?%elem_of_nil _].
    - done.
    - done. }
  rewrite forOf_cons.
  destruct (decide (K ∈ keys)) as [HK|HK].
  2:{ rewrite orderedGroupStep_skip by done. simpl. intros Hrest.
      destruct (IH _ _ Hrest) as (G1 & G2 & G3 & G4 & G5 & G6).
      split_and!; try done.
      - intros K'. rewrite G1, elem_of_cons. split; [tauto|].
        intros [?|[[->|?] ?]]; tauto.
      - intros T K'. rewrite G2.
        destruct (decide (K' ∈ rest ∧ _)) as [(?&?&?)|Hn].
        + rewrite decide_True; [done|]. split_and!; [by right|done|done].
        + rewrite decide_False; [done|].
          intros ([->|?]%elem_of_cons & ? & ?); tauto.
      - intros K' g' Hg. specialize (G4 K' g' Hg).
        destruct (decide (K' ∈ rest ∧ K' ∈ keys)) as [[? ?]|Hn].
        + rewrite decide_True; [done|]. split; [by right|done].
        + rewrite decide_False; [done|].
          intros ([->|?]%elem_of_cons & ?); tauto. }
  intros (r & Estep & Hrest)%bind_Ok.
  destruct (orderedGroupStep_take _ _ _ _ _ _ _ HK Estep)
    as (kt & gf & fbt1 & Hkt & Hinner & ->).
  destruct (takeFields_spec _ _ _ _ _ _ Hinner)
    as (Hnd & Hsome & -> & Hframe & Hdom & Hkeep).
  set (g0 := default (mkFieldGroup [] M) (JSMap.get K gfs)) in *.
  destruct (IH _ _ Hrest) as (G1 & G2 & G3 & G4 & G5 & G6).
  assert (Hkto : keyTargetsOf tbk K = kt).
  { unfold keyTargetsOf. by rewrite Hkt. }
  split_and!.
  - intros K'. rewrite G1, JSMapFacts.elem_of_keys_set, elem_of_cons.
    split; [intros [[->|?]|[? ?]]; tauto|intros [?|[[->|?] ?]]; tauto].
  - intros T K'. rewrite G2, Hframe.
    destruct (decide (K' ∈ rest ∧ _)) as [(?&?&?)|Hn1].
    + rewrite decide_True; [done|]. split_and!; [by right|done|done].
    + destruct (decide (K' = K ∧ T ∈ kt)) as [[-> ?]|Hn2].
      * rewrite decide_True; [done|]. rewrite Hkto. split_and!; [left|done|done].
      * rewrite decide_False; [done|].
        intros ([->|?]%elem_of_cons & ? & ?); [|tauto].
        rewrite Hkto in *. tauto.
  - intros T. by rewrite G3, Hdom.
  - intros K' g' Hg. specialize (G4 K' g' Hg).
    destruct (decide (K' ∈ rest ∧ K' ∈ keys)) as [[Hr Hk]|Hn].
    + rewrite decide_True by (split; [by right|done]).
      destruct G4 as (kt' & Hkt' & Hsome' & Hf & Ht).
      destruct (decide (K' = K)) as [->|Hne].
      * rewrite Hkt in Hkt'. injection Hkt' as <-.
        assert (kt = []) as ->.
        { destruct kt as [|T kt]; [done|].
          destruct (Hsome' T) as [x Hx]; [left|].
          rewrite Hframe, decide_True in Hx; [done|]. split; [done|left]. }
        exists []. rewrite JSMapFacts.get_set_eq in Hf, Ht. simpl in *.
        split_and!; [done| |by rewrite Hf, !app_nil_r|done].
        by intros T ?%elem_of_nil.
      * exists kt'. rewrite JSMapFacts.get_set_ne in Hf, Ht by done.
        split_and!; [done| | |done].
        -- intros T HT. specialize (Hsome' T HT).
           rewrite Hframe, decide_False in Hsome'; [done|]. tauto.
        -- rewrite Hf. f_equal. apply flat_map_ext_elem. intros T HT.
           unfold detailsOf. rewrite Hframe, decide_False; [done|]. tauto.
    + destruct (decide (K' = K)) as [->|Hne].
      * rewrite decide_True by (split; [left|done]).
        rewrite JSMapFacts.get_set_eq in G4. injection G4 as <-.
        exists kt. by split_and!.
      * rewrite JSMapFacts.get_set_ne in G4 by done.
        rewrite decide_False; [done|].
        intros ([->|?]%elem_of_cons & ?); tauto.
  - intros Hnd0. by apply G5, JSMapFacts.NoDup_keys_set.
  - intros Hi. by apply G6, Hkeep.
Qed.

Lemma getOrderedGroupedFieldSet_spec (keys : list string)
    (M : list Target) (tbk : list (string * list Target))
    (fbt fbt' : FieldsByTarget) (gfs : list (string * FieldGroup)) :
  getOrderedGroupedFieldSet keys M tbk fbt = Ok (gfs, fbt') →
  ∃ firstFields,
    JSMap.get (firstTargetOf M) fbt = Some firstFields
    ∧ (∀ K, K ∈ JSMap.keys gfs ↔ K ∈ JSMap.keys firstFields ∧ K ∈ keys)
    ∧ NoDup (JSMap.keys gfs)
    ∧ (∀ K g, JSMap.get K gfs = Some g →
         ∃ kt, JSMap.get K tbk = Some kt
               ∧ (∀ T, T ∈ kt → is_Some (nodesOf fbt T K))
               ∧ fields g = flat_map (detailsOf fbt K) kt
               ∧ targets g = M)
    ∧ (∀ T K, nodesOf fbt' T K =
              if decide (K ∈ JSMap.keys firstFields ∧ K ∈ keys
                         ∧ T ∈ keyTargetsOf tbk K)
              then None else nodesOf fbt T K)
    ∧ (∀ T, is_Some (JSMap.get T fbt') ↔ is_Some (JSMap.get T fbt))
    ∧ (innerKeysNoDup fbt → innerKeysNoDup fbt').
Proof.
  unfold getOrderedGroupedFieldSet. fold (firstTargetOf M).
  destruct (JSMap.get (firstTargetOf M) fbt) as [firstFields|]; [|done].
  intros Hloop. exists firstFields.
  destruct (orderedGroup_spec _ _ _ _ _ _ _ _ Hloop)
    as (G1 & G2 & G3 & G4 & G5 & G6).
  split_and!; try done.
  - intros K. rewrite G1. unfold JSMap.keys at 2. simpl.
    rewrite elem_of_nil. tauto.
  - apply G5. apply NoDup_nil_2.
  - intros K g Hg. specialize (G4 K g Hg).
    destruct (decide (K ∈ JSMap.keys firstFields ∧ K ∈ keys)); [|done].
    destruct G4 as (kt & ? & ? & Hf & Ht). exists kt. by split_and!.
Qed.

(** ** The field list of a group *)

(** The accumulators of the counterexample are those of the scenario. *)
Lemma scenario_accumulators (schema : GraphQLSchema)
    (runtimeType : GraphQLType) :
  collectFieldsImpl getDirectiveValues schema ∅ ∅ runtimeType
    (mkOperationDefinition QUERY scenarioSelectionSet) 2
    scenarioSelectionSet None None (newContext 0)
  = Ok (mkContext scenarioFieldsByTarget scenarioTargetsByKey
          [scenarioUsage] ∅ 1).
Proof. by vm_compute. Qed.

(** Counterexample to C4 as stated: in the scenario
    [{ a b ... @defer { b c } }] the base group of b, whose masking set is
    the base target alone, also lists the node of b collected under the
    deferred target. *)
Lemma fieldsFromMaskingTargetsOnly_fails :
  ¬ fieldsFromMaskingTargetsOnly ["a"; "b"] NON_DEFERRED_TARGET_SET
      scenarioTargetsByKey scenarioFieldsByTarget.
Proof.
  intros H.
  destruct (H [("a", mkFieldGroup
                       [mkFieldDetails (mkFieldNode None "a" [] None) None]
                       [None]);
               ("b", mkFieldGroup
                       [mkFieldDetails (mkFieldNode None "b" [] None) None;
                        mkFieldDetails (mkFieldNode None "b" [] None)
                          (Some scenarioUsage)]
                       [None])]
              [(None, []);
               (Some scenarioUsage, [("c", [mkFieldNode None "c" [] None])])]
              "b"
              (mkFieldGroup
                 [mkFieldDetails (mkFieldNode None "b" [] None) None;
                  mkFieldDetails (mkFieldNode None "b" [] None)
                    (Some scenarioUsage)]
                 [None])) as [Hfields _].
  - by vm_compute.
  - right. left.
  - by vm_compute in Hfields.
Qed.

(** C4, amended: the field list of a group of [getOrderedGroupedFieldSet]
    is the concatenation, over all the targets recorded for the key in
    [targetsByKey] (in their order, masked targets included), of the nodes
    accumulated for the key under each target, each node paired with that
    target; every one of these targets has nodes for the key.  The masking
    set is the [targets] of the group. *)
Theorem fieldGroup_fields (keys : list string) (maskingTargets : list Target)
    (targetsByKey : list (string * list Target))
    (fieldsByTarget fieldsByTarget' : FieldsByTarget)
    (gfs : list (string * FieldGroup)) (K : string) (g : FieldGroup) :
  getOrderedGroupedFieldSet keys maskingTargets targetsByKey fieldsByTarget
  = Ok (gfs, fieldsByTarget') →
  (K, g) ∈ gfs →
  K ∈ keys
  ∧ fields g =
      flat_map (λ target,
                  map (λ node, mkFieldDetails node target)
                    (default [] (nodesOf fieldsByTarget target K)))
        (keyTargetsOf targetsByKey K)
  ∧ (∀ target, target ∈ keyTargetsOf targetsByKey K →
       is_Some (nodesOf fieldsByTarget target K))
  ∧ targets g = maskingTargets.
Proof.
  intros Hrun Hin.
  destruct (getOrderedGroupedFieldSet_spec _ _ _ _ _ _ Hrun)
    as (firstFields & _ & Hkeys & Hnd & Hcontent & _).
  assert (Hget : JSMap.get K gfs = Some g)
    by by apply JSMapFacts.elem_of_get.
  destruct (Hcontent K g Hget) as (kt & Hkt & Hsome & Hf & Ht).
  unfold keyTargetsOf. rewrite Hkt. simpl. split_and!; try done.
  apply (Hkeys K). apply list_elem_of_fmap. by exists (K, g).
Qed.

Lemma fieldGroup_fields_witness :
  fields (mkFieldGroup
            [mkFieldDetails (mkFieldNode None "b" [] None) None;
             mkFieldDetails (mkFieldNode None "b" [] None)
               (Some scenarioUsage)]
            [None])
  = flat_map (λ target,
                map (λ node, mkFieldDetails node target)
                  (default [] (nodesOf scenarioFieldsByTarget target "b")))
      (keyTargetsOf scenarioTargetsByKey "b").
Proof.
  refine (proj1 (proj2 (fieldGroup_fields ["a"; "b"] NON_DEFERRED_TARGET_SET
    scenarioTargetsByKey scenarioFieldsByTarget
    [(None, []);
     (Some scenarioUsage, [("c", [mkFieldNode None "c" [] None])])]
    [("a", mkFieldGroup
             [mkFieldDetails (mkFieldNode None "a" [] None) None] [None]);
     ("b", mkFieldGroup
             [mkFieldDetails (mkFieldNode None "b" [] None) None;
              mkFieldDetails (mkFieldNode None "b" [] None)
                (Some scenarioUsage)]
             [None])]
    "b" _ _ _))).
  - by vm_compute.
  - right. left.
Defined.

(** ** The collector *)

#[local] Arguments doesFragmentConditionMatch : simpl never.
#[local] Arguments shouldIncludeNode : simpl never.
#[local] Arguments getDeferValues : simpl never.
#[local] Arguments pushDeferUsage : simpl never.
#[local] Arguments recordField : simpl never.
#[local] Arguments markVisited : simpl never.
#[local] Arguments collectFieldsImpl : simpl never.
#[local] Arguments collectSelection : simpl never.

Section collector_facts.

Variable gdv :
  GraphQLDirective → Selection → gmap string JSValue →
  option (gmap string JSValue).
Variable schema : GraphQLSchema.
Variable fragments : gmap string FragmentDefinition.
Variable vars : gmap string JSValue.
Variable runtimeType : GraphQLType.
Variable operation : OperationDefinition.

Abbreviation collect :=
  (collectFieldsImpl gdv schema fragments vars runtimeType operation).
Abbreviation step :=
  (collectSelection gdv schema fragments vars runtimeType operation).
Abbreviation included := (shouldIncludeNode gdv vars).
Abbreviation deferOf := (getDeferValues gdv operation vars).
Abbreviation matches fragment :=
  (doesFragmentConditionMatch schema (Some (fragmentTypeCondition fragment))
     runtimeType).

Lemma collectFieldsImpl_S fuel sels P N c :
  collect (S fuel) sels P N c = forOf (step (collect fuel) P N) sels c.
Proof. done. Qed.

Lemma collectFieldsImpl_nil fuel P N c : collect (S fuel) [] P N c = Ok c.
Proof. done. Qed.

Lemma collectFieldsImpl_cons fuel s sels P N c :
  collect (S fuel) (s :: sels) P N c =
  step (collect fuel) P N c s ≫= collect (S fuel) sels P N.
Proof. done. Qed.

Lemma collectFieldsImpl_app fuel sels1 sels2 P N c :
  collect fuel (sels1 ++ sels2) P N c =
  collect fuel sels1 P N c ≫= collect fuel sels2 P N.
Proof.
  destruct fuel as [|fuel]; [done|]. rewrite collectFieldsImpl_S.
  apply forOf_app.
Qed.

(** What one selection does to the context is made of [recordField],
    [pushDeferUsage], [markVisited] and recursive calls. *)
Lemma collectSelection_preserves (Q : Context → Prop)
    (rec : list Selection → Target → option DeferUsage → Context →
           Outcome Context) :
  (∀ node P N c, Q c → Q (recordField node P N c)) →
  (∀ d P c, Q c → Q (pushDeferUsage d P c).2) →
  (∀ F c, Q c → Q (markVisited F c)) →
  (∀ sels P N c c', Q c → rec sels P N c = Ok c' → Q c') →
  ∀ s P N c c', Q c → step rec P N c s = Ok c' → Q c'.
Proof.
  intros Hfield Hpush Hmark Hrec s P N c c' HQ.
  destruct s as [node|cond dirs sub|F dirs]; unfold collectSelection.
  - destruct (negb _); intros [= <-]; [done|by apply Hfield].
  - destruct (_ || _); [by intros [= <-]|].
    intros (d & _ & Hd)%bind_Ok. destruct d as [d|].
    + exact (Hrec _ _ _ _ _ (Hpush d P c HQ) Hd).
    + by eapply Hrec.
  - destruct (negb _); [by intros [= <-]|].
    intros (d & _ & Hd)%bind_Ok. revert Hd.
    destruct (_ && _); [by intros [= <-]|].
    destruct (fragments !! F) as [frag|]; [|by intros [= <-]].
    destruct (negb _); [by intros [= <-]|]. intros Hd.
    destruct d as [d|].
    + exact (Hrec _ _ _ _ _ (Hpush d P c HQ) Hd).
    + eapply Hrec; [|done]. by apply Hmark.
Qed.

Lemma forOf_preserves {A S} (Q : S → Prop) (body : S → A → Outcome S) :
  (∀ s x s', Q s → body s x = Ok s' → Q s') →
  ∀ xs s s', Q s → forOf body xs s = Ok s' → Q s'.
Proof.
  intros Hbody xs. induction xs as [|x xs IH]; intros s s' HQ.
  - rewrite forOf_nil. by intros [= <-].
  - rewrite forOf_cons. intros (s1 & H1 & H2)%bind_Ok.
    eapply IH; [|done]. by eapply Hbody.
Qed.

Lemma collectFieldsImpl_preserves (Q : Context → Prop) :
  (∀ node P N c, Q c → Q (recordField node P N c)) →
  (∀ d P c, Q c → Q (pushDeferUsage d P c).2) →
  (∀ F c, Q c → Q (markVisited F c)) →
  ∀ fuel sels P N c c', Q c → collect fuel sels P N c = Ok c' → Q c'.
Proof.
  intros Hfield Hpush Hmark fuel.
  induction fuel as [|fuel IH]; intros sels P N c c' HQ; [done|].
  rewrite collectFieldsImpl_S. apply forOf_preserves; [|done].
  intros c0 s c0' HQ0. by apply collectSelection_preserves.
Qed.

(** The set of visited names only grows. *)
Lemma visited_grows fuel sels P N c c' F :
  collect fuel sels P N c = Ok c' →
  F ∈ visitedFragmentNames c → F ∈ visitedFragmentNames c'.
Proof.
  intros Hrun HF.
  apply (collectFieldsImpl_preserves (λ c, F ∈ visitedFragmentNames c))
    with fuel sels P N c; try done.
  intros F' c0. unfold markVisited. simpl. set_solver.
Qed.

Lemma spread_skip rec P N c F dirs :
  F ∈ visitedFragmentNames c →
  deferOf (FragmentSpread F dirs) = Ok None →
  step rec P N c (FragmentSpread F dirs) = Ok c.
Proof.
  intros HF Hd. unfold collectSelection.
  destruct (negb _); [done|]. rewrite Hd. simpl.
  by rewrite bool_decide_eq_true_2.
Qed.

Lemma spread_first rec P N c F dirs frag :
  included (FragmentSpread F dirs) = true →
  deferOf (FragmentSpread F dirs) = Ok None →
  F ∉ visitedFragmentNames c →
  fragments !! F = Some frag →
  matches frag = true →
  step rec P N c (FragmentSpread F dirs) =
  rec (fragmentSelectionSet frag) P N (markVisited F c).
Proof.
  intros Hi Hd HF Hfrag Hm. unfold collectSelection. rewrite Hi, Hd. simpl.
  rewrite bool_decide_eq_false_2 by done. simpl.
  by rewrite Hfrag, Hm.
Qed.

Lemma spread_deferred rec P N c F dirs frag d :
  included (FragmentSpread F dirs) = true →
  deferOf (FragmentSpread F dirs) = Ok (Some d) →
  fragments !! F = Some frag →
  matches frag = true →
  step rec P N c (FragmentSpread F dirs) =
  rec (fragmentSelectionSet frag) P (Some (pushDeferUsage d P c).1)
    (pushDeferUsage d P c).2.
Proof.
  intros Hi Hd Hfrag Hm. unfold collectSelection. rewrite Hi, Hd. simpl.
  rewrite andb_false_r. rewrite Hfrag, Hm. simpl.
  by destruct (pushDeferUsage d P c).
Qed.

(** Once a spread of [F] without [@defer] has been carried out, a later
    spread of [F] without [@defer] changes nothing, whatever the targets
    it is met under. *)
Lemma later_spread_inert fuel P N c1 c2 F dirs1 :
  included (FragmentSpread F dirs1) = true →
  deferOf (FragmentSpread F dirs1) = Ok None →
  step (collect fuel) P N c1 (FragmentSpread F dirs1) = Ok c2 →
  ∀ rec P' N' c3 dirs2,
    visitedFragmentNames c2 ⊆ visitedFragmentNames c3 →
    deferOf (FragmentSpread F dirs2) = Ok None →
    step rec P' N' c3 (FragmentSpread F dirs2) = Ok c3.
Proof.
  intros Hi Hd Hstep rec P' N' c3 dirs2 Hsub Hd2.
  destruct (decide (F ∈ visitedFragmentNames c2)) as [HF|HF].
  { apply spread_skip; [set_solver|done]. }
  unfold collectSelection in *. rewrite Hi, Hd in Hstep. simpl in Hstep.
  destruct (negb (included (FragmentSpread F dirs2))); [done|].
  rewrite Hd2. simpl. rewrite andb_true_r in *.
  destruct (bool_decide (F ∈ visitedFragmentNames c1)) eqn:E1.
  { injection Hstep as <-. by apply bool_decide_eq_true in E1. }
  destruct (bool_decide (F ∈ visitedFragmentNames c3)); [done|].
  destruct (fragments !! F) as [frag|]; [|done].
  destruct (negb (matches frag)); [done|].
  destruct HF. eapply visited_grows; [done|].
  unfold markVisited. simpl. set_solver.
Qed.

Lemma spread_twice fuel pre mid post P N c F dirs1 dirs2 :
  included (FragmentSpread F dirs1) = true →
  deferOf (FragmentSpread F dirs1) = Ok None →
  deferOf (FragmentSpread F dirs2) = Ok None →
  collect fuel
    (pre ++ FragmentSpread F dirs1 :: mid ++ FragmentSpread F dirs2 :: post)
    P N c
  = collect fuel (pre ++ FragmentSpread F dirs1 :: mid ++ post) P N c.
Proof.
  intros Hi Hd1 Hd2. destruct fuel as [|fuel]; [done|].
  rewrite !collectFieldsImpl_app.
  destruct (collect (S fuel) pre P N c) as [c1| | |]; simpl; try done.
  rewrite !collectFieldsImpl_cons.
  destruct (step (collect fuel) P N c1 (FragmentSpread F dirs1))
    as [c2| | |] eqn:E1; [|done..].
  change (collect (S fuel) (mid ++ FragmentSpread F dirs2 :: post) P N c2
          = collect (S fuel) (mid ++ post) P N c2).
  rewrite !collectFieldsImpl_app.
  destruct (collect (S fuel) mid P N c2) as [c3| | |] eqn:E2; simpl;
    try done.
  rewrite collectFieldsImpl_cons.
  rewrite (later_spread_inert _ _ _ _ _ _ _ Hi Hd1 E1); [done| |done].
  intros F' HF'. by eapply visited_grows.
Qed.

(** A deferred inline fragment that starts with such a later spread
    collects, under its new target, the rest of its selection set only. *)
Lemma spread_under_new_target fuel P N c1 c2 F dirs1 :
  included (FragmentSpread F dirs1) = true →
  deferOf (FragmentSpread F dirs1) = Ok None →
  step (collect fuel) P N c1 (FragmentSpread F dirs1) = Ok c2 →
  ∀ fuel' P' N' c3 dirs2 cond fdirs inner d,
    visitedFragmentNames c2 ⊆ visitedFragmentNames c3 →
    deferOf (FragmentSpread F dirs2) = Ok None →
    included (InlineFragment cond fdirs (FragmentSpread F dirs2 :: inner))
    = true →
    doesFragmentConditionMatch schema cond runtimeType = true →
    deferOf (InlineFragment cond fdirs (FragmentSpread F dirs2 :: inner))
    = Ok (Some d) →
    step (collect fuel') P' N' c3
      (InlineFragment cond fdirs (FragmentSpread F dirs2 :: inner))
    = collect fuel' inner P' (Some (pushDeferUsage d P' c3).1)
        (pushDeferUsage d P' c3).2.
Proof.
  intros Hi Hd1 E1 fuel' P' N' c3 dirs2 cond fdirs inner d Hsub Hd2 Hi' Hm
    Hd'.
  unfold collectSelection. rewrite Hi', Hm, Hd'. simpl.
  destruct (pushDeferUsage d P' c3) as [t c4] eqn:Epush. simpl.
  destruct fuel' as [|fuel'']; [done|].
  rewrite collectFieldsImpl_cons.
  rewrite (later_spread_inert _ _ _ _ _ _ _ Hi Hd1 E1); [done| |done].
  unfold pushDeferUsage in Epush. injection Epush as _ <-. done.
Qed.

End collector_facts.

(** C5: a spread of [F] without an active [@defer] whose name is visited
    is skipped; one whose name is not visited enters the selection set of
    the fragment, with the name marked visited, under the targets in
    force; a spread with an active [@defer] enters it whatever the
    visited set holds, under a new target.  Hence in a selection set with
    two spreads of [F] without [@defer] the second contributes nothing:
    the collection is that of the selection set without it. *)
Theorem fragment_spread_once
    (gdv : GraphQLDirective → Selection → gmap string JSValue →
           option (gmap string JSValue))
    (schema : GraphQLSchema) (fragments : gmap string FragmentDefinition)
    (vars : gmap string JSValue) (runtimeType : GraphQLType)
    (operation : OperationDefinition) (F : string)
    (dirs : list DirectiveNode) :
  let collect :=
    collectFieldsImpl gdv schema fragments vars runtimeType operation in
  let step :=
    collectSelection gdv schema fragments vars runtimeType operation in
  let spread := FragmentSpread F dirs in
  (∀ rec P N c,
     getDeferValues gdv operation vars spread = Ok None →
     F ∈ visitedFragmentNames c →
     step rec P N c spread = Ok c)
  ∧ (∀ fuel P N c frag rest,
       shouldIncludeNode gdv vars spread = true →
       getDeferValues gdv operation vars spread = Ok None →
       F ∉ visitedFragmentNames c →
       fragments !! F = Some frag →
       doesFragmentConditionMatch schema
         (Some (fragmentTypeCondition frag)) runtimeType = true →
       collect (S fuel) (spread :: rest) P N c =
       collect fuel (fragmentSelectionSet frag) P N (markVisited F c)
       ≫= collect (S fuel) rest P N)
  ∧ (∀ fuel P N c frag d rest,
       shouldIncludeNode gdv vars spread = true →
       getDeferValues gdv operation vars spread = Ok (Some d) →
       fragments !! F = Some frag →
       doesFragmentConditionMatch schema
         (Some (fragmentTypeCondition frag)) runtimeType = true →
       collect (S fuel) (spread :: rest) P N c =
       collect fuel (fragmentSelectionSet frag) P
         (Some (pushDeferUsage d P c).1) (pushDeferUsage d P c).2
       ≫= collect (S fuel) rest P N)
  ∧ (∀ fuel pre mid post P N c dirs2,
       shouldIncludeNode gdv vars spread = true →
       getDeferValues gdv operation vars spread = Ok None →
       getDeferValues gdv operation vars (FragmentSpread F dirs2)
       = Ok None →
       collect fuel (pre ++ spread :: mid ++ FragmentSpread F dirs2 :: post)
         P N c
       = collect fuel (pre ++ spread :: mid ++ post) P N c).
Proof.
  intros collect step spread. subst collect step spread. split_and!.
  - intros rec P N c Hd HF. by apply spread_skip.
  - intros fuel P N c frag rest Hi Hd HF Hfrag Hm.
    rewrite collectFieldsImpl_cons. by erewrite spread_first.
  - intros fuel P N c frag d rest Hi Hd Hfrag Hm.
    rewrite collectFieldsImpl_cons. by erewrite spread_deferred.
  - intros fuel pre mid post P N c dirs2 Hi Hd Hd2. by apply spread_twice.
Qed.

Lemma fragment_spread_once_witness :
  collectFieldsImpl getDirectiveValues smallSchema fragmentsF ∅ queryType
    (mkOperationDefinition QUERY spreadTwice) 2 spreadTwice None None
    (newContext 0)
  = collectFieldsImpl getDirectiveValues smallSchema fragmentsF ∅ queryType
      (mkOperationDefinition QUERY spreadTwice) 2 spreadOnce None None
      (newContext 0)
  ∧ collectFieldsImpl getDirectiveValues smallSchema fragmentsF ∅ queryType
      (mkOperationDefinition QUERY spreadTwice) 2 spreadOnce None None
      (newContext 0)
    = Ok (mkContext
            [(None, [("x", [mkFieldNode None "x" [] None]);
                     ("y", [mkFieldNode None "y" [] None]);
                     ("z", [mkFieldNode None "z" [] None])])]
            [("x", [None]); ("y", [None]); ("z", [None])]
            [] {["F"]} 0).
Proof.
  split.
  - refine (proj2 (proj2 (proj2 (fragment_spread_once getDirectiveValues
      smallSchema fragmentsF ∅ queryType
      (mkOperationDefinition QUERY spreadTwice) "F" []))) 2
      [plainField "x"] [plainField "z"] [] None None (newContext 0) []
      _ _ _); by vm_compute.
  - by vm_compute.
Defined.

(** C9: the set of visited names belongs to the whole call, not to a
    target.  After a spread of [F] without an active [@defer] has been
    carried out under some targets, [F] is visited and stays so in every
    later context of the call; there a spread of [F] without an active
    [@defer] leaves the context as it is under any parent target and any
    new target, and a deferred inline fragment that starts with such a
    spread collects under its new target the rest of its selections only:
    the fields of [F] are not recorded under that target. *)
Theorem visited_names_shared_across_targets
    (gdv : GraphQLDirective → Selection → gmap string JSValue →
           option (gmap string JSValue))
    (schema : GraphQLSchema) (fragments : gmap string FragmentDefinition)
    (vars : gmap string JSValue) (runtimeType : GraphQLType)
    (operation : OperationDefinition) (fuel : nat) (P N : Target)
    (c1 c2 : Context) (F : string) (dirs1 : list DirectiveNode)
    (frag : FragmentDefinition) :
  let collect :=
    collectFieldsImpl gdv schema fragments vars runtimeType operation in
  let step :=
    collectSelection gdv schema fragments vars runtimeType operation in
  shouldIncludeNode gdv vars (FragmentSpread F dirs1) = true →
  getDeferValues gdv operation vars (FragmentSpread F dirs1) = Ok None →
  fragments !! F = Some frag →
  doesFragmentConditionMatch schema (Some (fragmentTypeCondition frag))
    runtimeType = true →
  step (collect fuel) P N c1 (FragmentSpread F dirs1) = Ok c2 →
  F ∈ visitedFragmentNames c2
  ∧ (∀ fuel' sels P' N' c3,
       collect fuel' sels P' N' c2 = Ok c3 →
       visitedFragmentNames c2 ⊆ visitedFragmentNames c3)
  ∧ (∀ c3 dirs2,
       visitedFragmentNames c2 ⊆ visitedFragmentNames c3 →
       getDeferValues gdv operation vars (FragmentSpread F dirs2)
       = Ok None →
       (∀ rec P' N', step rec P' N' c3 (FragmentSpread F dirs2) = Ok c3)
       ∧ (∀ fuel' P' N' cond fdirs inner d,
            shouldIncludeNode gdv vars
              (InlineFragment cond fdirs (FragmentSpread F dirs2 :: inner))
            = true →
            doesFragmentConditionMatch schema cond runtimeType = true →
            getDeferValues gdv operation vars
              (InlineFragment cond fdirs (FragmentSpread F dirs2 :: inner))
            = Ok (Some d) →
            step (collect fuel') P' N' c3
              (InlineFragment cond fdirs (FragmentSpread F dirs2 :: inner))
            = collect fuel' inner P' (Some (pushDeferUsage d P' c3).1)
                (pushDeferUsage d P' c3).2)).
Proof.
  intros collect step Hi Hd Hfrag Hm Hstep. subst collect step.
  split_and!.
  - destruct (decide (F ∈ visitedFragmentNames c1)) as [HF|HF].
    + rewrite spread_skip in Hstep by done. by injection Hstep as <-.
    + rewrite (spread_first _ _ _ _ _ _ _ _ _ _ _ _ frag) in Hstep by done.
      eapply visited_grows; [done|]. unfold markVisited. simpl. set_solver.
  - intros fuel' sels P' N' c3 Hrun F' HF'. by eapply visited_grows.
  - intros c3 dirs2 Hsub Hd2. split.
    + intros rec P' N'. by eapply later_spread_inert.
    + intros fuel' P' N' cond fdirs inner d Hi' Hm' Hd'.
      by eapply spread_under_new_target.
Qed.

Lemma visited_names_shared_across_targets_witness :
  "F" ∈ visitedFragmentNames
          (mkContext [(None, [("y", [mkFieldNode None "y" [] None])])]
             [("y", [None])] [] {["F"]} 0)
  ∧ collectFieldsImpl getDirectiveValues smallSchema fragmentsF ∅ queryType
      (mkOperationDefinition QUERY spreadThenDeferred) 3 spreadThenDeferred
      None None (newContext 0)
    = Ok (mkContext
            [(None, [("y", [mkFieldNode None "y" [] None])]);
             (Some scenarioUsage, [("w", [mkFieldNode None "w" [] None])])]
            [("y", [None]); ("w", [Some scenarioUsage])]
            [scenarioUsage] {["F"]} 1).
Proof.
  split.
  - refine (proj1 (visited_names_shared_across_targets getDirectiveValues
      smallSchema fragmentsF ∅ queryType
      (mkOperationDefinition QUERY spreadThenDeferred) 1 None None
      (newContext 0) _ "F" [] fragmentF _ _ _ _ _)); by vm_compute.
  - by vm_compute.
Defined.

(** ** The accumulators stay in step *)

Lemma AccumulatorMap_get_add {K T} `{EqDecision K} (key key' : K) (item : T)
    (m : list (K * list T)) :
  JSMap.get key' (AccumulatorMap.add key item m) =
  if decide (key = key') then Some (default [] (JSMap.get key m) ++ [item])
  else JSMap.get key' m.
Proof.
  unfold AccumulatorMap.add.
  destruct (JSMap.get key m) as [group|] eqn:E; rewrite JSMapFacts.get_set;
    by destruct (decide (key = key')).
Qed.

Lemma AccumulatorMap_NoDup_add {K T} `{EqDecision K} (key : K) (item : T)
    (m : list (K * list T)) :
  NoDup (JSMap.keys m) → NoDup (JSMap.keys (AccumulatorMap.add key item m)).
Proof.
  intros Hnd. unfold AccumulatorMap.add.
  destruct (JSMap.get key m); by apply JSMapFacts.NoDup_keys_set.
Qed.

Lemma Synced_new : Synced [] [].
Proof.
  split; [apply NoDup_nil_2|done..].
Qed.

Lemma recordField_synced (node : FieldNode) (P : Target)
    (N : option DeferUsage) (c : Context) :
  Synced (targetsByKey c) (fieldsByTarget c) →
  Synced (targetsByKey (recordField node P N c))
    (fieldsByTarget (recordField node P N c)).
Proof.
  intros [Hk Ht Hi Hn]. unfold recordField. simpl.
  set (key := getFieldEntryKey node).
  set (tgt := match N with Some _ => N | None => P end).
  set (keyTargets := match JSMap.get key (targetsByKey c) with
                     | Some keyTargets => keyTargets
                     | None => []
                     end).
  set (targetFields := match JSMap.get tgt (fieldsByTarget c) with
                       | Some targetFields => targetFields
                       | None => []
                       end).
  assert (HkT : NoDup keyTargets).
  { unfold keyTargets. destruct (JSMap.get key (targetsByKey c)) eqn:E.
    - by apply (Ht key).
    - apply NoDup_nil_2. }
  assert (Hnodes : ∀ T K,
    nodesOf (JSMap.set tgt (AccumulatorMap.add key node targetFields)
               (fieldsByTarget c)) T K =
    if decide (tgt = T ∧ key = K)
    then Some (default [] (nodesOf (fieldsByTarget c) T K) ++ [node])
    else nodesOf (fieldsByTarget c) T K).
  { intros T K. unfold nodesOf. rewrite JSMapFacts.get_set.
    destruct (decide (tgt = T)) as [<-|Hne]; simpl.
    - rewrite AccumulatorMap_get_add. unfold targetFields.
      destruct (decide (key = K)) as [<-|Hne].
      + rewrite decide_True by done.
        by destruct (JSMap.get tgt (fieldsByTarget c)).
      + rewrite decide_False by tauto.
        by destruct (JSMap.get tgt (fieldsByTarget c)).
    - rewrite decide_False by tauto. done. }
  split.
  - by apply JSMapFacts.NoDup_keys_set.
  - intros K ts. rewrite JSMapFacts.get_set.
    destruct (decide (key = K)) as [<-|_].
    + intros [= <-].
      split; [by apply JSSetFacts.NoDup_add|apply JSSetFacts.add_not_nil].
    + apply Ht.
  - intros T fs. rewrite JSMapFacts.get_set.
    destruct (decide (tgt = T)) as [<-|_].
    + intros [= <-]. apply AccumulatorMap_NoDup_add. unfold targetFields.
      destruct (JSMap.get tgt (fieldsByTarget c)) eqn:E.
      * by apply (Hi tgt).
      * apply NoDup_nil_2.
    + apply Hi.
  - intros K ts T. rewrite JSMapFacts.get_set, Hnodes.
    destruct (decide (key = K)) as [<-|Hne].
    + intros [= <-] [->|HT]%JSSetFacts.elem_of_add.
      * rewrite decide_True by done. eexists. split; [done|].
        by destruct (default _ _).
      * destruct (decide (tgt = T ∧ key = key)) as [_|_].
        -- eexists. split; [done|]. by destruct (default _ _).
        -- unfold keyTargets in HT.
           destruct (JSMap.get key (targetsByKey c)) as [kt|] eqn:E;
             [by eapply Hn|by apply elem_of_nil in HT].
    + intros Hts HT. rewrite decide_False by tauto. by eapply Hn.
Qed.

(** ** The builder does not read through a missing entry *)

Lemma takeFields_ok (key : string) (ts : list Target)
    (acc : list FieldDetails) (fbt : FieldsByTarget) :
  NoDup ts → (∀ T, T ∈ ts → is_Some (nodesOf fbt T key)) →
  ∃ r, forOf (takeFieldsOfTarget key) ts (acc, fbt) = Ok r.
Proof.
  revert acc fbt. induction ts as [|T rest IH]; intros acc fbt Hnd Hsome.
  - by eexists.
  - apply NoDup_cons in Hnd as [HT Hnd]. rewrite forOf_cons.
    destruct (Hsome T) as [nodes Hnodes]; [left|].
    unfold nodesOf in Hnodes.
    destruct (JSMap.get T fbt) as [fs|] eqn:Hfs; [|done]. simpl in Hnodes.
    assert (Hstep : takeFieldsOfTarget key (acc, fbt) T =
              Ok (acc ++ map (λ node, mkFieldDetails node T) nodes,
                  JSMap.set T (JSMap.delete key fs) fbt)).
    { unfold takeFieldsOfTarget. by rewrite Hfs, Hnodes. }
    rewrite Hstep. simpl. apply IH; [done|].
    intros T' HT'. rewrite (nodesOf_set_delete fbt T T' key key fs Hfs).
    rewrite decide_False; [apply Hsome; by right|].
    intros [_ ->]. done.
Qed.

Lemma orderedGroup_ok (keys : list string) (M : list Target)
    (tbk : list (string * list Target)) (ks : list string)
    (gfs : list (string * FieldGroup)) (fbt : FieldsByTarget) :
  NoDup ks →
  (∀ K, K ∈ ks → K ∈ keys →
     ∃ kt, JSMap.get K tbk = Some kt ∧ NoDup kt
           ∧ ∀ T, T ∈ kt → is_Some (nodesOf fbt T K)) →
  ∃ r, forOf (orderedGroupStep keys M tbk) ks (gfs, fbt) = Ok r.
Proof.
  revert gfs fbt. induction ks as [|K rest IH]; intros gfs fbt Hnd Hall.
  - by eexists.
  - apply NoDup_cons in Hnd as [HK Hnd]. rewrite forOf_cons.
    destruct (decide (K ∈ keys)) as [Hin|Hnin].
    2:{ rewrite orderedGroupStep_skip by done. simpl. apply IH; [done|].
        intros K' HK'. apply Hall. by right. }
    destruct (Hall K) as (kt & Hkt & Hkn & Hsome); [left|done|].
    destruct (takeFields_ok K kt
                (fields (default (mkFieldGroup [] M) (JSMap.get K gfs)))
                fbt Hkn Hsome) as [[gf fbt1] Hinner].
    assert (Hstep : orderedGroupStep keys M tbk (gfs, fbt) K =
              Ok (JSMap.set K
                    (mkFieldGroup gf
                       (targets (default (mkFieldGroup [] M)
                                   (JSMap.get K gfs)))) gfs, fbt1)).
    { unfold orderedGroupStep.
      rewrite (proj2 (JSSetFacts.has_true K keys) Hin), Hkt.
      replace (match JSMap.get K gfs with
               | Some fieldGroup => fieldGroup
               | None => mkFieldGroup [] M
               end) with (default (mkFieldGroup [] M) (JSMap.get K gfs))
        by by destruct (JSMap.get K gfs).
      by rewrite Hinner. }
    rewrite Hstep. simpl. apply IH; [done|].
    intros K' HK' Hk'. destruct (Hall K') as (kt' & Hkt' & Hkn' & Hsome');
      [by right|done|].
    exists kt'. split_and!; [done|done|]. intros T HT.
    destruct (takeFields_spec _ _ _ _ _ _ Hinner) as (_ & _ & _ & Hframe & _).
    rewrite Hframe, decide_False; [by apply Hsome'|].
    intros [-> _]. done.
Qed.

Lemma getOrderedGroupedFieldSet_ok (keys : list string) (M : list Target)
    (tbk : list (string * list Target)) (fbt : FieldsByTarget) :
  is_Some (JSMap.get (firstTargetOf M) fbt) →
  innerKeysNoDup fbt →
  (∀ K, K ∈ keys →
     ∃ kt, JSMap.get K tbk = Some kt ∧ NoDup kt
           ∧ ∀ T, T ∈ kt → is_Some (nodesOf fbt T K)) →
  ∃ r, getOrderedGroupedFieldSet keys M tbk fbt = Ok r.
Proof.
  intros [firstFields Hfirst] Hinner Hall.
  unfold getOrderedGroupedFieldSet. fold (firstTargetOf M). rewrite Hfirst.
  apply orderedGroup_ok; [by eapply Hinner|]. intros K _. apply Hall.
Qed.

Lemma sameMembers_nil_r {A} (l : list A) : sameMembers l [] → l = [].
Proof.
  destruct l as [|x l]; [done|]. intros H.
  assert (Hx : x ∈ []) by (apply H; left). by apply elem_of_nil in Hx.
Qed.

Lemma firstTargetOf_elem (M : list Target) : M ≠ [] → firstTargetOf M ∈ M.
Proof. destruct M; [done|]. intros _. left. Qed.

(** One group: under the invariant the call returns, with exactly the
    keys asked for, each with the nodes of all its targets, and leaves
    the nodes of the other keys where they were. *)
Lemma group_call (tbk : list (string * list Target))
    (fbt fbt_cur : FieldsByTarget) (used keys : list string)
    (M : list Target) :
  Synced tbk fbt →
  Remaining fbt used fbt_cur →
  (∀ K, K ∈ keys → K ∉ used) →
  keys ≠ [] →
  (∀ K, K ∈ keys →
     ∃ ts, JSMap.get K tbk = Some ts ∧ sameMembers M (maskingTargetsOf ts)) →
  ∃ gfs fbt',
    getOrderedGroupedFieldSet keys M tbk fbt_cur = Ok (gfs, fbt')
    ∧ Remaining fbt (used ++ keys) fbt'
    ∧ (∀ K, K ∈ JSMap.keys gfs ↔ K ∈ keys)
    ∧ (∀ K g, (K, g) ∈ gfs →
         fields g = flat_map (detailsOf fbt K) (keyTargetsOf tbk K)
         ∧ targets g = M).
Proof.
  intros [Sk St Si Sn] [Ri Rt Rn] Hfresh Hne Hkeys.
  assert (HMne : M ≠ []).
  { destruct keys as [|K0 keys']; [done|].
    destruct (Hkeys K0) as (ts0 & Hts0 & HM); [left|].
    intros ->. apply sameMembers_sym, sameMembers_nil_r in HM.
    destruct (St K0 ts0 Hts0) as [_ Hts0ne].
    by apply maskingTargetsOf_not_nil in Hts0ne. }
  pose proof (firstTargetOf_elem M HMne) as Hfirst.
  assert (Hnodes : ∀ K, K ∈ keys →
            ∃ kt, JSMap.get K tbk = Some kt ∧ NoDup kt
                  ∧ ∀ T, T ∈ kt → is_Some (nodesOf fbt_cur T K)).
  { intros K HK. destruct (Hkeys K HK) as (ts & Hts & HM).
    exists ts. split_and!; [done|by apply (St K)|].
    intros T HT. rewrite Rn by by apply Hfresh.
    destruct (Sn K ts T Hts HT) as (nodes & -> & _). by eexists. }
  assert (HfirstK : ∀ K, K ∈ keys →
            is_Some (nodesOf fbt_cur (firstTargetOf M) K)).
  { intros K HK. destruct (Hkeys K HK) as (ts & Hts & HM).
    destruct (Hnodes K HK) as (kt & Hkt & _ & Hsome).
    rewrite Hts in Hkt. injection Hkt as <-. apply Hsome.
    by apply maskingTargetsOf_subset, HM. }
  assert (Hfirst_some : is_Some (JSMap.get (firstTargetOf M) fbt_cur)).
  { destruct keys as [|K0 keys']; [done|].
    destruct (HfirstK K0) as [nodes Hn]; [left|]. unfold nodesOf in Hn.
    destruct (JSMap.get (firstTargetOf M) fbt_cur); [by eexists|done]. }
  destruct (getOrderedGroupedFieldSet_ok keys M tbk fbt_cur Hfirst_some Ri
              Hnodes) as [[gfs fbt'] Hrun].
  exists gfs, fbt'. split; [done|].
  destruct (getOrderedGroupedFieldSet_spec _ _ _ _ _ _ Hrun)
    as (firstFields & Hff & Hgk & Hgnd & Hcontent & Hframe & Hdom & Hin).
  split_and!.
  - split.
    + by apply Hin.
    + intros T. by rewrite Hdom.
    + intros T K HK. rewrite Hframe, decide_False.
      * apply Rn. intros HKu. apply HK, elem_of_app. by left.
      * intros (_ & HKk & _). apply HK, elem_of_app. by right.
  - intros K. rewrite Hgk. split; [tauto|]. intros HK. split; [|done].
    destruct (HfirstK K HK) as [nodes Hn]. unfold nodesOf in Hn.
    rewrite Hff in Hn. simpl in Hn. apply JSMapFacts.get_is_Some.
    by eexists.
  - intros K g Hg.
    assert (Hget : JSMap.get K gfs = Some g)
      by by apply JSMapFacts.elem_of_get.
    destruct (Hcontent K g Hget) as (kt & Hkt & _ & Hf & Ht).
    split; [|done]. unfold keyTargetsOf. rewrite Hkt. simpl. rewrite Hf.
    apply flat_map_ext_elem. intros T HT. unfold detailsOf.
    rewrite Rn; [done|]. apply Hfresh, Hgk.
    apply JSMapFacts.get_is_Some. by eexists.
Qed.

Section partition_facts.

Variable tbk : list (string * list Target).
Variable parentTargets : list Target.
Hypothesis tbk_keys : NoDup (JSMap.keys tbk).

Abbreviation ptk := ((getTargetSetDetails tbk parentTargets).1).
Abbreviation tsd := ((getTargetSetDetails tbk parentTargets).2).

Lemma parent_key_known K :
  K ∈ ptk →
  ∃ ts, JSMap.get K tbk = Some ts
        ∧ sameMembers parentTargets (maskingTargetsOf ts).
Proof using tbk_keys.
  intros HK.
  apply (inv_parent_keys _ _ _ _ (getTargetSetDetails_inv tbk parentTargets))
    in HK as (ts & Hin & Hs).
  exists ts. split; [by apply JSMapFacts.elem_of_get|].
  by apply sameMembers_sym.
Qed.

Lemma entry_key_known M d K :
  (M, d) ∈ tsd → K ∈ keys d →
  ∃ ts, JSMap.get K tbk = Some ts
        ∧ sameMembers M (maskingTargetsOf ts)
        ∧ ¬ sameMembers (maskingTargetsOf ts) parentTargets.
Proof using tbk_keys.
  intros Hin HK.
  apply (inv_entry_keys _ _ _ _ (getTargetSetDetails_inv tbk parentTargets)
           M d K Hin) in HK as (ts & Hts & Hn & Hs).
  exists ts. split_and!; [by apply JSMapFacts.elem_of_get|done|done].
Qed.

Lemma entry_of_key K ts :
  (K, ts) ∈ tbk →
  ¬ sameMembers (maskingTargetsOf ts) parentTargets →
  ∃ i M d, tsd !! i = Some (M, d)
           ∧ sameMembers M (maskingTargetsOf ts) ∧ K ∈ keys d
           ∧ (K ∉ ptk)
           ∧ ∀ j M' d', tsd !! j = Some (M', d') → K ∈ keys d' → j = i.
Proof using tbk_keys.
  intros Hin Hn.
  pose proof (getTargetSetDetails_inv tbk parentTargets) as Hinv.
  destruct (inv_entry_exists _ _ _ _ Hinv K ts Hin Hn) as (M & d & Hd & Hs).
  apply list_elem_of_lookup in Hd as [i Hi]. exists i, M, d.
  assert (Hget : JSMap.get K tbk = Some ts)
    by by apply JSMapFacts.elem_of_get.
  split_and!; [done|done| | |].
  - apply (inv_entry_keys _ _ _ _ Hinv M d K).
    + by eapply list_elem_of_lookup_2.
    + by exists ts.
  - intros (ts' & Hget' & Hs')%parent_key_known.
    rewrite Hget in Hget'. injection Hget' as <-.
    by apply Hn, sameMembers_sym.
  - intros j M' d' Hj HK.
    destruct (entry_key_known M' d' K) as (ts' & Hget' & Hs' & _);
      [by eapply list_elem_of_lookup_2|done|].
    rewrite Hget in Hget'. injection Hget' as <-.
    apply (inv_entries_distinct _ _ _ _ Hinv j i M' M).
    + by rewrite list_lookup_fmap, Hj.
    + by rewrite list_lookup_fmap, Hi.
    + eapply sameMembers_trans; [done|]. by apply sameMembers_sym.
Qed.

Lemma parent_key_in_no_entry K M d :
  K ∈ ptk → (M, d) ∈ tsd → K ∉ keys d.
Proof using tbk_keys.
  intros (ts & Hget & Hs)%parent_key_known Hin HK.
  destruct (entry_key_known M d K Hin HK) as (ts' & Hget' & _ & Hn).
  rewrite Hget in Hget'. injection Hget' as <-.
  by apply Hn, sameMembers_sym.
Qed.

Lemma freshGroups_suffix pre suf used :
  tsd = pre ++ suf →
  (∀ K, K ∈ used → K ∈ ptk ∨ ∃ M d, (M, d) ∈ pre ∧ K ∈ keys d) →
  freshGroups used suf.
Proof using tbk_keys.
  revert pre used. induction suf as [|[M d] suf IH]; intros pre used Htsd Hused;
    [done|]. simpl. split.
  - intros K HK HKu.
    assert (Hi : tsd !! length pre = Some (M, d)).
    { rewrite Htsd, lookup_app_r, Nat.sub_diag; [done|lia]. }
    destruct (Hused K HKu) as [Hp|(M' & d' & Hin' & HK')].
    + eapply parent_key_in_no_entry; [done| |done].
      by eapply list_elem_of_lookup_2.
    + apply list_elem_of_lookup in Hin' as [j Hj].
      assert (Hj' : tsd !! j = Some (M', d')).
      { rewrite Htsd, lookup_app_l; [done|]. by eapply lookup_lt_Some. }
      apply lookup_lt_Some in Hj.
      destruct (entry_key_known M d K) as (ts & Hget & Hs & Hn);
        [by eapply list_elem_of_lookup_2|done|].
      destruct (entry_of_key K ts) as (i & _ & _ & _ & _ & _ & _ & Huniq);
        [by apply JSMapFacts.get_Some_elem_of|done|].
      pose proof (Huniq _ _ _ Hi HK). pose proof (Huniq _ _ _ Hj' HK'). lia.
  - apply (IH (pre ++ [(M, d)])).
    + by rewrite <- app_assoc.
    + intros K [HK|HK]%elem_of_app.
      * destruct (Hused K HK) as [?|(M' & d' & ? & ?)]; [by left|].
        right. exists M', d'. split; [|done]. apply elem_of_app. by left.
      * right. exists M, d. split; [|done]. apply elem_of_app. right. left.
Qed.

Lemma freshGroups_partition : freshGroups ptk tsd.
Proof using tbk_keys.
  apply (freshGroups_suffix [] tsd ptk); [done|]. intros K HK. by left.
Qed.

End partition_facts.

Lemma entries_ok (tbk : list (string * list Target)) (fbt : FieldsByTarget)
    (entries : list (list Target * TargetSetDetails)) :
  Synced tbk fbt →
  ∀ used fbt_cur acc,
    Remaining fbt used fbt_cur →
    freshGroups used entries →
    (∀ M d, (M, d) ∈ entries →
       keys d ≠ []
       ∧ ∀ K, K ∈ keys d →
           ∃ ts, JSMap.get K tbk = Some ts
                 ∧ sameMembers M (maskingTargetsOf ts)) →
    ∃ results fbt',
      forOf (newGroupedFieldSetStep tbk) entries (acc, fbt_cur)
      = Ok (acc ++ results, fbt')
      ∧ Forall2 (GroupOf tbk fbt) entries results.
Proof.
  intros Hsync. induction entries as [|[M d] rest IH];
    intros used fbt_cur acc Hrem Hfresh Hall.
  - exists [], fbt_cur. rewrite app_nil_r. by split.
  - destruct Hfresh as [Hfr Hfresh]. rewrite forOf_cons.
    destruct (Hall M d) as [Hne Hk]; [left|].
    destruct (group_call tbk fbt fbt_cur used (keys d) M Hsync Hrem Hfr Hne
                Hk) as (gfs & fbt1 & Hrun & Hrem1 & Hgk & Hcontent).
    assert (Hstep : newGroupedFieldSetStep tbk (acc, fbt_cur) (M, d) =
              Ok (acc ++ [(M, {| detailsGroupedFieldSet := gfs;
                                 detailsShouldInitiateDefer :=
                                   shouldInitiateDefer d |})], fbt1)).
    { unfold newGroupedFieldSetStep. by rewrite Hrun. }
    rewrite Hstep. simpl.
    destruct (IH (used ++ keys d) fbt1
                (acc ++ [(M, {| detailsGroupedFieldSet := gfs;
                                detailsShouldInitiateDefer :=
                                  shouldInitiateDefer d |})])
                Hrem1 Hfresh) as (results & fbt' & Hloop & Hres).
    { intros M' d' Hin. apply Hall. by right. }
    eexists (_ :: results), fbt'. split.
    + rewrite Hloop. by rewrite <- app_assoc.
    + apply Forall2_cons. split; [|done]. by split_and!.
Qed.

Lemma buildGroupedFieldSets_correct (tbk : list (string * list Target))
    (fbt : FieldsByTarget) (parentTargets : list Target) :
  Synced tbk fbt →
  ∃ sets,
    buildGroupedFieldSets tbk fbt parentTargets = Ok sets
    ∧ (∀ K, K ∈ JSMap.keys (groupedFieldSet sets)
            ↔ K ∈ (getTargetSetDetails tbk parentTargets).1)
    ∧ (∀ K g, (K, g) ∈ groupedFieldSet sets →
         fields g = flat_map (detailsOf fbt K) (keyTargetsOf tbk K)
         ∧ targets g = parentTargets)
    ∧ Forall2 (GroupOf tbk fbt) (getTargetSetDetails tbk parentTargets).2
        (newGroupedFieldSetDetails sets).
Proof.
  intros Hsync. pose proof Hsync as [Sk St Si Sn].
  pose proof (getTargetSetDetails_inv tbk parentTargets) as Hinv.
  pose proof (freshGroups_partition tbk parentTargets Sk) as Hfresh.
  pose proof (parent_key_known tbk parentTargets Sk) as Hparent.
  pose proof (entry_key_known tbk parentTargets Sk) as Hentry.
  unfold buildGroupedFieldSets.
  destruct (getTargetSetDetails tbk parentTargets) as [ptk tsd]. simpl in *.
  assert (Hrem0 : Remaining fbt [] fbt) by by split.
  assert (Hbase : ∃ gfs fbt1,
    (if bool_decide (0 < length ptk)
     then getOrderedGroupedFieldSet ptk parentTargets tbk fbt
     else Ok ([], fbt)) = Ok (gfs, fbt1)
    ∧ Remaining fbt ptk fbt1
    ∧ (∀ K, K ∈ JSMap.keys gfs ↔ K ∈ ptk)
    ∧ (∀ K g, (K, g) ∈ gfs →
         fields g = flat_map (detailsOf fbt K) (keyTargetsOf tbk K)
         ∧ targets g = parentTargets)).
  { destruct ptk as [|K0 ptk'] eqn:Eptk.
    - exists [], fbt. split_and!; [done|done|done|].
      by intros K g ?%elem_of_nil.
    - rewrite bool_decide_eq_true_2 by (simpl; lia). rewrite <- Eptk in *.
      destruct (group_call tbk fbt fbt [] ptk parentTargets Hsync Hrem0)
        as (gfs & fbt1 & Hrun & Hrem1 & Hgk & Hcontent).
      + by intros K _ ?%elem_of_nil.
      + by rewrite Eptk.
      + done.
      + by exists gfs, fbt1. }
  destruct Hbase as (gfs & fbt1 & -> & Hrem1 & Hgk & Hcontent). simpl.
  destruct (entries_ok tbk fbt tsd Hsync ptk fbt1 [] Hrem1 Hfresh)
    as (results & fbt' & Hloop & Hres).
  { intros M d Hin. split.
    - by destruct (inv_entry_shape _ _ _ _ Hinv M d Hin).
    - intros K HK. destruct (Hentry M d K Hin HK) as (ts & ? & ? & _).
      by exists ts. }
  rewrite Hloop. simpl. eexists. split; [done|]. by split_and!.
Qed.

Lemma partition_level (tbk : list (string * list Target))
    (parentTargets : list Target) (K : string) (ts : list Target) :
  NoDup (JSMap.keys tbk) → (K, ts) ∈ tbk →
  let ptk := (getTargetSetDetails tbk parentTargets).1 in
  let tsd := (getTargetSetDetails tbk parentTargets).2 in
  (sameMembers (maskingTargetsOf ts) parentTargets →
   K ∈ ptk ∧ ∀ M d, (M, d) ∈ tsd → K ∉ keys d)
  ∧ (¬ sameMembers (maskingTargetsOf ts) parentTargets →
     (K ∉ ptk)
     ∧ ∃ i M d,
         tsd !! i = Some (M, d)
         ∧ sameMembers M (maskingTargetsOf ts)
         ∧ K ∈ keys d
         ∧ (∀ j M' d', tsd !! j = Some (M', d') → K ∈ keys d' → j = i)
         ∧ (∀ K' ts', (K', ts') ∈ tbk →
              sameMembers (maskingTargetsOf ts') (maskingTargetsOf ts) →
              K' ∈ keys d)).
Proof.
  intros Hnd Hin ptk tsd. subst ptk tsd.
  pose proof (getTargetSetDetails_inv tbk parentTargets) as Hinv. split.
  - intros Hs.
    assert (HK : K ∈ (getTargetSetDetails tbk parentTargets).1).
    { apply (inv_parent_keys _ _ _ _ Hinv). by exists ts. }
    split; [done|]. intros M d Hd. by eapply parent_key_in_no_entry.
  - intros Hn.
    destruct (entry_of_key tbk parentTargets Hnd K ts Hin Hn)
      as (i & M & d & Hi & Hs & HK & Hp & Huniq).
    split; [done|]. exists i, M, d. split_and!; try done.
    intros K' ts' Hin' Hs'.
    apply (inv_entry_keys _ _ _ _ Hinv M d K').
    { by eapply list_elem_of_lookup_2. }
    exists ts'. split_and!; [done| |].
    + intros Hp'. apply Hn. eapply sameMembers_trans; [|done].
      by apply sameMembers_sym.
    + eapply sameMembers_trans; [done|]. by apply sameMembers_sym.
Qed.

Lemma collectFieldsImpl_synced
    (gdv : GraphQLDirective → Selection → gmap string JSValue →
           option (gmap string JSValue))
    (schema : GraphQLSchema) (fragments : gmap string FragmentDefinition)
    (vars : gmap string JSValue) (runtimeType : GraphQLType)
    (operation : OperationDefinition) (fuel : nat) (sels : list Selection)
    (P N : Target) (c c' : Context) :
  Synced (targetsByKey c) (fieldsByTarget c) →
  collectFieldsImpl gdv schema fragments vars runtimeType operation fuel sels
    P N c = Ok c' →
  Synced (targetsByKey c') (fieldsByTarget c').
Proof.
  intros Hsync Hrun.
  apply (collectFieldsImpl_preserves gdv schema fragments vars runtimeType
           operation (λ c, Synced (targetsByKey c) (fieldsByTarget c)))
    with fuel sels P N c; try done.
  intros node P' N' c0. apply recordField_synced.
Qed.

Lemma scenario_synced : Synced scenarioTargetsByKey scenarioFieldsByTarget.
Proof.
  exact (collectFieldsImpl_synced _ _ _ _ _ _ _ _ _ _ (newContext 0) _
           Synced_new (scenario_accumulators smallSchema queryType)).
Qed.

(** C10: the collector keeps the two accumulators in step.  From
    accumulators in step (those of a new context are) a collection that
    returns leaves them in step: whenever a key lists a target, the map
    of that target has a non-empty list of nodes for the key.  Group
    building from such accumulators returns a result for any parent
    target set: none of its unchecked reads meets a missing entry. *)
Theorem accumulators_in_step
    (gdv : GraphQLDirective → Selection → gmap string JSValue →
           option (gmap string JSValue))
    (schema : GraphQLSchema) (fragments : gmap string FragmentDefinition)
    (vars : gmap string JSValue) (runtimeType : GraphQLType)
    (operation : OperationDefinition) (fuel : nat) (sels : list Selection)
    (P N : Target) (c c' : Context) :
  Synced (targetsByKey c) (fieldsByTarget c) →
  collectFieldsImpl gdv schema fragments vars runtimeType operation fuel sels
    P N c = Ok c' →
  Synced (targetsByKey c') (fieldsByTarget c')
  ∧ (∀ K ts T,
       JSMap.get K (targetsByKey c') = Some ts → T ∈ ts →
       ∃ fieldsForTarget nodes,
         JSMap.get T (fieldsByTarget c') = Some fieldsForTarget
         ∧ JSMap.get K fieldsForTarget = Some nodes
         ∧ nodes ≠ [])
  ∧ (∀ parentTargets,
       ∃ sets,
         buildGroupedFieldSets (targetsByKey c') (fieldsByTarget c')
           parentTargets = Ok sets).
Proof.
  intros Hsync Hrun.
  assert (Hsync' : Synced (targetsByKey c') (fieldsByTarget c'))
    by by eapply collectFieldsImpl_synced.
  split_and!; [done| |].
  - intros K ts T Hts HT.
    destruct (synced_nodes _ _ Hsync' K ts T Hts HT) as (nodes & Hn & Hne).
    unfold nodesOf in Hn.
    destruct (JSMap.get T (fieldsByTarget c')) as [fs|]; [|done].
    by exists fs, nodes.
  - intros parentTargets.
    destruct (buildGroupedFieldSets_correct _ _ parentTargets Hsync')
      as (sets & Hsets & _). by exists sets.
Qed.

Lemma accumulators_in_step_witness :
  Synced scenarioTargetsByKey scenarioFieldsByTarget
  ∧ ∃ sets,
      buildGroupedFieldSets scenarioTargetsByKey scenarioFieldsByTarget
        NON_DEFERRED_TARGET_SET = Ok sets.
Proof.
  destruct (accumulators_in_step getDirectiveValues smallSchema ∅ ∅
              queryType (mkOperationDefinition QUERY scenarioSelectionSet) 2
              scenarioSelectionSet None None (newContext 0)
              (mkContext scenarioFieldsByTarget scenarioTargetsByKey
                 [scenarioUsage] ∅ 1) Synced_new)
    as (Hs & _ & Hb).
  - by vm_compute.
  - split; [exact Hs|exact (Hb NON_DEFERRED_TARGET_SET)].
Defined.

(** The entry points never end in the [TypeError] of a missing entry. *)
Lemma collectFieldsImpl_no_TypeError
    (gdv : GraphQLDirective → Selection → gmap string JSValue →
           option (gmap string JSValue))
    (schema : GraphQLSchema) (fragments : gmap string FragmentDefinition)
    (vars : gmap string JSValue) (runtimeType : GraphQLType)
    (operation : OperationDefinition) (fuel : nat) :
  ∀ sels P N c,
    collectFieldsImpl gdv schema fragments vars runtimeType operation fuel
      sels P N c ≠ TypeError.
Proof.
  induction fuel as [|fuel IH]; [done|].
  intros sels. induction sels as [|s sels IHs]; intros P N c; [done|].
  rewrite collectFieldsImpl_cons.
  destruct (collectSelection _ _ _ _ _ _ _ _ _ _ s) as [c1| | |] eqn:Es;
    simpl; try done; try apply IHs.
  exfalso. revert Es. unfold collectSelection.
  destruct s as [node|cond dirs sub|F dirs].
  - by destruct (negb _).
  - destruct (_ || _); [done|].
    unfold getDeferValues. destruct (gdv _ _ _) as [defer|]; simpl.
    + destruct (decide _); simpl; [apply IH|].
      destruct (decide _); simpl; [done|].
      unfold pushDeferUsage. simpl. apply IH.
    + apply IH.
  - destruct (negb _); [done|].
    unfold getDeferValues. destruct (gdv _ _ _) as [defer|]; simpl.
    + destruct (decide _); simpl.
      * destruct (_ && _); [done|]. destruct (fragments !! F); [|done].
        destruct (negb _); [done|]. apply IH.
      * destruct (decide _); simpl; [done|].
        destruct (_ && _); [done|]. destruct (fragments !! F); [|done].
        destruct (negb _); [done|].
        unfold pushDeferUsage. simpl. apply IH.
    + destruct (_ && _); [done|]. destruct (fragments !! F); [|done].
      destruct (negb _); [done|]. apply IH.
Qed.

Lemma collectFields_no_TypeError
    (gdv : GraphQLDirective → Selection → gmap string JSValue →
           option (gmap string JSValue))
    (fuel : nat) (schema : GraphQLSchema)
    (fragments : gmap string FragmentDefinition)
    (vars : gmap string JSValue) (runtimeType : GraphQLType)
    (operation : OperationDefinition) :
  collectFields gdv fuel schema fragments vars runtimeType operation
  ≠ TypeError.
Proof.
  unfold collectFields.
  destruct (collectFieldsImpl _ _ _ _ _ _ _ _ _ _ _) as [c'| | |] eqn:E;
    simpl; try done.
  - pose proof (collectFieldsImpl_synced _ _ _ _ _ _ _ _ _ _
                  (newContext 0) c' Synced_new E) as Hsync.
    destruct (buildGroupedFieldSets_correct _ _ NON_DEFERRED_TARGET_SET
                Hsync) as (sets & -> & _). done.
  - by apply collectFieldsImpl_no_TypeError in E.
Qed.

Lemma Forall2_GroupOf_elem (tbk : list (string * list Target))
    (fbt : FieldsByTarget) (tsd : list (list Target * TargetSetDetails))
    (groups : list (list Target * GroupedFieldSetDetails)) :
  Forall2 (GroupOf tbk fbt) tsd groups →
  (∀ i M gd, groups !! i = Some (M, gd) →
     ∃ d, tsd !! i = Some (M, d) ∧ GroupOf tbk fbt (M, d) (M, gd))
  ∧ (∀ i M d, tsd !! i = Some (M, d) →
       ∃ gd, groups !! i = Some (M, gd) ∧ GroupOf tbk fbt (M, d) (M, gd)).
Proof.
  intros HF. split.
  - intros i M gd Hi.
    destruct (Forall2_lookup_r _ _ _ _ _ HF Hi) as ([M' d] & Hd & HG).
    assert (M = M') as <- by apply HG. by exists d.
  - intros i M d Hi.
    destruct (Forall2_lookup_l _ _ _ _ _ HF Hi) as ([M' gd] & Hg & HG).
    assert (M' = M) as -> by apply HG. by exists gd.
Qed.

(** C1: for a key collected with the targets [ts], the masking target set
    that the builder computes holds exactly the targets of [ts] none of
    whose ancestors is in [ts]; the base target, which has no ancestors,
    is kept.  The key is filed under that set.  When the key was collected
    under a deferred target and under one of its ancestors, the deferred
    target is not in the masking set and no entry whose masking set holds
    it lists the key, neither in [getTargetSetDetails] nor in the
    grouped field sets built from it. *)
Theorem masking_by_ancestor (tbk : list (string * list Target))
    (parentTargets : list Target) (K : string) (ts : list Target) :
  NoDup (JSMap.keys tbk) → (K, ts) ∈ tbk →
  let ptk := (getTargetSetDetails tbk parentTargets).1 in
  let tsd := (getTargetSetDetails tbk parentTargets).2 in
  (∀ T, T ∈ maskingTargetsOf ts ↔
        T ∈ ts ∧ ∀ a, a ∈ targetAncestors T → a ∉ ts)
  ∧ (None ∈ ts → None ∈ maskingTargetsOf ts)
  ∧ (K ∈ ptk ∧ sameMembers (maskingTargetsOf ts) parentTargets
     ∨ (K ∉ ptk)
       ∧ ∃ M d, (M, d) ∈ tsd ∧ sameMembers M (maskingTargetsOf ts)
                ∧ K ∈ keys d)
  ∧ (∀ D A,
       Some D ∈ ts → A ∈ ancestors D → A ∈ ts →
       (Some D ∉ maskingTargetsOf ts)
       ∧ (∀ M d, (M, d) ∈ tsd → Some D ∈ M → K ∉ keys d)
       ∧ (∀ fbt, Synced tbk fbt →
            ∃ sets,
              buildGroupedFieldSets tbk fbt parentTargets = Ok sets
              ∧ ∀ M gd,
                  (M, gd) ∈ newGroupedFieldSetDetails sets → Some D ∈ M →
                  K ∉ JSMap.keys (detailsGroupedFieldSet gd))).
Proof.
  intros Hnd Hin ptk tsd. subst ptk tsd.
  pose proof (partition_level tbk parentTargets K ts Hnd Hin) as [Hsame Hdiff].
  split_and!.
  - apply elem_of_maskingTargetsOf.
  - intros HN. apply elem_of_maskingTargetsOf. split; [done|].
    by intros a ?%elem_of_nil.
  - destruct (isSameSet (maskingTargetsOf ts) parentTargets) eqn:E;
      [apply isSameSet_true in E as Hs|apply isSameSet_false in E as Hn].
    + left. split; [by apply Hsame|done].
    + right. destruct (Hdiff Hn) as (Hp & i & M & d & Hi & Hs & HK & _).
      split; [done|]. exists M, d.
      split_and!; [by eapply list_elem_of_lookup_2|done|done].
  - intros D A HD HA HAts.
    assert (Hdrop : Some D ∉ maskingTargetsOf ts).
    { rewrite elem_of_maskingTargetsOf. intros [_ Hanc].
      by apply (Hanc A). }
    assert (Hentries : ∀ M d,
      (M, d) ∈ (getTargetSetDetails tbk parentTargets).2 →
      Some D ∈ M → K ∉ keys d).
    { intros M d Hd HDM HK.
      destruct (entry_key_known tbk parentTargets Hnd M d K Hd HK)
        as (ts' & Hget & Hs & _).
      rewrite (JSMapFacts.elem_of_get K ts tbk Hnd Hin) in Hget.
      injection Hget as <-. by apply Hdrop, Hs. }
    split_and!; [done|done|].
    intros fbt Hsync.
    destruct (buildGroupedFieldSets_correct tbk fbt parentTargets Hsync)
      as (sets & Hsets & _ & _ & HF).
    exists sets. split; [done|]. intros M gd Hgd HDM HK.
    apply list_elem_of_lookup in Hgd as [i Hi].
    destruct (proj1 (Forall2_GroupOf_elem _ _ _ _ HF) i M gd Hi)
      as (d & Hd & _ & _ & Hkeys & _).
    apply (Hentries M d); [by eapply list_elem_of_lookup_2|done|].
    by apply Hkeys.
Qed.

Lemma masking_by_ancestor_witness :
  Some scenarioUsage ∉ maskingTargetsOf [None; Some scenarioUsage].
Proof.
  refine (proj1 (proj2 (proj2 (proj2 (masking_by_ancestor
    scenarioTargetsByKey NON_DEFERRED_TARGET_SET "b"
    [None; Some scenarioUsage] _ _))) scenarioUsage None _ _ _)).
  - apply (bool_decide_unpack _). by vm_compute.
  - right. left.
  - right. left.
  - left.
  - left.
Defined.

(** C2: the partitioning.  A key whose masking target set has the members
    of the caller's parent target set is in the base grouped field set
    and in no other; any other key is in the entry of its masking set and
    in that one only, where the keys with a masking set of the same
    members are too; and the [shouldInitiateDefer] of an entry is true if
    and only if a target of its masking set is not in the parent target
    set.  This holds of the two results of [getTargetSetDetails] and, for
    accumulators in step, of the grouped field sets that
    [buildGroupedFieldSets] returns. *)
Theorem partition_by_masking_set (tbk : list (string * list Target))
    (parentTargets : list Target) :
  NoDup (JSMap.keys tbk) →
  let ptk := (getTargetSetDetails tbk parentTargets).1 in
  let tsd := (getTargetSetDetails tbk parentTargets).2 in
  (∀ K ts, (K, ts) ∈ tbk →
     (sameMembers (maskingTargetsOf ts) parentTargets →
      K ∈ ptk ∧ ∀ M d, (M, d) ∈ tsd → K ∉ keys d)
     ∧ (¬ sameMembers (maskingTargetsOf ts) parentTargets →
        (K ∉ ptk)
        ∧ ∃ i M d,
            tsd !! i = Some (M, d)
            ∧ sameMembers M (maskingTargetsOf ts)
            ∧ K ∈ keys d
            ∧ (∀ j M' d', tsd !! j = Some (M', d') → K ∈ keys d' → j = i)
            ∧ (∀ K' ts', (K', ts') ∈ tbk →
                 sameMembers (maskingTargetsOf ts') (maskingTargetsOf ts) →
                 K' ∈ keys d)))
  ∧ (∀ M d, (M, d) ∈ tsd →
       shouldInitiateDefer d = true ↔ ∃ T, T ∈ M ∧ T ∉ parentTargets)
  ∧ (∀ fbt, Synced tbk fbt →
       ∃ sets,
         buildGroupedFieldSets tbk fbt parentTargets = Ok sets
         ∧ (∀ K ts, (K, ts) ∈ tbk →
              (sameMembers (maskingTargetsOf ts) parentTargets →
               K ∈ JSMap.keys (groupedFieldSet sets)
               ∧ ∀ M gd, (M, gd) ∈ newGroupedFieldSetDetails sets →
                         K ∉ JSMap.keys (detailsGroupedFieldSet gd))
              ∧ (¬ sameMembers (maskingTargetsOf ts) parentTargets →
                 (K ∉ JSMap.keys (groupedFieldSet sets))
                 ∧ ∃ i M gd,
                     newGroupedFieldSetDetails sets !! i = Some (M, gd)
                     ∧ sameMembers M (maskingTargetsOf ts)
                     ∧ K ∈ JSMap.keys (detailsGroupedFieldSet gd)
                     ∧ (∀ j M' gd',
                          newGroupedFieldSetDetails sets !! j
                          = Some (M', gd') →
                          K ∈ JSMap.keys (detailsGroupedFieldSet gd') →
                          j = i)
                     ∧ (∀ K' ts', (K', ts') ∈ tbk →
                          sameMembers (maskingTargetsOf ts')
                            (maskingTargetsOf ts) →
                          K' ∈ JSMap.keys (detailsGroupedFieldSet gd))))
         ∧ (∀ M gd, (M, gd) ∈ newGroupedFieldSetDetails sets →
              detailsShouldInitiateDefer gd = true
              ↔ ∃ T, T ∈ M ∧ T ∉ parentTargets)).
Proof.
  intros Hnd ptk tsd. subst ptk tsd.
  pose proof (getTargetSetDetails_inv tbk parentTargets) as Hinv.
  split_and!.
  - intros K ts Hin. by apply partition_level.
  - apply (inv_entry_flag _ _ _ _ Hinv).
  - intros fbt Hsync.
    destruct (buildGroupedFieldSets_correct tbk fbt parentTargets Hsync)
      as (sets & Hsets & Hbase & _ & HF).
    destruct (Forall2_GroupOf_elem _ _ _ _ HF) as [Hgd Hd].
    exists sets. split_and!; [done| |].
    + intros K ts Hin.
      destruct (partition_level tbk parentTargets K ts Hnd Hin)
        as [Hsame Hdiff].
      split.
      * intros Hs. destruct (Hsame Hs) as [Hp Hno].
        split; [by apply Hbase|].
        intros M gd [i Hi]%list_elem_of_lookup HK.
        destruct (Hgd i M gd Hi) as (d & Hdi & _ & _ & Hkeys & _).
        apply (Hno M d); [by eapply list_elem_of_lookup_2|by apply Hkeys].
      * intros Hn.
        destruct (Hdiff Hn) as (Hp & i & M & d & Hi & Hs & HK & Huniq & Hshare).
        split; [by rewrite Hbase|].
        destruct (Hd i M d Hi) as (gd & Hgi & _ & _ & Hkeys & _).
        exists i, M, gd. split_and!; [done|done|by apply Hkeys| |].
        -- intros j M' gd' Hj HK'.
           destruct (Hgd j M' gd' Hj) as (d' & Hdj & _ & _ & Hkeys' & _).
           apply (Huniq j M' d' Hdj). by apply Hkeys'.
        -- intros K' ts' Hin' Hs'. apply Hkeys. by eapply Hshare.
    + intros M gd [i Hi]%list_elem_of_lookup.
      destruct (Hgd i M gd Hi) as (d & Hdi & _ & Hflag & _).
      simpl in Hflag. rewrite Hflag.
      apply (inv_entry_flag _ _ _ _ Hinv).
      by eapply list_elem_of_lookup_2.
Qed.

Lemma partition_by_masking_set_witness :
  "b" ∈ (getTargetSetDetails scenarioTargetsByKey NON_DEFERRED_TARGET_SET).1
  ∧ ∃ sets,
      buildGroupedFieldSets scenarioTargetsByKey scenarioFieldsByTarget
        NON_DEFERRED_TARGET_SET = Ok sets
      ∧ "b" ∈ JSMap.keys (groupedFieldSet sets).
Proof.
  assert (Hnd : NoDup (JSMap.keys scenarioTargetsByKey)).
  { apply (bool_decide_unpack _). by vm_compute. }
  destruct (partition_by_masking_set scenarioTargetsByKey
              NON_DEFERRED_TARGET_SET Hnd) as (Hkeys & _ & Hbuild).
  assert (Hb : ("b", [None; Some scenarioUsage]) ∈ scenarioTargetsByKey).
  { right. left. }
  assert (Hs : sameMembers (maskingTargetsOf [None; Some scenarioUsage])
                 NON_DEFERRED_TARGET_SET).
  { apply isSameSet_true. by vm_compute. }
  split.
  - by apply (Hkeys "b" [None; Some scenarioUsage] Hb).
  - destruct (Hbuild scenarioFieldsByTarget) as (sets & Hsets & Hplaced & _).
    + exact scenario_synced.
    + exists sets. split; [done|].
      by apply (Hplaced "b" [None; Some scenarioUsage] Hb).
Defined.

Lemma forOf_no_TypeError {A S} (Q : S → Prop) (body : S → A → Outcome S) :
  (∀ s x, Q s → body s x ≠ TypeError) →
  (∀ s x s', Q s → body s x = Ok s' → Q s') →
  ∀ xs s, Q s → forOf body xs s ≠ TypeError.
Proof.
  intros Hno Hkeep xs. induction xs as [|x xs IH]; intros s HQ; [done|].
  rewrite forOf_cons. destruct (body s x) as [s'| | |] eqn:E; simpl; try done.
  - apply IH. by eapply Hkeep.
  - by apply Hno in E.
Qed.

Lemma collectSubfields_no_TypeError
    (gdv : GraphQLDirective → Selection → gmap string JSValue →
           option (gmap string JSValue))
    (fuel oid0 : nat) (schema : GraphQLSchema)
    (fragments : gmap string FragmentDefinition)
    (vars : gmap string JSValue) (operation : OperationDefinition)
    (returnType : GraphQLType) (fieldGroup : FieldGroup) :
  collectSubfields gdv fuel oid0 schema fragments vars operation returnType
    fieldGroup ≠ TypeError.
Proof.
  unfold collectSubfields.
  match goal with |- context [forOf ?b ?xs ?s] =>
    destruct (forOf b xs s) as [c'| | |] eqn:E end; simpl; try done.
  - assert (Hsync : Synced (targetsByKey c') (fieldsByTarget c')).
    { revert E.
      apply (forOf_preserves
               (λ c, Synced (targetsByKey c) (fieldsByTarget c)));
        [|apply Synced_new].
      intros c x c1 Hc. destruct (fieldSelectionSet (node x)).
      - by apply collectFieldsImpl_synced.
      - by intros [= <-]. }
    destruct (buildGroupedFieldSets_correct _ _ (targets fieldGroup) Hsync)
      as (sets & -> & _). done.
  - exfalso. revert E.
    apply (forOf_no_TypeError (λ _ : Context, True)); [|done|done].
    intros c x _. destruct (fieldSelectionSet (node x)); [|done].
    apply collectFieldsImpl_no_TypeError.
Qed.

(** * Further properties of the collector *)

Section collector_targets.

Variable gdv :
  GraphQLDirective → Selection → gmap string JSValue →
  option (gmap string JSValue).
Variable schema : GraphQLSchema.
Variable fragments : gmap string FragmentDefinition.
Variable vars : gmap string JSValue.
Variable runtimeType : GraphQLType.
Variable operation : OperationDefinition.

Abbreviation collect' :=
  (collectFieldsImpl gdv schema fragments vars runtimeType operation).
Abbreviation step' :=
  (collectSelection gdv schema fragments vars runtimeType operation).
Abbreviation deferOf' := (getDeferValues gdv operation vars).

(** An invariant that may mention the targets in force: the parent target
    is the same in all the recursive calls, the new target changes when a
    deferred fragment is entered and is back when it is left. *)
Lemma collectFieldsImpl_invariant
    (Q : Target → option DeferUsage → Context → Prop) :
  (∀ node P N c, Q P N c → Q P N (recordField node P N c)) →
  (∀ F P N c, Q P N c → Q P N (markVisited F c)) →
  (∀ node d P N c,
     deferOf' node = Ok (Some d) → Q P N c →
     Q P (Some (pushDeferUsage d P c).1) (pushDeferUsage d P c).2) →
  (∀ node fuel sels d P N c c',
     deferOf' node = Ok (Some d) → Q P N c →
     collect' fuel sels P (Some (pushDeferUsage d P c).1)
       (pushDeferUsage d P c).2 = Ok c' →
     Q P (Some (pushDeferUsage d P c).1) c' → Q P N c') →
  ∀ fuel sels P N c c', Q P N c → collect' fuel sels P N c = Ok c' → Q P N c'.
Proof.
  intros Hfield Hmark Henter Hleave fuel.
  induction fuel as [|fuel IH]; intros sels P N c c' HQ; [done|].
  rewrite collectFieldsImpl_S. revert c HQ.
  induction sels as [|s sels IHs]; intros c HQ.
  { rewrite forOf_nil. by intros [= <-]. }
  rewrite forOf_cons. intros (c1 & Hs & Hrest)%bind_Ok.
  apply (IHs c1); [|done]. clear IHs Hrest. revert Hs.
  unfold collectSelection. destruct s as [node|cond dirs sub|F dirs].
  - destruct (negb _); intros [= <-]; [done|by apply Hfield].
  - destruct (_ || _); [by intros [= <-]|].
    intros (d & Hd & Hrun)%bind_Ok. destruct d as [d|].
    + pose proof (Henter _ d P N c Hd HQ) as Hin.
      rewrite (surjective_pairing (pushDeferUsage d P c)) in Hrun.
      apply (Hleave _ fuel sub d P N c c1 Hd HQ Hrun). by eapply IH.
    + by eapply IH.
  - destruct (negb _); [by intros [= <-]|].
    intros (d & Hd & Hrun)%bind_Ok. revert Hrun.
    destruct (_ && _); [by intros [= <-]|].
    destruct (fragments !! F) as [frag|]; [|by intros [= <-]].
    destruct (negb _); [by intros [= <-]|]. intros Hrun.
    destruct d as [d|].
    + pose proof (Henter _ d P N c Hd HQ) as Hin.
      rewrite (surjective_pairing (pushDeferUsage d P c)) in Hrun.
      apply (Hleave _ fuel _ d P N c c1 Hd HQ Hrun). by eapply IH.
    + eapply IH; [|done]. by apply Hmark.
Qed.

Lemma usages_prefix fuel sels P N c c' :
  collect' fuel sels P N c = Ok c' →
  newDeferUsages c `prefix_of` newDeferUsages c'.
Proof.
  intros Hrun.
  apply (collectFieldsImpl_preserves gdv schema fragments vars runtimeType
           operation (λ c0, newDeferUsages c `prefix_of` newDeferUsages c0))
    with fuel sels P N c; try done.
  intros d P' c0 Hp. unfold pushDeferUsage. simpl.
  by apply prefix_app_r.
Qed.

End collector_targets.

Lemma nodesOf_recordField (node : FieldNode) (P : Target)
    (N : option DeferUsage) (c : Context) (T : Target) (K : string) :
  nodesOf (fieldsByTarget (recordField node P N c)) T K =
  if decide (T = effectiveTarget P N ∧ K = getFieldEntryKey node)
  then Some (default [] (nodesOf (fieldsByTarget c) T K) ++ [node])
  else nodesOf (fieldsByTarget c) T K.
Proof.
  unfold recordField, nodesOf. simpl. fold (effectiveTarget P N).
  rewrite JSMapFacts.get_set.
  destruct (decide (effectiveTarget P N = T)) as [<-|Hne]; simpl.
  - rewrite AccumulatorMap_get_add.
    destruct (decide (getFieldEntryKey node = K)) as [<-|Hk].
    + rewrite decide_True by done.
      by destruct (JSMap.get (effectiveTarget P N) (fieldsByTarget c)).
    + rewrite decide_False by (intros [_ ->]; done).
      by destruct (JSMap.get (effectiveTarget P N) (fieldsByTarget c)).
  - rewrite decide_False; [done|]. intros [-> _]. done.
Qed.

Lemma keyTargetsOf_recordField (node : FieldNode) (P : Target)
    (N : option DeferUsage) (c : Context) (K : string) :
  keyTargetsOf (targetsByKey (recordField node P N c)) K =
  if decide (K = getFieldEntryKey node)
  then JSSet.add (effectiveTarget P N) (keyTargetsOf (targetsByKey c) K)
  else keyTargetsOf (targetsByKey c) K.
Proof.
  unfold recordField, keyTargetsOf. simpl. fold (effectiveTarget P N).
  rewrite JSMapFacts.get_set.
  destruct (decide (getFieldEntryKey node = K)) as [<-|Hk].
  - rewrite decide_True by done. simpl.
    by destruct (JSMap.get (getFieldEntryKey node) (targetsByKey c)).
  - rewrite decide_False; [done|]. by intros ->.
Qed.

Lemma appendNodes_snoc {A} (old : option (list A)) (x : A) (l : list A) :
  appendNodes (Some (default [] old ++ [x])) l = appendNodes old (x :: l).
Proof.
  destruct l as [|y l]; simpl; [done|]. by rewrite <- app_assoc.
Qed.

(** X1 (merge by key): the fields of a selection set that are included
    are appended, in the order they are met, to the list kept for their
    response key under the target in force; a key none of them has keeps
    its list and its targets, and nothing is recorded under any other
    target. *)
Theorem fields_merge_by_key
    (gdv : GraphQLDirective → Selection → gmap string JSValue →
           option (gmap string JSValue))
    (schema : GraphQLSchema) (fragments : gmap string FragmentDefinition)
    (vars : gmap string JSValue) (runtimeType : GraphQLType)
    (operation : OperationDefinition) (fuel : nat) (nodes : list FieldNode)
    (P : Target) (N : option DeferUsage) (c : Context) :
  ∃ c',
    collectFieldsImpl gdv schema fragments vars runtimeType operation
      (S fuel) (Field <$> nodes) P N c = Ok c'
    ∧ newDeferUsages c' = newDeferUsages c
    ∧ visitedFragmentNames c' = visitedFragmentNames c
    ∧ (∀ T K,
         nodesOf (fieldsByTarget c') T K =
         if decide (T = effectiveTarget P N)
         then appendNodes (nodesOf (fieldsByTarget c) T K)
                (includedWithKey (shouldIncludeNode gdv vars) K nodes)
         else nodesOf (fieldsByTarget c) T K)
    ∧ (∀ K,
         keyTargetsOf (targetsByKey c') K =
         match includedWithKey (shouldIncludeNode gdv vars) K nodes with
         | [] => keyTargetsOf (targetsByKey c) K
         | _ :: _ =>
             JSSet.add (effectiveTarget P N)
               (keyTargetsOf (targetsByKey c) K)
         end).
Proof.
  revert c. induction nodes as [|node rest IH]; intros c.
  { exists c. split_and!; try done. intros T K. by destruct (decide _). }
  rewrite fmap_cons, collectFieldsImpl_cons. unfold collectSelection at 1.
  unfold includedWithKey in *.
  destruct (shouldIncludeNode gdv vars (Field node)) eqn:Hinc; simpl.
  - destruct (IH (recordField node P N c))
      as (c' & Hrun & Hu & Hv & Hnodes & Htargets).
    exists c'. split_and!; [done|by rewrite Hu|by rewrite Hv| |].
    + intros T K. rewrite Hnodes, nodesOf_recordField.
      destruct (decide (T = effectiveTarget P N)) as [->|HT];
        [|by rewrite decide_False by (intros [? _]; done)].
      destruct (decide (K = getFieldEntryKey node)) as [->|HK].
      * rewrite filter_cons_True by done. rewrite decide_True by done.
        apply appendNodes_snoc.
      * rewrite filter_cons_False by (intros [_ ?]; done).
        rewrite decide_False by (intros [_ ?]; done). done.
    + intros K. rewrite Htargets, keyTargetsOf_recordField.
      destruct (decide (K = getFieldEntryKey node)) as [->|HK].
      * rewrite filter_cons_True by done.
        destruct (filter _ rest); [done|].
        unfold JSSet.add at 1.
        by rewrite (proj2 (JSSetFacts.has_true _ _))
          by (apply JSSetFacts.elem_of_add; by left).
      * rewrite filter_cons_False by (intros [_ ?]; done). done.
  - destruct (IH c) as (c' & Hrun & Hu & Hv & Hnodes & Htargets).
    exists c'. split_and!; [done|done|done| |].
    + intros T K. rewrite Hnodes.
      rewrite filter_cons_False by (intros [? _]; congruence). done.
    + intros K. rewrite Htargets.
      rewrite filter_cons_False by (intros [? _]; congruence). done.
Qed.

Lemma created_usages
    (gdv : GraphQLDirective → Selection → gmap string JSValue →
           option (gmap string JSValue))
    (schema : GraphQLSchema) (fragments : gmap string FragmentDefinition)
    (vars : gmap string JSValue) (runtimeType : GraphQLType)
    (operation : OperationDefinition) (fuel : nat) (sels : list Selection)
    (P : Target) (N : option DeferUsage) (c c' : Context) :
  collectFieldsImpl gdv schema fragments vars runtimeType operation fuel sels
    P N c = Ok c' →
  ∃ created,
    newDeferUsages c' = newDeferUsages c ++ created
    ∧ nextOid c' = nextOid c + length created
    ∧ oid <$> created = seq (nextOid c) (length created)
    ∧ Forall (λ d, ancestors d = ancestorsFor P) created.
Proof.
  intros Hrun.
  refine (collectFieldsImpl_invariant gdv schema fragments vars runtimeType
           operation
           (λ P' _ c0, ∃ created,
              newDeferUsages c0 = newDeferUsages c ++ created
              ∧ nextOid c0 = nextOid c + length created
              ∧ oid <$> created = seq (nextOid c) (length created)
              ∧ Forall (λ d, ancestors d = ancestorsFor P') created)
           _ _ _ _ fuel sels P N c c' _ Hrun); try done.
  - intros _ d P' _ c0 _ (created & Hu & Hn & Ho & Ha).
    unfold pushDeferUsage. simpl.
    exists (created ++ [mkDeferUsage (nextOid c0) (deferLabel d)
                          (ancestorsFor P')]).
    rewrite length_app, fmap_app, seq_app, Hu, Hn, Ho. simpl.
    split_and!; [by rewrite app_assoc|lia|done|].
    apply Forall_app. split; [done|]. by apply Forall_singleton.
  - exists []. rewrite app_nil_r. simpl. split_and!; [done|lia|done|done].
Qed.

(** X2: the defer usages that a collection creates are appended to
    [newDeferUsages] and are pairwise distinct objects; each has for
    ancestors the chain of the parent target of the call, however deeply
    the deferred fragments that created them are nested one in another. *)
Theorem new_defer_usages
    (gdv : GraphQLDirective → Selection → gmap string JSValue →
           option (gmap string JSValue))
    (schema : GraphQLSchema) (fragments : gmap string FragmentDefinition)
    (vars : gmap string JSValue) (runtimeType : GraphQLType)
    (operation : OperationDefinition) (fuel : nat) (sels : list Selection)
    (P : Target) (N : option DeferUsage) (c c' : Context) :
  collectFieldsImpl gdv schema fragments vars runtimeType operation fuel sels
    P N c = Ok c' →
  ∃ created,
    newDeferUsages c' = newDeferUsages c ++ created
    ∧ NoDup created
    ∧ Forall (λ d, ancestors d = ancestorsFor P) created
    ∧ Forall (λ d, nextOid c ≤ oid d < nextOid c') created.
Proof.
  intros Hrun.
  destruct (created_usages _ _ _ _ _ _ _ _ _ _ _ _ Hrun)
    as (created & Hu & Hn & Ho & Ha).
  exists created. split_and!; [done| |done|].
  - apply (NoDup_fmap_1 oid). rewrite Ho. apply NoDup_seq.
  - apply Forall_forall. intros d Hd.
    assert (Hin : oid d ∈ seq (nextOid c) (length created)).
    { rewrite <- Ho. by apply list_elem_of_fmap_2. }
    apply elem_of_seq in Hin. lia.
Qed.

Lemma new_defer_usages_witness :
  ∃ created,
    [mkDeferUsage 0 None [None]; mkDeferUsage 1 None [None]]
    = [] ++ created
    ∧ NoDup created
    ∧ Forall (λ d, ancestors d = ancestorsFor None) created
    ∧ Forall (λ d, 0 ≤ oid d < 2) created.
Proof.
  apply (new_defer_usages getDirectiveValues smallSchema ∅ ∅ queryType
           (mkOperationDefinition QUERY []) 3
           [InlineFragment None [deferDirective]
              [plainField "a";
               InlineFragment None [deferDirective] [plainField "b"]]]
           None None (newContext 0)
           (mkContext
              [(Some (mkDeferUsage 0 None [None]),
                [("a", [mkFieldNode None "a" [] None])]);
               (Some (mkDeferUsage 1 None [None]),
                [("b", [mkFieldNode None "b" [] None])])]
              [("a", [Some (mkDeferUsage 0 None [None])]);
               ("b", [Some (mkDeferUsage 1 None [None])])]
              [mkDeferUsage 0 None [None]; mkDeferUsage 1 None [None]]
              ∅ 2)).
  by vm_compute.
Defined.

Lemma recorded_targets
    (gdv : GraphQLDirective → Selection → gmap string JSValue →
           option (gmap string JSValue))
    (schema : GraphQLSchema) (fragments : gmap string FragmentDefinition)
    (vars : gmap string JSValue) (runtimeType : GraphQLType)
    (operation : OperationDefinition) (fuel : nat) (sels : list Selection)
    (P : Target) (c c' : Context) (Old : Target → Prop) :
  (∀ K ts T, JSMap.get K (targetsByKey c) = Some ts → T ∈ ts → Old T) →
  collectFieldsImpl gdv schema fragments vars runtimeType operation fuel sels
    P None c = Ok c' →
  ∃ created,
    newDeferUsages c' = newDeferUsages c ++ created
    ∧ Forall (λ d, ancestors d = ancestorsFor P) created
    ∧ ∀ K ts T, JSMap.get K (targetsByKey c') = Some ts → T ∈ ts →
        Old T ∨ T = P ∨ ∃ d, T = Some d ∧ d ∈ created.
Proof.
  intros Hts Hrun.
  enough (HQ : ∃ created,
            newDeferUsages c' = newDeferUsages c ++ created
            ∧ Forall (λ d, ancestors d = ancestorsFor P) created
            ∧ (∀ d, None = Some d → d ∈ created)
            ∧ ∀ K ts T, JSMap.get K (targetsByKey c') = Some ts → T ∈ ts →
                Old T ∨ T = P ∨ ∃ d, T = Some d ∧ d ∈ created).
  { destruct HQ as (created & Hu & Ha & _ & Hts'). by exists created. }
  refine (collectFieldsImpl_invariant gdv schema fragments vars runtimeType
           operation
           (λ P' N' c0, ∃ created,
              newDeferUsages c0 = newDeferUsages c ++ created
              ∧ Forall (λ d, ancestors d = ancestorsFor P') created
              ∧ (∀ d, N' = Some d → d ∈ created)
              ∧ ∀ K ts T, JSMap.get K (targetsByKey c0) = Some ts → T ∈ ts →
                  Old T ∨ T = P' ∨ ∃ d, T = Some d ∧ d ∈ created)
           _ _ _ _ fuel sels P None c c' _ Hrun).
  - intros node P' N' c0 (created & Hu & Ha & HN' & Hts').
    exists created. split_and!; try done.
    intros K ts T. unfold recordField. simpl.
    rewrite JSMapFacts.get_set.
    destruct (decide (getFieldEntryKey node = K)) as [_|_]; [|apply Hts'].
    intros [= <-] [->|HT]%JSSetFacts.elem_of_add.
    + destruct N' as [d|]; [|by right; left]. right. right. exists d.
      split; [done|]. by apply HN'.
    + destruct (JSMap.get (getFieldEntryKey node) (targetsByKey c0))
        as [kt|] eqn:E; [by eapply Hts'|by apply elem_of_nil in HT].
  - intros F P' N' c0 (created & Hu & Ha & HN' & Hts'). by exists created.
  - intros _ d P' N' c0 _ (created & Hu & Ha & HN' & Hts').
    unfold pushDeferUsage. simpl.
    exists (created ++ [mkDeferUsage (nextOid c0) (deferLabel d)
                          (ancestorsFor P')]).
    split_and!.
    + by rewrite Hu, app_assoc.
    + apply Forall_app. split; [done|]. by apply Forall_singleton.
    + intros d' [= <-]. apply elem_of_app. right. left.
    + intros K ts T Hget HT.
      destruct (Hts' K ts T Hget HT) as [HO|[->|(d' & -> & Hd')]];
        [by left|by right; left|].
      right. right. exists d'. split; [done|]. apply elem_of_app. by left.
  - intros _ fuel' sels' d P' N' c0 c1 _ (created0 & Hu0 & _ & HN' & _)
      Hinner (created1 & Hu1 & Ha1 & _ & Hts1).
    exists created1. split_and!; try done.
    intros d' Hd'. apply usages_prefix in Hinner. revert Hinner.
    unfold pushDeferUsage. simpl. rewrite Hu0, Hu1, <- app_assoc.
    intros Hp%prefix_app_inv. eapply elem_of_prefix; [|done].
    apply elem_of_app. left. by apply HN'.
  - exists []. rewrite app_nil_r. split_and!; try done.
    intros K ts T Hget HT. left. by eapply Hts.
Qed.

Lemma collectFields_Ok
    (gdv : GraphQLDirective → Selection → gmap string JSValue →
           option (gmap string JSValue))
    (fuel : nat) (schema : GraphQLSchema)
    (fragments : gmap string FragmentDefinition)
    (vars : gmap string JSValue) (runtimeType : GraphQLType)
    (operation : OperationDefinition) (r : CollectFieldsResult) :
  collectFields gdv fuel schema fragments vars runtimeType operation = Ok r →
  ∃ c sets,
    collectFieldsImpl gdv schema fragments vars runtimeType operation fuel
      (operationSelectionSet operation) None None (newContext 0) = Ok c
    ∧ buildGroupedFieldSets (targetsByKey c) (fieldsByTarget c)
        NON_DEFERRED_TARGET_SET = Ok sets
    ∧ Synced (targetsByKey c) (fieldsByTarget c)
    ∧ r = {| resultGroupedFieldSet := groupedFieldSet sets;
             resultNewGroupedFieldSetDetails := newGroupedFieldSetDetails sets;
             resultNewDeferUsages := newDeferUsages c |}.
Proof.
  unfold collectFields.
  intros (c & Hrun & (sets & Hsets & [= <-])%bind_Ok)%bind_Ok.
  exists c, sets. split_and!; try done.
  by apply (collectFieldsImpl_synced _ _ _ _ _ _ _ _ _ _ (newContext 0) c
              Synced_new Hrun).
Qed.

Lemma elem_of_NON_DEFERRED_TARGET_SET (T : Target) :
  T ∈ NON_DEFERRED_TARGET_SET ↔ T = None.
Proof.
  unfold NON_DEFERRED_TARGET_SET.
  by rewrite JSSetFacts.elem_of_of_list, list_elem_of_singleton.
Qed.

(** The masking set of a key whose targets are the base target or defer
    usages that the base target masks. *)
Lemma masking_under_base (ts : list Target) :
  ts ≠ [] →
  (∀ T, T ∈ ts → T = None ∨ ∃ d, T = Some d ∧ ancestors d = [None]) →
  sameMembers (maskingTargetsOf ts) NON_DEFERRED_TARGET_SET
  ∨ (((None : Target) ∉ ts) ∧ sameMembers (maskingTargetsOf ts) ts).
Proof.
  intros Hne Hts.
  destruct (decide ((None : Target) ∈ ts)) as [Hin|Hout].
  - left. intros T. rewrite elem_of_maskingTargetsOf.
    rewrite elem_of_NON_DEFERRED_TARGET_SET. split.
    + intros [HT Hanc].
      destruct (Hts T HT) as [->|(d & -> & Hd)]; [done|].
      exfalso. apply (Hanc None); [|done]. simpl. rewrite Hd. left.
    + intros ->. split; [done|]. simpl. by intros a Ha%elem_of_nil.
  - right. split; [done|]. intros T. rewrite elem_of_maskingTargetsOf.
    split; [by intros [? _]|]. intros HT. split; [done|].
    intros a Ha Hin.
    destruct (Hts T HT) as [->|(d & -> & Hd)].
    + by apply elem_of_nil in Ha.
    + simpl in Ha. rewrite Hd in Ha. apply list_elem_of_singleton in Ha.
      by subst a.
Qed.

(** X3: what [collectFields] returns for the root selection set: every
    entry of [newGroupedFieldSetDetails] has a masking set that is not
    empty and holds defer usages only (never the base target), each one
    listed in [newDeferUsages] with the base target for only ancestor, and
    its [shouldInitiateDefer] is true. *)
Theorem deferred_groups_at_root
    (gdv : GraphQLDirective → Selection → gmap string JSValue →
           option (gmap string JSValue))
    (fuel : nat) (schema : GraphQLSchema)
    (fragments : gmap string FragmentDefinition)
    (vars : gmap string JSValue) (runtimeType : GraphQLType)
    (operation : OperationDefinition) (r : CollectFieldsResult)
    (M : list Target) (details : GroupedFieldSetDetails) :
  collectFields gdv fuel schema fragments vars runtimeType operation = Ok r →
  (M, details) ∈ resultNewGroupedFieldSetDetails r →
  M ≠ []
  ∧ detailsShouldInitiateDefer details = true
  ∧ ∀ T, T ∈ M →
      ∃ d, T = Some d ∧ d ∈ resultNewDeferUsages r ∧ ancestors d = [None].
Proof.
  intros (c & sets & Hrun & Hsets & Hsync & ->)%collectFields_Ok. simpl.
  intros (i & Hi)%list_elem_of_lookup.
  destruct (recorded_targets _ _ _ _ _ _ _ _ _ _ _ (λ _, False)
              (λ _ _ _ (H : JSMap.get _ (targetsByKey (newContext 0)) = Some _)
                 _, ltac:(done)) Hrun)
    as (created & Hu & Ha & Hts).
  simpl in Hu. rewrite <- Hu in *. clear created Hu.
  destruct (buildGroupedFieldSets_correct _ _ NON_DEFERRED_TARGET_SET Hsync)
    as (sets' & Hsets' & _ & _ & HF).
  rewrite Hsets in Hsets'. injection Hsets' as <-.
  destruct (proj1 (Forall2_GroupOf_elem _ _ _ _ HF) i M details Hi)
    as (d & Hd & _ & Hflag & _).
  simpl in Hflag.
  pose proof (getTargetSetDetails_inv (targetsByKey c)
                NON_DEFERRED_TARGET_SET) as Hinv.
  apply list_elem_of_lookup_2 in Hd.
  destruct (inv_entry_shape _ _ _ _ Hinv M d Hd)
    as (_ & _ & Hnot & K & ts & HK & ->).
  assert (Hget : JSMap.get K (targetsByKey c) = Some ts).
  { apply JSMapFacts.elem_of_get; [apply Hsync|done]. }
  destruct (synced_targets _ _ Hsync K ts Hget) as [_ Hne].
  assert (Hshape : ∀ T, T ∈ ts →
            T = None ∨ ∃ d, T = Some d ∧ ancestors d = [None]).
  { intros T HT. destruct (Hts K ts T Hget HT) as [[]|[->|(d' & -> & Hd')]];
      [by left|]. right. exists d'. split; [done|].
    by apply (proj1 (Forall_forall _ _) Ha). }
  destruct (masking_under_base ts Hne Hshape) as [Hsame|[Hnone Hsame]];
    [done|].
  assert (Hmem : ∀ T, T ∈ maskingTargetsOf ts →
            ∃ d, T = Some d ∧ d ∈ newDeferUsages c ∧ ancestors d = [None]).
  { intros T HT%Hsame.
    destruct (Hts K ts T Hget HT) as [[]|[->|(d' & -> & Hd')]]; [done|].
    exists d'. split_and!; [done|done|].
    by apply (proj1 (Forall_forall _ _) Ha). }
  split_and!; [by apply maskingTargetsOf_not_nil| |done].
  rewrite Hflag. apply (inv_entry_flag _ _ _ _ Hinv _ _ Hd).
  destruct (maskingTargetsOf ts) as [|T M'] eqn:EM.
  { by apply maskingTargetsOf_not_nil in EM. }
  exists T. split; [left|].
  destruct (Hmem T) as (d' & -> & _); [left|].
  by rewrite elem_of_NON_DEFERRED_TARGET_SET.
Qed.

Lemma deferred_groups_at_root_witness :
  ∃ r M details,
    collectFields getDirectiveValues 2 smallSchema ∅ ∅ queryType
      (mkOperationDefinition QUERY scenarioSelectionSet) = Ok r
    ∧ (M, details) ∈ resultNewGroupedFieldSetDetails r
    ∧ M ≠ []
    ∧ detailsShouldInitiateDefer details = true
    ∧ ∀ T, T ∈ M →
        ∃ d, T = Some d ∧ d ∈ resultNewDeferUsages r ∧ ancestors d = [None].
Proof.
  eexists _, _, _. split; [vm_compute; reflexivity|]. split; [left|].
  apply (deferred_groups_at_root getDirectiveValues 2 smallSchema ∅ ∅
           queryType (mkOperationDefinition QUERY scenarioSelectionSet)).
  - vm_compute. reflexivity.
  - left.
Defined.

Lemma forOf_preserves_elem {A S} (Q : S → Prop) (body : S → A → Outcome S)
    (xs : list A) :
  (∀ s x s', x ∈ xs → Q s → body s x = Ok s' → Q s') →
  ∀ s s', Q s → forOf body xs s = Ok s' → Q s'.
Proof.
  induction xs as [|x xs IH]; intros Hbody s s' HQ.
  - rewrite forOf_nil. by intros [= <-].
  - rewrite forOf_cons. intros (s1 & H1 & H2)%bind_Ok.
    eapply IH; [| |done].
    + intros s0 y s0' Hy. apply Hbody. by right.
    + eapply Hbody; [left|done|done].
Qed.

Lemma collectSubfields_Ok
    (gdv : GraphQLDirective → Selection → gmap string JSValue →
           option (gmap string JSValue))
    (fuel oid0 : nat) (schema : GraphQLSchema)
    (fragments : gmap string FragmentDefinition)
    (vars : gmap string JSValue) (operation : OperationDefinition)
    (returnType : GraphQLType) (fieldGroup : FieldGroup)
    (r : CollectFieldsResult) :
  collectSubfields gdv fuel oid0 schema fragments vars operation returnType
    fieldGroup = Ok r →
  ∃ c sets,
    forOf (λ context fieldDetails,
             match fieldSelectionSet (node fieldDetails) with
             | Some selectionSet =>
                 collectFieldsImpl gdv schema fragments vars returnType
                   operation fuel selectionSet (target fieldDetails) None
                   context
             | None => Ok context
             end) (fields fieldGroup) (newContext oid0) = Ok c
    ∧ buildGroupedFieldSets (targetsByKey c) (fieldsByTarget c)
        (targets fieldGroup) = Ok sets
    ∧ Synced (targetsByKey c) (fieldsByTarget c)
    ∧ r = {| resultGroupedFieldSet := groupedFieldSet sets;
             resultNewGroupedFieldSetDetails := newGroupedFieldSetDetails sets;
             resultNewDeferUsages := newDeferUsages c |}.
Proof.
  unfold collectSubfields.
  intros (c & Hrun & (sets & Hsets & [= <-])%bind_Ok)%bind_Ok.
  exists c, sets. split_and!; try done.
  revert Hrun.
  apply (forOf_preserves
           (λ c, Synced (targetsByKey c) (fieldsByTarget c)));
    [|apply Synced_new].
  intros c0 x c1 Hc. destruct (fieldSelectionSet (node x)).
  - by apply collectFieldsImpl_synced.
  - by intros [= <-].
Qed.

(** The targets of the field details of the groups that the builder
    returns are targets recorded for the key of the group. *)
Lemma built_group_targets (tbk : list (string * list Target))
    (fbt : FieldsByTarget) (parentTargets : list Target)
    (sets : GroupedFieldSets) (K : string) (g : FieldGroup)
    (fieldDetails : FieldDetails) :
  Synced tbk fbt →
  buildGroupedFieldSets tbk fbt parentTargets = Ok sets →
  (K, g) ∈ groupedFieldSet sets
           ++ flat_map (λ entry, detailsGroupedFieldSet entry.2)
                (newGroupedFieldSetDetails sets) →
  fieldDetails ∈ fields g →
  ∃ ts, JSMap.get K tbk = Some ts ∧ target fieldDetails ∈ ts.
Proof.
  intros Hsync Hsets Hg Hfd.
  destruct (buildGroupedFieldSets_correct _ _ parentTargets Hsync)
    as (sets' & Hsets' & _ & Hbase & HF).
  rewrite Hsets in Hsets'. injection Hsets' as <-.
  assert (Hfields : fields g = flat_map (detailsOf fbt K)
                                 (keyTargetsOf tbk K)).
  { apply elem_of_app in Hg as [Hg|Hg]; [by apply Hbase|].
    apply list_elem_of_In, in_flat_map in Hg as ([M gd] & HM & Hg).
    apply list_elem_of_In, list_elem_of_lookup in HM as [i Hi].
    apply list_elem_of_In in Hg.
    destruct (proj1 (Forall2_GroupOf_elem _ _ _ _ HF) i M gd Hi)
      as (d & _ & _ & _ & _ & Hcontent).
    by apply Hcontent. }
  rewrite Hfields in Hfd.
  apply list_elem_of_In, in_flat_map in Hfd as (T & HT & Hfd).
  apply list_elem_of_In in HT. unfold detailsOf in Hfd.
  apply in_map_iff in Hfd as (nd & <- & _). simpl.
  unfold keyTargetsOf in HT.
  destruct (JSMap.get K tbk) as [ts|]; [by exists ts|].
  by apply elem_of_nil in HT.
Qed.

(** X4: the field details that [collectSubfields] returns, in the base
    grouped field set and in the deferred entries alike, carry for target
    either the target of one of the field details it was given, or a defer
    usage listed in [newDeferUsages]; the ancestors of every new defer
    usage are the target of one of the given field details followed by the
    ancestors of that target. *)
Theorem collectSubfields_targets
    (gdv : GraphQLDirective → Selection → gmap string JSValue →
           option (gmap string JSValue))
    (fuel oid0 : nat) (schema : GraphQLSchema)
    (fragments : gmap string FragmentDefinition)
    (vars : gmap string JSValue) (operation : OperationDefinition)
    (returnType : GraphQLType) (fieldGroup : FieldGroup)
    (r : CollectFieldsResult) :
  collectSubfields gdv fuel oid0 schema fragments vars operation returnType
    fieldGroup = Ok r →
  (∀ d, d ∈ resultNewDeferUsages r →
     ∃ given, given ∈ fields fieldGroup
              ∧ ancestors d = ancestorsFor (target given))
  ∧ ∀ K g fieldDetails,
      (K, g) ∈ groupsOf r → fieldDetails ∈ fields g →
      (∃ given, given ∈ fields fieldGroup
                ∧ target fieldDetails = target given)
      ∨ ∃ d, target fieldDetails = Some d ∧ d ∈ resultNewDeferUsages r.
Proof.
  intros (c & sets & Hrun & Hsets & Hsync & ->)%collectSubfields_Ok.
  unfold groupsOf. simpl.
  assert (HQ :
    (∀ d, d ∈ newDeferUsages c →
       ∃ given, given ∈ fields fieldGroup
                ∧ ancestors d = ancestorsFor (target given))
    ∧ ∀ K ts T, JSMap.get K (targetsByKey c) = Some ts → T ∈ ts →
        (∃ given, given ∈ fields fieldGroup ∧ T = target given)
        ∨ ∃ d, T = Some d ∧ d ∈ newDeferUsages c).
  { revert Hrun.
    apply (forOf_preserves_elem
             (λ c,
                (∀ d, d ∈ newDeferUsages c →
                   ∃ given, given ∈ fields fieldGroup
                            ∧ ancestors d = ancestorsFor (target given))
                ∧ ∀ K ts T, JSMap.get K (targetsByKey c) = Some ts →
                    T ∈ ts →
                    (∃ given, given ∈ fields fieldGroup ∧ T = target given)
                    ∨ ∃ d, T = Some d ∧ d ∈ newDeferUsages c));
      [|split; [by intros d Hd%elem_of_nil|done]].
    intros c0 x c1 Hx [Hanc Hts].
    destruct (fieldSelectionSet (node x)) as [sels|];
      [|by intros [= <-]].
    intros Hstep.
    destruct (recorded_targets _ _ _ _ _ _ _ _ _ _ _ _ Hts Hstep)
      as (created & Hu & Ha & Hts1).
    rewrite Hu. split.
    - intros d [Hd|Hd]%elem_of_app; [by apply Hanc|].
      exists x. split; [done|].
      by apply (proj1 (Forall_forall _ _) Ha).
    - intros K ts T Hget HT.
      destruct (Hts1 K ts T Hget HT)
        as [[Hold|(d & -> & Hd)]|[->|(d & -> & Hd)]].
      + by left.
      + right. exists d. split; [done|]. apply elem_of_app. by left.
      + left. by exists x.
      + right. exists d. split; [done|]. apply elem_of_app. by right. }
  destruct HQ as [Hanc Hts]. split; [done|].
  intros K g fd Hg Hfd.
  destruct (built_group_targets _ _ _ _ _ _ _ Hsync Hsets Hg Hfd)
    as (ts & Hget & HT).
  by eapply Hts.
Qed.

Lemma collectSubfields_targets_witness :
  ∃ r,
    collectSubfields getDirectiveValues 2 0 smallSchema ∅ ∅
      (mkOperationDefinition QUERY []) queryType
      (mkFieldGroup
         [mkFieldDetails
            (mkFieldNode None "hero" []
               (Some [plainField "x";
                      InlineFragment None [deferDirective]
                        [plainField "y"]]))
            None]
         NON_DEFERRED_TARGET_SET) = Ok r
    ∧ (∀ d, d ∈ resultNewDeferUsages r →
         ∃ given,
           given ∈ [mkFieldDetails
                      (mkFieldNode None "hero" []
                         (Some [plainField "x";
                                InlineFragment None [deferDirective]
                                  [plainField "y"]]))
                      None]
           ∧ ancestors d = ancestorsFor (target given))
    ∧ ∀ K g fieldDetails,
        (K, g) ∈ groupsOf r → fieldDetails ∈ fields g →
        (∃ given,
           given ∈ [mkFieldDetails
                      (mkFieldNode None "hero" []
                         (Some [plainField "x";
                                InlineFragment None [deferDirective]
                                  [plainField "y"]]))
                      None]
           ∧ target fieldDetails = target given)
        ∨ ∃ d, target fieldDetails = Some d ∧ d ∈ resultNewDeferUsages r.
Proof.
  eexists. split; [vm_compute; reflexivity|].
  apply (collectSubfields_targets getDirectiveValues 2 0 smallSchema ∅ ∅
           (mkOperationDefinition QUERY []) queryType
           (mkFieldGroup
              [mkFieldDetails
                 (mkFieldNode None "hero" []
                    (Some [plainField "x";
                           InlineFragment None [deferDirective]
                             [plainField "y"]]))
                 None]
              NON_DEFERRED_TARGET_SET)).
  vm_compute. reflexivity.
Defined.

Lemma no_new_usages
    (gdv : GraphQLDirective → Selection → gmap string JSValue →
           option (gmap string JSValue))
    (schema : GraphQLSchema) (fragments : gmap string FragmentDefinition)
    (vars : gmap string JSValue) (runtimeType : GraphQLType)
    (operation : OperationDefinition) (fuel : nat) (sels : list Selection)
    (P : Target) (N : option DeferUsage) (c c' : Context) :
  (∀ node d, getDeferValues gdv operation vars node ≠ Ok (Some d)) →
  collectFieldsImpl gdv schema fragments vars runtimeType operation fuel sels
    P N c = Ok c' →
  newDeferUsages c' = newDeferUsages c.
Proof.
  intros Hno Hrun.
  refine (collectFieldsImpl_invariant gdv schema fragments vars runtimeType
           operation (λ _ _ c0, newDeferUsages c0 = newDeferUsages c)
           _ _ _ _ fuel sels P N c c' _ Hrun); try done.
  intros node d P' N' c0 Hd. by apply Hno in Hd.
Qed.

(** What [collectFields] returns when no selection gives defer values. *)
Lemma no_defer_result
    (gdv : GraphQLDirective → Selection → gmap string JSValue →
           option (gmap string JSValue))
    (fuel : nat) (schema : GraphQLSchema)
    (fragments : gmap string FragmentDefinition)
    (vars : gmap string JSValue) (runtimeType : GraphQLType)
    (operation : OperationDefinition) (r : CollectFieldsResult) :
  (∀ node d, getDeferValues gdv operation vars node ≠ Ok (Some d)) →
  collectFields gdv fuel schema fragments vars runtimeType operation = Ok r →
  resultNewDeferUsages r = []
  ∧ resultNewGroupedFieldSetDetails r = []
  ∧ ∀ K g, (K, g) ∈ resultGroupedFieldSet r →
      targets g = NON_DEFERRED_TARGET_SET
      ∧ ∀ fieldDetails, fieldDetails ∈ fields g → target fieldDetails = None.
Proof.
  intros Hno (c & sets & Hrun & Hsets & Hsync & ->)%collectFields_Ok. simpl.
  pose proof (no_new_usages _ _ _ _ _ _ _ _ _ _ _ _ Hno Hrun) as Hnew.
  simpl in Hnew.
  destruct (recorded_targets _ _ _ _ _ _ _ _ _ _ _ (λ _, False)
              (λ _ _ _ (H : JSMap.get _ (targetsByKey (newContext 0)) = Some _)
                 _, ltac:(done)) Hrun)
    as (created & Hu & _ & Hts).
  simpl in Hu. rewrite Hnew in Hu. subst created.
  assert (Hbase : ∀ K ts T,
            JSMap.get K (targetsByKey c) = Some ts → T ∈ ts → T = None).
  { intros K ts T Hget HT.
    destruct (Hts K ts T Hget HT) as [[]|[->|(d & _ & Hd)]]; [done|].
    by apply elem_of_nil in Hd. }
  destruct (buildGroupedFieldSets_correct _ _ NON_DEFERRED_TARGET_SET Hsync)
    as (sets' & Hsets' & _ & Hcontent & HF).
  rewrite Hsets in Hsets'. injection Hsets' as <-.
  split_and!; [done| |].
  - pose proof (getTargetSetDetails_inv (targetsByKey c)
                  NON_DEFERRED_TARGET_SET) as Hinv.
    destruct ((getTargetSetDetails (targetsByKey c)
                 NON_DEFERRED_TARGET_SET).2) as [|[M d] tsd] eqn:Etsd.
    { by apply Forall2_nil_inv_l in HF. }
    exfalso.
    destruct (inv_entry_shape _ _ _ _ Hinv M d)
      as (_ & _ & Hnot & K & ts & HK & ->).
    { left. }
    assert (Hget : JSMap.get K (targetsByKey c) = Some ts).
    { apply JSMapFacts.elem_of_get; [apply Hsync|done]. }
    destruct (synced_targets _ _ Hsync K ts Hget) as [_ Hne].
    destruct (masking_under_base ts Hne) as [Hsame|[Hnone _]]; [|done|].
    + intros T HT. left. by eapply Hbase.
    + destruct ts as [|T ts']; [done|]. apply Hnone.
      rewrite <- (Hbase K (T :: ts') T Hget); left.
  - intros K g Hg. split; [by apply (Hcontent K g Hg)|].
    intros fd Hfd.
    destruct (built_group_targets _ _ _ _ K g fd Hsync Hsets)
      as (ts & Hget & HT).
    + apply elem_of_app. by left.
    + done.
    + by eapply Hbase.
Qed.

(** X5: a subscription never gets deferred work: when [collectFields]
    returns on a subscription operation, it returns no new defer usage and
    no deferred entry, all the fields being in the base grouped field set
    under the base target. *)
Theorem subscription_not_deferred
    (gdv : GraphQLDirective → Selection → gmap string JSValue →
           option (gmap string JSValue))
    (fuel : nat) (schema : GraphQLSchema)
    (fragments : gmap string FragmentDefinition)
    (vars : gmap string JSValue) (runtimeType : GraphQLType)
    (operation : OperationDefinition) (r : CollectFieldsResult) :
  operationType operation = SUBSCRIPTION →
  collectFields gdv fuel schema fragments vars runtimeType operation = Ok r →
  resultNewDeferUsages r = []
  ∧ resultNewGroupedFieldSetDetails r = []
  ∧ ∀ K g, (K, g) ∈ resultGroupedFieldSet r →
      targets g = NON_DEFERRED_TARGET_SET
      ∧ ∀ fieldDetails, fieldDetails ∈ fields g → target fieldDetails = None.
Proof.
  intros Hsub. apply no_defer_result. intros node d.
  unfold getDeferValues. destruct (gdv _ _ _) as [defer|]; [|done].
  destruct (decide _); [done|]. by destruct (decide _).
Qed.

Lemma subscription_not_deferred_witness :
  ∃ r,
    collectFields getDirectiveValues 2 smallSchema ∅ ∅ queryType
      (mkOperationDefinition SUBSCRIPTION
         [plainField "a";
          InlineFragment None [] [plainField "b"; plainField "a"]]) = Ok r
    ∧ resultNewDeferUsages r = []
    ∧ resultNewGroupedFieldSetDetails r = []
    ∧ ∀ K g, (K, g) ∈ resultGroupedFieldSet r →
        targets g = NON_DEFERRED_TARGET_SET
        ∧ ∀ fieldDetails, fieldDetails ∈ fields g →
            target fieldDetails = None.
Proof.
  eexists. split; [vm_compute; reflexivity|].
  apply (subscription_not_deferred getDirectiveValues 2 smallSchema ∅ ∅
           queryType
           (mkOperationDefinition SUBSCRIPTION
              [plainField "a";
               InlineFragment None [] [plainField "b"; plainField "a"]])).
  - reflexivity.
  - vm_compute. reflexivity.
Defined.



(** ** The order of the keys of a group *)

Lemma orderedGroup_keys (keys : list string) (M : list Target)
    (tbk : list (string * list Target)) (ks : list string) :
  ∀ gfs fbt gfs' fbt',
    forOf (orderedGroupStep keys M tbk) ks (gfs, fbt) = Ok (gfs', fbt') →
    NoDup ks → (∀ K, K ∈ ks → K ∉ JSMap.keys gfs) →
    JSMap.keys gfs' = JSMap.keys gfs ++ filter (λ K, K ∈ keys) ks.
Proof.
  induction ks as [|K ks IH]; intros gfs fbt gfs' fbt'.
  { rewrite forOf_nil. intros [= <- <-] _ _. by rewrite app_nil_r. }
  rewrite forOf_cons. intros ([gfs1 fbt1] & Hstep & Hrest)%bind_Ok.
  intros [HK Hnd]%NoDup_cons Hfresh.
  destruct (decide (K ∈ keys)) as [Hin|Hout].
  - destruct (orderedGroupStep_take _ _ _ _ _ _ _ Hin Hstep)
      as (kt & gf & fbt2 & _ & _ & [= -> ->]).
    rewrite (IH _ _ _ _ Hrest Hnd).
    + rewrite JSMapFacts.keys_set, decide_False, filter_cons_True by
        (done || apply Hfresh; left).
      by rewrite <- app_assoc.
    + intros K' HK'. rewrite JSMapFacts.elem_of_keys_set.
      intros [->|Hold]; [done|]. revert Hold. apply Hfresh. by right.
  - rewrite orderedGroupStep_skip in Hstep by done.
    injection Hstep as <- <-.
    rewrite filter_cons_False by done.
    apply (IH _ _ _ _ Hrest Hnd).
    intros K' HK'. apply Hfresh. by right.
Qed.

(** X7: the keys of a grouped field set come in the order in which the
    first target of the masking set met them: they are the keys of the map
    of that target, in its insertion order, restricted to the keys asked
    for. *)
Theorem group_key_order (keys : list string) (M : list Target)
    (tbk : list (string * list Target)) (fbt fbt' : FieldsByTarget)
    (gfs : list (string * FieldGroup)) :
  innerKeysNoDup fbt →
  getOrderedGroupedFieldSet keys M tbk fbt = Ok (gfs, fbt') →
  ∃ firstFields,
    JSMap.get (firstTargetOf M) fbt = Some firstFields
    ∧ JSMap.keys gfs = filter (λ K, K ∈ keys) (JSMap.keys firstFields).
Proof.
  intros Hinner. unfold getOrderedGroupedFieldSet. fold (firstTargetOf M).
  destruct (JSMap.get (firstTargetOf M) fbt) as [firstFields|] eqn:E; [|done].
  intros Hrun. exists firstFields. split; [done|].
  apply orderedGroup_keys in Hrun; [done|by eapply Hinner|].
  by intros K _ ?%elem_of_nil.
Qed.

Lemma group_key_order_witness :
  ∃ gfs fbt' firstFields,
    getOrderedGroupedFieldSet ["c"; "b"; "a"] NON_DEFERRED_TARGET_SET
      scenarioTargetsByKey scenarioFieldsByTarget = Ok (gfs, fbt')
    ∧ JSMap.get (firstTargetOf NON_DEFERRED_TARGET_SET)
        scenarioFieldsByTarget = Some firstFields
    ∧ JSMap.keys gfs
      = filter (λ K, K ∈ ["c"; "b"; "a"]) (JSMap.keys firstFields).
Proof.
  eexists _, _. 
  destruct (group_key_order ["c"; "b"; "a"] NON_DEFERRED_TARGET_SET
              scenarioTargetsByKey scenarioFieldsByTarget _ _
              (synced_inner _ _ scenario_synced)
              ltac:(vm_compute; reflexivity)) as (firstFields & Hf & Hk).
  exists firstFields. split; [vm_compute; reflexivity|]. by split.
Defined.

(** ** Return of the collector *)

Lemma forOf_never {A S} (bad : Outcome S) (Q : S → Prop)
    (body : S → A → Outcome S) (xs : list A) :
  (∀ s, bad ≠ Ok s) →
  (∀ s x, x ∈ xs → Q s → body s x ≠ bad) →
  (∀ s x s', x ∈ xs → Q s → body s x = Ok s' → Q s') →
  ∀ s, Q s → forOf body xs s ≠ bad.
Proof.
  intros Hbad. induction xs as [|x xs IH]; intros Hno Hkeep s HQ.
  { rewrite forOf_nil. intros E. by apply (Hbad s). }
  rewrite forOf_cons.
  pose proof (Hno s x (list_elem_of_here _ _) HQ) as Hx.
  destruct (body s x) as [s'|msg| |] eqn:E; simpl; try done.
  apply IH.
  - intros s0 y Hy. apply Hno. by right.
  - intros s0 y s0' Hy. apply Hkeep. by right.
  - eapply Hkeep; [left|done|done].
Qed.

Lemma selectionDepth_le (s : Selection) (sels : list Selection) :
  s ∈ sels → selectionDepth s ≤ selectionSetDepth sels.
Proof.
  unfold selectionSetDepth. induction 1 as [s sels|s s' sels _ IH]; simpl; lia.
Qed.

Lemma spreadsIn_elem (s : Selection) (sels : list Selection) (G : string) :
  s ∈ sels → G ∈ spreadsIn s → G ∈ flat_map spreadsIn sels.
Proof.
  intros Hs HG. apply list_elem_of_In, in_flat_map. exists s.
  by rewrite <- !list_elem_of_In.
Qed.

Section collector_returns.

Variable gdv :
  GraphQLDirective → Selection → gmap string JSValue →
  option (gmap string JSValue).
Variable schema : GraphQLSchema.
Variable fragments : gmap string FragmentDefinition.
Variable vars : gmap string JSValue.
Variable runtimeType : GraphQLType.
Variable operation : OperationDefinition.

Abbreviation collect'' :=
  (collectFieldsImpl gdv schema fragments vars runtimeType operation).
Abbreviation step'' :=
  (collectSelection gdv schema fragments vars runtimeType operation).
Abbreviation deferOf'' := (getDeferValues gdv operation vars).

Lemma getDeferValues_not_OutOfFuel node : deferOf'' node ≠ OutOfFuel.
Proof.
  unfold getDeferValues. destruct (gdv _ _ _) as [defer|]; [|done].
  destruct (decide _); [done|]. by destruct (decide _).
Qed.

(** The invariant check of [getDeferValues] is the only one. *)
Lemma collectFieldsImpl_no_InvariantViolation fuel sels P N c msg :
  (∀ node, deferOf'' node ≠ InvariantViolation msg) →
  collect'' fuel sels P N c ≠ InvariantViolation msg.
Proof.
  intros Hdefer. revert sels P N c.
  induction fuel as [|fuel IH]; intros sels P N c; [done|].
  rewrite collectFieldsImpl_S.
  apply (forOf_never _ (λ _, True)); try done.
  intros c0 s _ _. unfold collectSelection.
  destruct s as [node|cond dirs sub|F dirs].
  - by destruct (negb _).
  - destruct (_ || _); [done|].
    pose proof (Hdefer (InlineFragment cond dirs sub)) as Hd.
    destruct (deferOf'' _) as [[d|]| | |]; simpl;
      try done; try (by intros [= ->]); try apply IH.
    all: try (destruct (pushDeferUsage d P c0); apply IH).
  - destruct (negb _); [done|].
    pose proof (Hdefer (FragmentSpread F dirs)) as Hd.
    destruct (deferOf'' _) as [d| | |]; simpl;
      try done; try (by intros [= ->]).
    destruct (_ && _); [done|].
    destruct (fragments !! F) as [frag|]; [|done].
    destruct (negb _); [done|].
    destruct d as [d|]; [|apply IH].
    destruct (pushDeferUsage d P c0). apply IH.
Qed.

Lemma getDeferValues_no_InvariantViolation node msg :
  operationType operation ≠ SUBSCRIPTION →
  deferOf'' node ≠ InvariantViolation msg.
Proof.
  intros Hop. unfold getDeferValues.
  destruct (gdv _ _ _) as [defer|]; [|done].
  destruct (decide _); [done|]. by destruct (decide _).
Qed.

(** Fuel for a table of fragments without cycle: the rank of a fragment
    bounds the chain of spreads that starts from it. *)
Lemma enough_fuel_ranked (rank : string → nat) (D : nat) :
  RankedFragments fragments rank →
  (∀ F frag, fragments !! F = Some frag →
     selectionSetDepth (fragmentSelectionSet frag) ≤ D) →
  ∀ fuel r sels P N c,
    (∀ G, G ∈ flat_map spreadsIn sels → is_Some (fragments !! G) →
       rank G < r) →
    selectionSetDepth sels + 1 + r * (D + 1) ≤ fuel →
    collect'' fuel sels P N c ≠ OutOfFuel.
Proof.
  intros Hrank Hdepth fuel.
  induction fuel as [|fuel IH]; intros r sels P N c Hspreads Hfuel; [lia|].
  rewrite collectFieldsImpl_S.
  apply (forOf_never _ (λ _, True)); try done.
  intros c0 s Hs _. unfold collectSelection.
  pose proof (selectionDepth_le s sels Hs) as Hle.
  destruct s as [node|cond dirs sub|F dirs].
  - by destruct (negb _).
  - destruct (_ || _); [done|].
    assert (Hsub : ∀ P' N' c', collect'' fuel sub P' N' c' ≠ OutOfFuel).
    { intros P' N' c'. apply (IH r).
      - intros G HG. apply Hspreads. by eapply spreadsIn_elem.
      - simpl in Hle. fold (selectionSetDepth sub) in Hle. lia. }
    pose proof (getDeferValues_not_OutOfFuel
                  (InlineFragment cond dirs sub)) as Hd.
    destruct (deferOf'' _) as [[d|]| | |]; simpl; try done.
    all: try (destruct (pushDeferUsage d P c0); apply Hsub).
  - destruct (negb _); [done|].
    pose proof (getDeferValues_not_OutOfFuel (FragmentSpread F dirs)) as Hd.
    destruct (deferOf'' _) as [d| | |]; simpl; try done.
    destruct (_ && _); [done|].
    destruct (fragments !! F) as [frag|] eqn:EF; [|done].
    destruct (negb _); [done|].
    assert (HF : rank F < r).
    { apply Hspreads; [|by rewrite EF]. eapply spreadsIn_elem; [done|].
      simpl. left. }
    assert (Hbody : ∀ P' N' c',
              collect'' fuel (fragmentSelectionSet frag) P' N' c'
              ≠ OutOfFuel).
    { intros P' N' c'. apply (IH (rank F)).
      - intros G HG HG'. by eapply Hrank.
      - pose proof (Hdepth F frag EF). nia. }
    destruct d as [d|]; [|apply Hbody].
    destruct (pushDeferUsage d P c0). apply Hbody.
Qed.



End collector_returns.

(** [collectFields] returns when the collection neither fails the
    invariant nor runs out of depth. *)
Lemma collectFields_returns_if
    (gdv : GraphQLDirective → Selection → gmap string JSValue →
           option (gmap string JSValue))
    (fuel : nat) (schema : GraphQLSchema)
    (fragments : gmap string FragmentDefinition)
    (vars : gmap string JSValue) (runtimeType : GraphQLType)
    (operation : OperationDefinition) :
  (∀ node msg,
     getDeferValues gdv operation vars node ≠ InvariantViolation msg) →
  collectFieldsImpl gdv schema fragments vars runtimeType operation fuel
    (operationSelectionSet operation) None None (newContext 0) ≠ OutOfFuel →
  ∃ r,
    collectFields gdv fuel schema fragments vars runtimeType operation = Ok r.
Proof.
  intros Hdefer Hfuel. unfold collectFields.
  destruct (collectFieldsImpl _ _ _ _ _ _ _ _ _ _ _) as [c'|msg| |] eqn:E;
    simpl; [| | |done].
  - pose proof (collectFieldsImpl_synced _ _ _ _ _ _ _ _ _ _
                  (newContext 0) c' Synced_new E) as Hsync.
    destruct (buildGroupedFieldSets_correct _ _ NON_DEFERRED_TARGET_SET
                Hsync) as (sets & -> & _). by eexists.
  - exfalso. revert E. apply collectFieldsImpl_no_InvariantViolation.
    intros node. apply Hdefer.
  - by apply collectFieldsImpl_no_TypeError in E.
Qed.

(** X8: [collectFields] returns a result for a query or a mutation over
    fragments whose spreads have no cycle: it throws neither the invariant
    violation nor a type error, and the recursion through inline fragments
    and spreads ends within a depth that the ranks of the fragments and the
    nesting of the inline fragments bound. *)
Theorem collectFields_returns
    (gdv : GraphQLDirective → Selection → gmap string JSValue →
           option (gmap string JSValue))
    (fuel : nat) (schema : GraphQLSchema)
    (fragments : gmap string FragmentDefinition)
    (vars : gmap string JSValue) (runtimeType : GraphQLType)
    (operation : OperationDefinition) (rank : string → nat) (R D : nat) :
  operationType operation ≠ SUBSCRIPTION →
  RankedFragments fragments rank →
  (∀ F frag, fragments !! F = Some frag →
     rank F < R ∧ selectionSetDepth (fragmentSelectionSet frag) ≤ D) →
  selectionSetDepth (operationSelectionSet operation) + 1 + R * (D + 1)
  ≤ fuel →
  ∃ r,
    collectFields gdv fuel schema fragments vars runtimeType operation = Ok r.
Proof.
  intros Hop Hrank Hbound Hfuel. apply collectFields_returns_if.
  - intros node msg. by apply getDeferValues_no_InvariantViolation.
  - apply (enough_fuel_ranked _ _ _ _ _ _ rank D) with R.
    + done.
    + intros F frag HF. by destruct (Hbound F frag HF).
    + intros G _ [frag HG]. by destruct (Hbound G frag HG).
    + done.
Qed.

Lemma collectFields_returns_witness :
  ∃ r,
    collectFields getDirectiveValues 3 smallSchema fragmentsF ∅ queryType
      (mkOperationDefinition QUERY spreadThenDeferred) = Ok r.
Proof.
  apply (collectFields_returns getDirectiveValues 3 smallSchema fragmentsF ∅
           queryType (mkOperationDefinition QUERY spreadThenDeferred)
           (λ _, 0) 1 0).
  - discriminate.
  - intros F frag G HF HG. unfold fragmentsF in HF.
    apply lookup_singleton_Some in HF as [<- <-].
    by apply elem_of_nil in HG.
  - intros F frag HF. unfold fragmentsF in HF.
    apply lookup_singleton_Some in HF as [<- <-]. split; [lia|reflexivity].
  - vm_compute. lia.
Defined.



(** X10: a fragment whose selection set starts with a deferred spread of
    the fragment itself makes the collector recurse without end: the
    visited set stops neither a deferred spread nor what it spreads, and
    no depth of recursion is enough for a selection set that starts with
    such a spread. *)
Theorem deferred_cycle_diverges
    (gdv : GraphQLDirective → Selection → gmap string JSValue →
           option (gmap string JSValue))
    (schema : GraphQLSchema) (fragments : gmap string FragmentDefinition)
    (vars : gmap string JSValue) (runtimeType : GraphQLType)
    (operation : OperationDefinition) (F : string)
    (dirs : list DirectiveNode) (frag : FragmentDefinition)
    (rest : list Selection) (d : DeferValues) :
  fragments !! F = Some frag →
  fragmentSelectionSet frag = FragmentSpread F dirs :: rest →
  shouldIncludeNode gdv vars (FragmentSpread F dirs) = true →
  getDeferValues gdv operation vars (FragmentSpread F dirs) = Ok (Some d) →
  doesFragmentConditionMatch schema (Some (fragmentTypeCondition frag))
    runtimeType = true →
  ∀ fuel sels P N c,
    collectFieldsImpl gdv schema fragments vars runtimeType operation fuel
      (FragmentSpread F dirs :: sels) P N c = OutOfFuel.
Proof.
  intros HF Hbody Hi Hd Hm fuel.
  induction fuel as [|fuel IH]; intros sels P N c; [done|].
  rewrite collectFieldsImpl_cons.
  rewrite (spread_deferred gdv schema fragments vars runtimeType operation
             _ P N c F dirs frag d Hi Hd HF Hm).
  by rewrite Hbody, IH.
Qed.

Lemma deferred_cycle_diverges_witness :
  collectFieldsImpl getDirectiveValues smallSchema fragmentsDeferLoop ∅
    queryType (mkOperationDefinition QUERY []) 1000
    [FragmentSpread "Loop" [deferDirective]; plainField "a"] None None
    (newContext 0) = OutOfFuel.
Proof.
  apply (deferred_cycle_diverges getDirectiveValues smallSchema
           fragmentsDeferLoop ∅ queryType (mkOperationDefinition QUERY [])
           "Loop" [deferDirective]
           (mkFragmentDefinition "Loop" (mkNamedTypeNode "Query")
              [FragmentSpread "Loop" [deferDirective]])
           [] {| deferLabel := None |}); by vm_compute.
Defined.

(** X11: on a field group whose nodes have no selection set (leaf fields)
    [collectSubfields] returns the empty result: no key, no deferred
    entry, no defer usage.  The test [parentTargetKeys.size > 0] keeps the
    builder from reading the fields of the first parent target, which has
    none. *)
Theorem collectSubfields_leaves
    (gdv : GraphQLDirective → Selection → gmap string JSValue →
           option (gmap string JSValue))
    (fuel oid0 : nat) (schema : GraphQLSchema)
    (fragments : gmap string FragmentDefinition)
    (vars : gmap string JSValue) (operation : OperationDefinition)
    (returnType : GraphQLType) (fieldGroup : FieldGroup) :
  (∀ fieldDetails, fieldDetails ∈ fields fieldGroup →
     fieldSelectionSet (node fieldDetails) = None) →
  collectSubfields gdv fuel oid0 schema fragments vars operation returnType
    fieldGroup
  = Ok {| resultGroupedFieldSet := [];
          resultNewGroupedFieldSetDetails := [];
          resultNewDeferUsages := [] |}
  ∧ getOrderedGroupedFieldSet [] (targets fieldGroup) [] [] = TypeError.
Proof.
  intros Hleaf. split; [|by unfold getOrderedGroupedFieldSet].
  unfold collectSubfields.
  assert (Hloop : ∀ c,
    forOf (λ context fieldDetails,
             match fieldSelectionSet (node fieldDetails) with
             | Some selectionSet =>
                 collectFieldsImpl gdv schema fragments vars returnType
                   operation fuel selectionSet (target fieldDetails) None
                   context
             | None => Ok context
             end) (fields fieldGroup) c = Ok c).
  { induction (fields fieldGroup) as [|fd fds IH]; intros c; [done|].
    rewrite forOf_cons, (Hleaf fd) by left. simpl.
    apply IH. intros fd' Hfd'. apply Hleaf. by right. }
  by rewrite Hloop.
Qed.

Lemma collectSubfields_leaves_witness :
  collectSubfields getDirectiveValues 2 0 smallSchema ∅ ∅
    (mkOperationDefinition QUERY []) queryType
    (mkFieldGroup
       [mkFieldDetails (mkFieldNode None "a" [] None) None;
        mkFieldDetails (mkFieldNode (Some "a") "b" [] None) None]
       NON_DEFERRED_TARGET_SET)
  = Ok {| resultGroupedFieldSet := [];
          resultNewGroupedFieldSetDetails := [];
          resultNewDeferUsages := [] |}
  ∧ getOrderedGroupedFieldSet [] NON_DEFERRED_TARGET_SET [] [] = TypeError.
Proof.
  apply (collectSubfields_leaves getDirectiveValues 2 0 smallSchema ∅ ∅
           (mkOperationDefinition QUERY []) queryType
           (mkFieldGroup
              [mkFieldDetails (mkFieldNode None "a" [] None) None;
               mkFieldDetails (mkFieldNode (Some "a") "b" [] None) None]
              NON_DEFERRED_TARGET_SET)).
  intros fd Hfd. simpl in Hfd.
  repeat (apply elem_of_cons in Hfd as [->|Hfd]; [reflexivity|]).
  by apply elem_of_nil in Hfd.
Defined.

(** * UniqueOperationTypesRule *)

Lemma find_snoc {A} (f : A → bool) (l : list A) (x : A) :
  List.find f (l ++ [x]) =
  match List.find f l with
  | Some y => Some y
  | None => if f x then Some x else None
  end.
Proof.
  induction l as [|y l IH]; simpl; [done|]. by destruct (f y).
Qed.

Lemma firstDefinition_Some operation operationTypes first :
  firstDefinition operation operationTypes = Some first →
  operationTypeOperation first = operation
  ∧ ∃ before after,
      operationTypes = before ++ first :: after
      ∧ firstDefinition operation before = None.
Proof.
  unfold firstDefinition.
  induction operationTypes as [|n ns IH]; simpl; [done|].
  destruct (bool_decide (operationTypeOperation n = operation)) eqn:E.
  - intros [= ->]. apply bool_decide_eq_true in E. split; [done|].
    by exists [], ns.
  - intros (Hop & before & after & -> & Hnone)%IH. split; [done|].
    exists (n :: before), after. split; [done|]. simpl. by rewrite E.
Qed.

Lemma firstDefinition_None operation operationTypes :
  firstDefinition operation operationTypes = None ↔
  operation ∉ operationTypeOperation <$> operationTypes.
Proof.
  unfold firstDefinition.
  induction operationTypes as [|n ns IH]; csimpl.
  - split; [|done]. by intros _ ?%elem_of_nil.
  - rewrite not_elem_of_cons.
    destruct (bool_decide (operationTypeOperation n = operation)) eqn:E.
    + apply bool_decide_eq_true in E. split; [done|]. by intros [? _].
    + apply bool_decide_eq_false in E. rewrite IH. split; [|by intros [_ ?]].
      intros Hn. split; [|done]. by intros ->.
Qed.

Lemma JSMap_length_set {K V} `{EqDecision K} (k : K) (v : V)
    (m : list (K * V)) :
  JSMap.get k m = None → length (JSMap.set k v m) = S (length m).
Proof.
  intros Hnone%JSMapFacts.get_None.
  rewrite <- (length_fmap fst (JSMap.set k v m)).
  fold (JSMap.keys (JSMap.set k v m)).
  rewrite JSMapFacts.keys_set, decide_False by done.
  rewrite length_app. unfold JSMap.keys. rewrite length_fmap. simpl. lia.
Qed.

(** What holds of the state of the rule after the operation type
    definitions [seen]. *)
Lemma checkOperationType_inv (schema : option SchemaRootTypes)
    (seen : list OperationTypeDefinitionNode) :
  let state :=
    fold_left (checkOperationType schema) seen
      (mkOperationTypesState [] []) in
  (∀ operation,
     JSMap.get operation (definedOperationTypes state) =
     match existingOperationTypes schema operation with
     | Some _ => None
     | None => firstDefinition operation seen
     end)
  ∧ length (operationTypeErrors state)
    + length (definedOperationTypes state) = length seen
  ∧ (operationTypeErrors state = [] ↔
     NoDup (operationTypeOperation <$> seen)
     ∧ Forall (λ operationType,
                 existingOperationTypes schema
                   (operationTypeOperation operationType) = None) seen)
  ∧ ∀ error, error ∈ operationTypeErrors state →
      (∃ operationType,
         operationType ∈ seen
         ∧ is_Some (existingOperationTypes schema
                      (operationTypeOperation operationType))
         ∧ error = alreadyInSchemaError operationType)
      ∨ (∃ first operationType before between after,
           seen = before ++ first :: between ++ operationType :: after
           ∧ existingOperationTypes schema
               (operationTypeOperation operationType) = None
           ∧ firstDefinition (operationTypeOperation operationType) seen
             = Some first
           ∧ error = onlyOneError first operationType).
Proof.
  induction seen as [|n seen IH] using rev_ind.
  { simpl. split_and!.
    - intros operation. by destruct (existingOperationTypes _ _).
    - done.
    - split; [|done]. intros _. split; [constructor|done].
    - by intros error ?%elem_of_nil. }
  rewrite fold_left_app. simpl.
  destruct (fold_left (checkOperationType schema) seen
              (mkOperationTypesState [] [])) as [defined errors].
  simpl in IH. destruct IH as (Hget & Hcount & Hvalid & Hshape).
  assert (Hkeep : ∀ error,
    ((∃ operationType,
        operationType ∈ seen
        ∧ is_Some (existingOperationTypes schema
                     (operationTypeOperation operationType))
        ∧ error = alreadyInSchemaError operationType)
     ∨ (∃ first operationType before between after,
          seen = before ++ first :: between ++ operationType :: after
          ∧ existingOperationTypes schema
              (operationTypeOperation operationType) = None
          ∧ firstDefinition (operationTypeOperation operationType) seen
            = Some first
          ∧ error = onlyOneError first operationType)) →
    (∃ operationType,
       operationType ∈ seen ++ [n]
       ∧ is_Some (existingOperationTypes schema
                    (operationTypeOperation operationType))
       ∧ error = alreadyInSchemaError operationType)
    ∨ (∃ first operationType before between after,
         seen ++ [n] = before ++ first :: between ++ operationType :: after
         ∧ existingOperationTypes schema
             (operationTypeOperation operationType) = None
         ∧ firstDefinition (operationTypeOperation operationType)
             (seen ++ [n]) = Some first
         ∧ error = onlyOneError first operationType)).
  { intros error [(m & Hm & Hex & ->)|
                  (first & m & before & between & after & -> & Hex & Hfirst
                   & ->)].
    - left. exists m. split_and!; [|done|done]. apply elem_of_app. by left.
    - right. exists first, m, before, between, (after ++ [n]).
      split_and!; [|done| |done].
      + by rewrite <- !app_assoc, <- !app_comm_cons, <- app_assoc.
      + unfold firstDefinition in *. by rewrite find_snoc, Hfirst. }
  unfold checkOperationType. simpl.
  destruct (existingOperationTypes schema (operationTypeOperation n))
    as [existing|] eqn:Eex; simpl.
  - split_and!.
    + intros operation. rewrite Hget.
      destruct (existingOperationTypes schema operation) eqn:Eop; [done|].
      unfold firstDefinition. rewrite find_snoc.
      destruct (List.find _ seen); [done|].
      rewrite bool_decide_eq_false_2; [done|]. intros Heq. congruence.
    + rewrite !length_app. simpl. lia.
    + split; [by intros [_ [=]]%app_eq_nil|]. intros [_ Hall].
      rewrite Forall_app, Forall_singleton in Hall. destruct Hall as [_ Hn].
      congruence.
    + intros error [Hold|Hnew]%elem_of_app.
      * by apply Hkeep, Hshape.
      * apply list_elem_of_singleton in Hnew as ->. left. exists n. split_and!; [|by rewrite Eex|done].
        apply elem_of_app. right. left.
  - pose proof (Hget (operationTypeOperation n)) as Hn. rewrite Eex in Hn.
    destruct (JSMap.get (operationTypeOperation n) defined)
      as [first|] eqn:Edef; simpl.
    + symmetry in Hn.
      destruct (firstDefinition_Some _ _ _ Hn)
        as (Hop & before & after & Hsplit & _).
      split_and!.
      * intros operation. rewrite Hget.
        destruct (existingOperationTypes schema operation) eqn:Eop; [done|].
        unfold firstDefinition. rewrite find_snoc.
        fold (firstDefinition operation seen).
        destruct (firstDefinition operation seen) eqn:Ef; [done|].
        rewrite bool_decide_eq_false_2; [done|]. intros <-. congruence.
      * rewrite !length_app. simpl. lia.
      * split; [by intros [_ [=]]%app_eq_nil|]. intros [Hnd _].
        rewrite fmap_app in Hnd. apply NoDup_app in Hnd as (_ & Hnd & _).
        exfalso. apply (Hnd (operationTypeOperation n)); [|left].
        rewrite <- Hop. apply list_elem_of_fmap_2. rewrite Hsplit.
        apply elem_of_app. right. left.
      * intros error [Hold|Hnew]%elem_of_app.
        -- by apply Hkeep, Hshape.
        -- apply list_elem_of_singleton in Hnew as ->. right. exists first, n, before, after, [].
           split_and!; [|done| |done].
           ++ by rewrite Hsplit, <- app_assoc.
           ++ unfold firstDefinition in *. by rewrite find_snoc, Hn.
    + symmetry in Hn. pose proof Hn as Hfresh.
      apply firstDefinition_None in Hfresh.
      split_and!.
      * intros operation. rewrite JSMapFacts.get_set, Hget.
        unfold firstDefinition. rewrite find_snoc.
        fold (firstDefinition operation seen).
        destruct (decide (operationTypeOperation n = operation)) as [<-|Hne].
        -- by rewrite Eex, Hn, bool_decide_eq_true_2.
        -- destruct (existingOperationTypes schema operation); [done|].
           destruct (firstDefinition operation seen); [done|].
           by rewrite bool_decide_eq_false_2.
      * rewrite length_app, JSMap_length_set by done. simpl. lia.
      * rewrite Hvalid, fmap_app, NoDup_app, Forall_app, Forall_singleton.
        simpl. split.
        -- intros [Hnd Hall]. split_and!; try done.
           ++ by intros operation Hin ->%list_elem_of_singleton.
           ++ apply NoDup_singleton.
        -- by intros [(Hnd & _ & _) [Hall _]].
      * intros error Hold. by apply Hkeep, Hshape.
Qed.

Lemma UniqueOperationTypesRule_flat (schema : option SchemaRootTypes)
    (document : list (option (list OperationTypeDefinitionNode))) :
  UniqueOperationTypesRule schema document =
  fold_left (checkOperationType schema) (operationTypesOf document)
    (mkOperationTypesState [] []).
Proof.
  unfold UniqueOperationTypesRule, operationTypesOf.
  generalize (mkOperationTypesState [] []).
  induction document as [|operationTypes document IH]; intros state; [done|].
  simpl. rewrite fold_left_app. apply IH.
Qed.

(** X12: the rule reports no error exactly when no two operation type
    definitions of the document, over all its schema definitions and
    extensions, are for the same operation, and none is for an operation
    whose type the schema already has. *)
Theorem unique_operation_types_valid
    (schema : option SchemaRootTypes)
    (document : list (option (list OperationTypeDefinitionNode))) :
  operationTypeErrors (UniqueOperationTypesRule schema document) = [] ↔
  NoDup (operationTypeOperation <$> operationTypesOf document)
  ∧ Forall (λ operationType,
              existingOperationTypes schema
                (operationTypeOperation operationType) = None)
      (operationTypesOf document).
Proof.
  rewrite UniqueOperationTypesRule_flat.
  apply (checkOperationType_inv schema (operationTypesOf document)).
Qed.

(** X13: every operation type definition either is recorded or gives one
    error; for an operation that the schema has no type for, the
    definition recorded is the first one of the document, later ones never
    replacing it, and nothing is recorded for an operation that the schema
    has a type for. *)
Theorem first_operation_type_kept
    (schema : option SchemaRootTypes)
    (document : list (option (list OperationTypeDefinitionNode))) :
  let state := UniqueOperationTypesRule schema document in
  length (operationTypeErrors state) + length (definedOperationTypes state)
  = length (operationTypesOf document)
  ∧ ∀ operation,
      JSMap.get operation (definedOperationTypes state) =
      match existingOperationTypes schema operation with
      | Some _ => None
      | None => firstDefinition operation (operationTypesOf document)
      end.
Proof.
  simpl. rewrite UniqueOperationTypesRule_flat.
  destruct (checkOperationType_inv schema (operationTypesOf document))
    as (Hget & Hcount & _). by split.
Qed.

(** X14: each error of the rule is one of two: for a definition of an
    operation whose type the schema has, the message that it cannot be
    redefined, on that definition; or, for a definition that comes after
    another one of the same operation, the message that there can be only
    one, on the first definition of the operation and the later one. *)
Theorem operation_type_errors
    (schema : option SchemaRootTypes)
    (document : list (option (list OperationTypeDefinitionNode)))
    (error : GraphQLError OperationTypeDefinitionNode) :
  error ∈ operationTypeErrors (UniqueOperationTypesRule schema document) →
  (∃ operationType,
     operationType ∈ operationTypesOf document
     ∧ is_Some (existingOperationTypes schema
                  (operationTypeOperation operationType))
     ∧ error = alreadyInSchemaError operationType)
  ∨ (∃ first operationType before between after,
       operationTypesOf document
       = before ++ first :: between ++ operationType :: after
       ∧ existingOperationTypes schema
           (operationTypeOperation operationType) = None
       ∧ firstDefinition (operationTypeOperation operationType)
           (operationTypesOf document) = Some first
       ∧ error = onlyOneError first operationType).
Proof.
  rewrite UniqueOperationTypesRule_flat.
  apply (checkOperationType_inv schema (operationTypesOf document)).
Qed.

Lemma operation_type_errors_witness :
  (∃ operationType,
     operationType ∈ operationTypesOf redefiningDocument
     ∧ is_Some (existingOperationTypes schemaWithQuery
                  (operationTypeOperation operationType))
     ∧ alreadyInSchemaError
         (mkOperationTypeDefinitionNode QUERY (mkNamedTypeNode "Q"))
       = alreadyInSchemaError operationType)
  ∨ (∃ first operationType before between after,
       operationTypesOf redefiningDocument
       = before ++ first :: between ++ operationType :: after
       ∧ existingOperationTypes schemaWithQuery
           (operationTypeOperation operationType) = None
       ∧ firstDefinition (operationTypeOperation operationType)
           (operationTypesOf redefiningDocument) = Some first
       ∧ alreadyInSchemaError
           (mkOperationTypeDefinitionNode QUERY (mkNamedTypeNode "Q"))
         = onlyOneError first operationType).
Proof.
  apply (operation_type_errors schemaWithQuery redefiningDocument).
  vm_compute. left.
Defined.

(** * NoFragmentCyclesRule *)

#[local] Arguments detectCycleRecursive : simpl never.
#[local] Arguments visitSpread : simpl never.

Lemma cycleIndexOf_setIndex (k : string) (v : option nat)
    (state : CyclesState) (name : string) :
  cycleIndexOf (setIndex k v state) name =
  if decide (k = name) then v else cycleIndexOf state name.
Proof.
  unfold cycleIndexOf, setIndex. simpl.
  destruct (decide (k = name)) as [->|Hne].
  - by rewrite lookup_insert_eq.
  - by rewrite lookup_insert_ne.
Qed.

Lemma CycleFrame_refl (state : CyclesState) : CycleFrame state state.
Proof. by split. Qed.

Lemma CycleFrame_trans (s1 s2 s3 : CyclesState) :
  CycleFrame s1 s2 → CycleFrame s2 s3 → CycleFrame s1 s3.
Proof.
  intros [Hp1 Hi1 Hv1 He1] [Hp2 Hi2 Hv2 He2]. split.
  - by rewrite Hp2.
  - intros name. by rewrite Hi2.
  - by etrans.
  - by etrans.
Qed.

Lemma IndexedVisited_frame (state state' : CyclesState) :
  CycleFrame state state' → IndexedVisited state → IndexedVisited state'.
Proof.
  intros [_ Hi Hv _] Hpre name. rewrite Hi. intros Hn. by apply Hv, Hpre.
Qed.

Section cycles.

Variable getFragmentSpreads : list Selection → list FragmentSpreadNode.
Variable getFragment : string → option FragmentDefinition.

Abbreviation detect := (detectCycleRecursive getFragmentSpreads getFragment).
Abbreviation visit := (visitSpread getFragment).
Abbreviation spreadsOfName := (spreadNodesOf getFragmentSpreads getFragment).
Abbreviation Chain := (SpreadChain getFragmentSpreads getFragment).

Lemma detect_S fuel fragment state :
  detect (S fuel) fragment state =
  if bool_decide (fragmentName fragment ∈ visitedFrags state) then Ok state
  else if bool_decide
            (length (getFragmentSpreads (fragmentSelectionSet fragment)) = 0)
  then Ok (addVisited (fragmentName fragment) state)
  else
    forOf (visit (detect fuel))
      (getFragmentSpreads (fragmentSelectionSet fragment))
      (setIndex (fragmentName fragment) (Some (length (spreadPath state)))
         (addVisited (fragmentName fragment) state))
    ≫= λ state1, Ok (setIndex (fragmentName fragment) None state1).
Proof. done. Qed.

Lemma detect_cases fuel fragment state state' :
  detect (S fuel) fragment state = Ok state' →
  (fragmentName fragment ∈ visitedFrags state ∧ state' = state)
  ∨ ((fragmentName fragment ∉ visitedFrags state)
     ∧ getFragmentSpreads (fragmentSelectionSet fragment) = []
     ∧ state' = addVisited (fragmentName fragment) state)
  ∨ ((fragmentName fragment ∉ visitedFrags state)
     ∧ getFragmentSpreads (fragmentSelectionSet fragment) ≠ []
     ∧ ∃ state1,
         forOf (visit (detect fuel))
           (getFragmentSpreads (fragmentSelectionSet fragment))
           (setIndex (fragmentName fragment)
              (Some (length (spreadPath state)))
              (addVisited (fragmentName fragment) state)) = Ok state1
         ∧ state' = setIndex (fragmentName fragment) None state1).
Proof.
  rewrite detect_S.
  destruct (bool_decide (fragmentName fragment ∈ visitedFrags state)) eqn:Ev.
  { apply bool_decide_eq_true in Ev. intros [= <-]. by left. }
  apply bool_decide_eq_false in Ev.
  destruct (getFragmentSpreads (fragmentSelectionSet fragment))
    as [|s spreads] eqn:Es; simpl.
  { intros [= <-]. right. by left. }
  intros (state1 & Hloop & [= <-])%bind_Ok. right. right.
  split_and!; [done|done|]. by exists state1.
Qed.

Lemma visit_cases rec state spreadNode state' :
  visit rec state spreadNode = Ok state' →
  (∃ cycleIndex,
     cycleIndexOf state (spreadNodeName spreadNode) = Some cycleIndex
     ∧ state' = popSpread (reportCycle (spreadNodeName spreadNode) cycleIndex
                             (pushSpread spreadNode state)))
  ∨ (cycleIndexOf state (spreadNodeName spreadNode) = None
     ∧ getFragment (spreadNodeName spreadNode) = None
     ∧ state' = popSpread (pushSpread spreadNode state))
  ∨ (cycleIndexOf state (spreadNodeName spreadNode) = None
     ∧ ∃ spreadFragment state1,
         getFragment (spreadNodeName spreadNode) = Some spreadFragment
         ∧ rec spreadFragment (pushSpread spreadNode state) = Ok state1
         ∧ state' = popSpread state1).
Proof.
  unfold visitSpread.
  destruct (cycleIndexOf state (spreadNodeName spreadNode)) as [j|] eqn:Ej.
  { simpl. intros [= <-]. left. by exists j. }
  destruct (getFragment (spreadNodeName spreadNode)) as [g|] eqn:Eg.
  - intros (state1 & Hrec & [= <-])%bind_Ok. right. right.
    split; [done|]. by exists g, state1.
  - simpl. intros [= <-]. right. by left.
Qed.

Lemma CycleFrame_push_pop spreadNode state state1 :
  CycleFrame (pushSpread spreadNode state) state1 →
  CycleFrame state (popSpread state1).
Proof.
  intros [Hp Hi Hv He]. split; simpl in *.
  - by rewrite Hp, removelast_last.
  - done.
  - done.
  - done.
Qed.

Lemma visit_frame rec state spreadNode state' :
  (∀ fragment state0 state1,
     IndexedVisited state0 → rec fragment state0 = Ok state1 →
     CycleFrame state0 state1) →
  IndexedVisited state →
  visit rec state spreadNode = Ok state' →
  CycleFrame state state'.
Proof.
  intros Hrec Hpre
    [(j & Hj & ->)|[(Hj & Hg & ->)|(Hj & g & state1 & Hg & Hcall & ->)]]
      %visit_cases.
  - apply (CycleFrame_push_pop spreadNode). split; simpl; try done.
    by apply prefix_app_r.
  - apply (CycleFrame_push_pop spreadNode), CycleFrame_refl.
  - apply (CycleFrame_push_pop spreadNode). by eapply Hrec.
Qed.

Lemma loop_frame rec spreadNodes state state' :
  (∀ fragment state0 state1,
     IndexedVisited state0 → rec fragment state0 = Ok state1 →
     CycleFrame state0 state1) →
  IndexedVisited state →
  forOf (visit rec) spreadNodes state = Ok state' →
  CycleFrame state state'.
Proof.
  intros Hrec. revert state.
  induction spreadNodes as [|s spreadNodes IH]; intros state Hpre.
  { rewrite forOf_nil. intros [= <-]. apply CycleFrame_refl. }
  rewrite forOf_cons. intros (state1 & Hs & Hrest)%bind_Ok.
  pose proof (visit_frame _ _ _ _ Hrec Hpre Hs) as Hframe.
  eapply CycleFrame_trans; [done|].
  apply IH; [|done]. by eapply IndexedVisited_frame.
Qed.

(** A call leaves the path and the positions as it found them, and marks
    the fragment. *)
Lemma detect_frame fuel fragment state state' :
  IndexedVisited state →
  detect fuel fragment state = Ok state' →
  CycleFrame state state' ∧ fragmentName fragment ∈ visitedFrags state'.
Proof.
  revert fragment state state'.
  induction fuel as [|fuel IH]; intros fragment state state' Hpre; [done|].
  intros [(Hv & ->)|[(Hv & Hs & ->)|(Hv & Hs & state1 & Hloop & ->)]]
    %detect_cases.
  - split; [apply CycleFrame_refl|done].
  - split.
    + split; simpl; try done. apply union_subseteq_r.
    + simpl. apply elem_of_union. left. by apply elem_of_singleton.
  - apply loop_frame in Hloop as [Hp Hi Hvis He].
    + simpl in Hvis. split.
      * split; simpl in *; try done.
        -- intros name. rewrite cycleIndexOf_setIndex, Hi,
             cycleIndexOf_setIndex.
           destruct (decide (fragmentName fragment = name)) as [<-|]; [|done].
           destruct (cycleIndexOf state (fragmentName fragment)) eqn:E;
             [|done].
           exfalso. apply Hv, Hpre. by rewrite E.
        -- etrans; [apply union_subseteq_r|done].
      * simpl. apply Hvis, elem_of_union. left. by apply elem_of_singleton.
    + intros g state0 state2 Hpre0 Hcall. by apply (IH g state0 state2).
    + intros name. rewrite cycleIndexOf_setIndex. simpl.
      destruct (decide (fragmentName fragment = name)) as [<-|].
      * intros _. apply elem_of_union. left. by apply elem_of_singleton.
      * intros Hn%Hpre. apply elem_of_union. by right.
Qed.

Lemma forOf_returns {A S} (Q : S → Prop) (body : S → A → Outcome S)
    (xs : list A) :
  (∀ s x, x ∈ xs → Q s → ∃ s', body s x = Ok s' ∧ Q s') →
  ∀ s, Q s → ∃ s', forOf body xs s = Ok s' ∧ Q s'.
Proof.
  induction xs as [|x xs IH]; intros Hbody s HQ.
  { exists s. by rewrite forOf_nil. }
  destruct (Hbody s x) as (s1 & Hs1 & HQ1); [left|done|].
  destruct (IH (λ s0 y Hy, Hbody s0 y (list_elem_of_further _ _ _ Hy)) s1 HQ1)
    as (s' & Hs' & HQ').
  exists s'. by rewrite forOf_cons, Hs1.
Qed.

(** A call returns when the fuel exceeds the number of fragments that have
    not been visited: every call that goes past the first test visits one
    more. *)
Lemma detect_returns (names : gset string) :
  ConsistentContext getFragment →
  (∀ name, is_Some (getFragment name) → name ∈ names) →
  ∀ fuel fragment state,
    IndexedVisited state →
    fragmentName fragment ∈ names →
    size (names ∖ visitedFrags state) + 1 ≤ fuel →
    ∃ state', detect fuel fragment state = Ok state'.
Proof.
  intros Hcons Hnames fuel.
  induction fuel as [|fuel IH]; intros fragment state Hpre HF Hfuel; [lia|].
  rewrite detect_S.
  destruct (bool_decide (fragmentName fragment ∈ visitedFrags state)) eqn:Ev;
    [by eexists|].
  apply bool_decide_eq_false in Ev.
  destruct (bool_decide
              (length (getFragmentSpreads (fragmentSelectionSet fragment))
               = 0)); [by eexists|].
  set (state0 := setIndex (fragmentName fragment) _ _).
  assert (Hpre0 : IndexedVisited state0).
  { intros name. unfold state0. rewrite cycleIndexOf_setIndex. simpl.
    destruct (decide (fragmentName fragment = name)) as [<-|].
    - intros _. apply elem_of_union. left. by apply elem_of_singleton.
    - intros Hn%Hpre. apply elem_of_union. by right. }
  destruct (forOf_returns
              (λ s, IndexedVisited s
                    ∧ visitedFrags state0 ⊆ visitedFrags s)
              (visit (detect fuel))
              (getFragmentSpreads (fragmentSelectionSet fragment)))
    with state0 as (state1 & -> & _); [| |by eexists].
  - intros s spreadNode _ [Hpres Hvis].
    assert (Hstep : ∃ s', visit (detect fuel) s spreadNode = Ok s').
    { unfold visitSpread.
      destruct (cycleIndexOf s (spreadNodeName spreadNode)); [by eexists|].
      destruct (getFragment (spreadNodeName spreadNode)) as [g|] eqn:Eg;
        [|by eexists].
      destruct (IH g (pushSpread spreadNode s)) as (s1 & ->);
        [done| | |by eexists].
      - rewrite (Hcons _ _ Eg). apply Hnames. by rewrite Eg.
      - simpl.
        assert (size (names ∖ visitedFrags s)
                < size (names ∖ visitedFrags state)); [|lia].
        apply subset_size. split.
        + intros x [Hx Hn]%elem_of_difference. apply elem_of_difference.
          split; [done|]. intros Hv. apply Hn, Hvis. simpl.
          apply elem_of_union. by right.
        + intros Hsub.
          assert (Hin : fragmentName fragment ∈ names ∖ visitedFrags state)
            by by apply elem_of_difference.
          apply Hsub, elem_of_difference in Hin as [_ Hin]. apply Hin, Hvis.
          simpl. apply elem_of_union. left. by apply elem_of_singleton. }
    destruct Hstep as (s' & Hs'). exists s'. split; [done|].
    apply visit_frame in Hs' as Hframe; [| |done].
    2: { intros g s0 s1 Hp0 Hc. by destruct (detect_frame _ _ _ _ Hp0 Hc). }
    split; [by eapply IndexedVisited_frame|].
    etrans; [done|]. apply Hframe.
  - by split.
Qed.

Lemma OnPath_IndexedVisited stack state :
  OnPath stack state → IndexedVisited state.
Proof.
  intros [Hi Hv] name [i Hn]. apply Hv. apply Hi in Hn.
  by eapply list_elem_of_lookup_2.
Qed.

Lemma OnPath_frame stack state state' :
  CycleFrame state state' → OnPath stack state → OnPath stack state'.
Proof.
  intros [_ Hi Hv _] [Hpi Hpv]. split.
  - intros name i. by rewrite Hi.
  - intros name Hn. by apply Hv, Hpv.
Qed.

Lemma OnPath_push stack state spreadNode :
  OnPath stack state → OnPath stack (pushSpread spreadNode state).
Proof. by intros [Hi Hv]. Qed.

Lemma OnPath_not_on_path stack state name :
  OnPath stack state → cycleIndexOf state name = None → name ∉ stack.
Proof.
  intros [Hi _] Hnone [i Hin]%list_elem_of_lookup.
  apply Hi in Hin. congruence.
Qed.

Lemma OnPath_enter stack state name :
  OnPath stack state →
  name ∉ visitedFrags state →
  length stack = length (spreadPath state) →
  OnPath (stack ++ [name])
    (setIndex name (Some (length (spreadPath state)))
       (addVisited name state)).
Proof.
  intros [Hi Hv] Hnew Hlen.
  assert (Hout : name ∉ stack) by (intros Hin; by apply Hnew, Hv).
  split.
  - intros name' i. rewrite cycleIndexOf_setIndex.
    change (cycleIndexOf (addVisited name state) name')
      with (cycleIndexOf state name').
    destruct (decide (name = name')) as [<-|Hne].
    + rewrite <- Hlen. split.
      * intros [= <-]. by rewrite lookup_app_r, Nat.sub_diag.
      * intros Hin. destruct (decide (i < length stack)) as [Hlt|Hge].
        -- rewrite lookup_app_l in Hin by done.
           by apply list_elem_of_lookup_2 in Hin.
        -- apply lookup_lt_Some in Hin. rewrite length_app in Hin.
           simpl in Hin. f_equal. lia.
    + rewrite Hi. split.
      * intros Hin. rewrite lookup_app_l; [done|]. by eapply lookup_lt_Some.
      * intros Hin. destruct (decide (i < length stack)) as [Hlt|Hge].
        -- by rewrite lookup_app_l in Hin.
        -- rewrite lookup_app_r in Hin by lia.
           apply list_lookup_singleton_Some in Hin as [_ ?]. done.
  - intros name' [Hin|Hin%list_elem_of_singleton]%elem_of_app; simpl.
    + apply elem_of_union. right. by apply Hv.
    + apply elem_of_union. left. by apply elem_of_singleton.
Qed.

Lemma Linked_snoc names path name spreadNode :
  Linked getFragmentSpreads getFragment names path →
  names !! length path = Some name →
  spreadNode ∈ spreadsOfName name →
  Linked getFragmentSpreads getFragment
    (names ++ [spreadNodeName spreadNode]) (path ++ [spreadNode]).
Proof.
  intros [Hlen Hlink] Hlast Hs. split.
  { rewrite !length_app. simpl. lia. }
  intros i p Hp. destruct (decide (i < length path)) as [Hlt|Hge].
  - rewrite lookup_app_l in Hp by done.
    destruct (Hlink i p Hp) as (N & HN & Hin & Hnext).
    exists N. split_and!; [|done|].
    + rewrite lookup_app_l; [done|]. by eapply lookup_lt_Some.
    + rewrite lookup_app_l; [done|]. by eapply lookup_lt_Some.
  - rewrite lookup_app_r in Hp by lia.
    apply list_lookup_singleton_Some in Hp as [Hi <-].
    assert (i = length path) as -> by lia.
    exists name. split_and!; [|done|].
    + rewrite lookup_app_l; [done|]. by eapply lookup_lt_Some.
    + rewrite lookup_app_r by lia.
      replace (S (length path) - length names) with 0 by lia. done.
Qed.

(** The spreads of the path from a position on, with one more spread of
    the last fragment, are a chain. *)
Lemma linked_chain names path name spreadNode :
  Linked getFragmentSpreads getFragment names path →
  names !! length path = Some name →
  spreadNode ∈ spreadsOfName name →
  ∀ j from,
    names !! j = Some from →
    Chain from (drop j path ++ [spreadNode]) (spreadNodeName spreadNode).
Proof.
  intros [Hlen Hlink] Hlast Hs j.
  remember (length path - j) as k eqn:Hk. revert j Hk.
  induction k as [|k IH]; intros j Hk from Hfrom.
  - assert (j = length path) as ->.
    { apply lookup_lt_Some in Hfrom. lia. }
    rewrite drop_all. simpl. rewrite Hlast in Hfrom.
    injection Hfrom as <-. by constructor.
  - destruct (lookup_lt_is_Some_2 path j) as [p Hp]; [lia|].
    rewrite (drop_S _ _ _ Hp). simpl.
    destruct (Hlink j p Hp) as (N & HN & Hin & Hnext).
    rewrite Hfrom in HN. injection HN as <-.
    apply chain_cons; [done|]. apply IH; [lia|done].
Qed.

Lemma loop_sound rec names name spreadNodes :
  ConsistentContext getFragment →
  (∀ fragment state0 state1,
     IndexedVisited state0 → rec fragment state0 = Ok state1 →
     CycleFrame state0 state1) →
  (∀ fragment state0 state1 stack0,
     getFragment (fragmentName fragment) = Some fragment →
     OnPath stack0 state0 →
     Linked getFragmentSpreads getFragment
       (stack0 ++ [fragmentName fragment]) (spreadPath state0) →
     SoundErrors getFragmentSpreads getFragment (cycleErrors state0) →
     rec fragment state0 = Ok state1 →
     SoundErrors getFragmentSpreads getFragment (cycleErrors state1)) →
  (∀ spreadNode, spreadNode ∈ spreadNodes →
     spreadNode ∈ spreadsOfName name) →
  ∀ state state',
    OnPath names state →
    Linked getFragmentSpreads getFragment names (spreadPath state) →
    names !! length (spreadPath state) = Some name →
    SoundErrors getFragmentSpreads getFragment (cycleErrors state) →
    forOf (visit rec) spreadNodes state = Ok state' →
    SoundErrors getFragmentSpreads getFragment (cycleErrors state').
Proof.
  intros Hcons Hframe Hrec.
  induction spreadNodes as [|s spreadNodes IH];
    intros Hin state state' Hpath Hlink Hlast Hsound.
  { rewrite forOf_nil. by intros [= <-]. }
  rewrite forOf_cons. intros (state1 & Hs & Hrest)%bind_Ok.
  pose proof (visit_frame _ _ _ _ Hframe
                (OnPath_IndexedVisited _ _ Hpath) Hs) as Hf.
  apply (IH (λ s' Hs', Hin s' (list_elem_of_further _ _ _ Hs')) state1);
    [by eapply OnPath_frame|by rewrite (frame_path _ _ Hf)
    |by rewrite (frame_path _ _ Hf)| |done].
  clear IH Hrest Hf.
  apply visit_cases in Hs
    as [(j & Hj & ->)|[(Hj & Hg & ->)|(Hj & g & st1 & Hg & Hcall & ->)]];
    simpl.
  - intros error [Hold|Hnew]%elem_of_app; [by apply Hsound|].
    apply list_elem_of_singleton in Hnew as ->. simpl.
    exists (spreadNodeName s). split; [|done].
    apply (path_index _ _ Hpath) in Hj.
    rewrite drop_app_le.
    + eapply linked_chain; try done. apply Hin. left.
    + apply lookup_lt_Some in Hj. destruct Hlink as [Hlen _]. lia.
  - done.
  - eapply (Hrec g (pushSpread s state) st1 names); try done.
    + by rewrite (Hcons _ _ Hg).
    + by apply OnPath_push.
    + rewrite (Hcons _ _ Hg). simpl. eapply Linked_snoc; try done.
      apply Hin. left.
Qed.

(** The errors of a call are on chains of spreads that come back to where
    they start. *)
Lemma detect_sound :
  ConsistentContext getFragment →
  ∀ fuel fragment state state' stack,
    getFragment (fragmentName fragment) = Some fragment →
    OnPath stack state →
    Linked getFragmentSpreads getFragment
      (stack ++ [fragmentName fragment]) (spreadPath state) →
    SoundErrors getFragmentSpreads getFragment (cycleErrors state) →
    detect fuel fragment state = Ok state' →
    SoundErrors getFragmentSpreads getFragment (cycleErrors state').
Proof.
  intros Hcons fuel.
  induction fuel as [|fuel IH];
    intros fragment state state' stack Hdef Hpath Hlink Hsound; [done|].
  intros [(Hv & ->)|[(Hv & Hs & ->)|(Hv & Hs & state1 & Hloop & ->)]]
    %detect_cases; try done.
  simpl.
  assert (Hlen : length stack = length (spreadPath state)).
  { destruct Hlink as [Hlen _]. rewrite length_app in Hlen. simpl in Hlen.
    lia. }
  refine (loop_sound (detect fuel) (stack ++ [fragmentName fragment])
            (fragmentName fragment)
            (getFragmentSpreads (fragmentSelectionSet fragment)) Hcons
            _ _ _
            (setIndex (fragmentName fragment)
               (Some (length (spreadPath state)))
               (addVisited (fragmentName fragment) state))
            state1 _ _ _ _ Hloop).
  - intros g s0 s1 Hp0 Hc. by destruct (detect_frame _ _ _ _ Hp0 Hc).
  - exact IH.
  - intros s Hs'. unfold spreadNodesOf. by rewrite Hdef.
  - by apply OnPath_enter.
  - done.
  - simpl. rewrite <- Hlen. by rewrite lookup_app_r, Nat.sub_diag.
  - done.
Qed.

Lemma Finished_same_visited stack state state' rank bound :
  visitedFrags state' = visitedFrags state →
  Finished getFragmentSpreads getFragment stack state rank bound →
  Finished getFragmentSpreads getFragment stack state' rank bound.
Proof. unfold Finished. intros ->. done. Qed.

Lemma errors_nil_frame state state' :
  CycleFrame state state' → cycleErrors state' = [] → cycleErrors state = [].
Proof.
  intros [_ _ _ He] Hnil. rewrite Hnil in He. by apply prefix_nil_inv in He.
Qed.

(** The fragment that is left joins the finished ones, above them all. *)
Lemma Finished_leave stack state name rank bound :
  name ∉ stack →
  (∀ spreadNode,
     spreadNode ∈ spreadsOfName name →
     is_Some (getFragment (spreadNodeName spreadNode)) →
     spreadNodeName spreadNode ∈ visitedFrags state
     ∧ (spreadNodeName spreadNode ∉ stack ++ [name])) →
  Finished getFragmentSpreads getFragment (stack ++ [name]) state rank bound →
  Finished getFragmentSpreads getFragment stack state
    (λ x, if decide (x = name) then bound else rank x) (S bound).
Proof.
  intros Hout Hspreads Hfin name' Hvis Hstack.
  destruct (decide (name' = name)) as [->|Hne].
  - split; [lia|]. intros s Hs Hdef.
    destruct (Hspreads s Hs Hdef) as [Hv Hn]. split_and!; [done| |].
    + intros Hin. apply Hn, elem_of_app. by left.
    + rewrite decide_False.
      * apply (Hfin (spreadNodeName s)); [done|done].
      * intros Heq. apply Hn, elem_of_app. right. rewrite Heq. left.
  - destruct (Hfin name') as [Hrank Hsucc]; [done| |].
    { intros [?|?%list_elem_of_singleton]%elem_of_app; done. }
    split; [lia|]. intros s Hs Hdef.
    destruct (Hsucc s Hs Hdef) as (Hv & Hn & Hlt). split_and!; [done| |].
    + intros Hin. apply Hn, elem_of_app. by left.
    + rewrite decide_False; [done|].
      intros Heq. apply Hn, elem_of_app. right. rewrite Heq. left.
Qed.

Lemma loop_finished rec names spreadNodes :
  ConsistentContext getFragment →
  (∀ fragment state0 state1,
     IndexedVisited state0 → rec fragment state0 = Ok state1 →
     CycleFrame state0 state1
     ∧ fragmentName fragment ∈ visitedFrags state1) →
  (∀ fragment state0 state1 stack0,
     getFragment (fragmentName fragment) = Some fragment →
     OnPath stack0 state0 →
     fragmentName fragment ∉ stack0 →
     length stack0 = length (spreadPath state0) →
     (cycleErrors state0 = [] →
      ∃ rank bound,
        Finished getFragmentSpreads getFragment stack0 state0 rank bound) →
     rec fragment state0 = Ok state1 →
     cycleErrors state1 = [] →
     ∃ rank bound,
       Finished getFragmentSpreads getFragment stack0 state1 rank bound) →
  ∀ state state',
    OnPath names state →
    length names = S (length (spreadPath state)) →
    (cycleErrors state = [] →
     ∃ rank bound,
       Finished getFragmentSpreads getFragment names state rank bound) →
    forOf (visit rec) spreadNodes state = Ok state' →
    cycleErrors state' = [] →
    (∃ rank bound,
       Finished getFragmentSpreads getFragment names state' rank bound)
    ∧ ∀ spreadNode,
        spreadNode ∈ spreadNodes →
        is_Some (getFragment (spreadNodeName spreadNode)) →
        spreadNodeName spreadNode ∈ visitedFrags state'
        ∧ (spreadNodeName spreadNode ∉ names).
Proof.
  intros Hcons Hframe Hrec.
  assert (Hframe' : ∀ fragment state0 state1,
            IndexedVisited state0 → rec fragment state0 = Ok state1 →
            CycleFrame state0 state1).
  { intros g s0 s1 Hp Hc. by destruct (Hframe g s0 s1 Hp Hc). }
  induction spreadNodes as [|s spreadNodes IH];
    intros state state' Hpath Hlen Hfin.
  { rewrite forOf_nil. intros [= <-] Hnil. split; [by apply Hfin|].
    by intros s ?%elem_of_nil. }
  rewrite forOf_cons. intros (state1 & Hs & Hrest)%bind_Ok Hnil.
  pose proof (OnPath_IndexedVisited _ _ Hpath) as Hpre.
  pose proof (visit_frame _ _ _ _ Hframe' Hpre Hs) as Hf.
  pose proof (loop_frame _ _ _ _ Hframe'
                (IndexedVisited_frame _ _ Hf Hpre) Hrest) as Hf'.
  pose proof (errors_nil_frame _ _ Hf' Hnil) as Hnil1.
  pose proof (errors_nil_frame _ _ Hf Hnil1) as Hnil0.
  assert (Hstep :
    (∃ rank bound,
       Finished getFragmentSpreads getFragment names state1 rank bound)
    ∧ (is_Some (getFragment (spreadNodeName s)) →
       spreadNodeName s ∈ visitedFrags state1
       ∧ (spreadNodeName s ∉ names))).
  { apply visit_cases in Hs
      as [(j & Hj & ->)|[(Hj & Hg & ->)|(Hj & g & st1 & Hg & Hcall & ->)]].
    - simpl in Hnil1. by apply app_eq_nil in Hnil1 as [_ [=]].
    - split; [by apply Hfin|]. rewrite Hg. by intros [? [=]].
    - pose proof (Hcons _ _ Hg) as Hname.
      assert (Hout : spreadNodeName s ∉ names)
        by by eapply OnPath_not_on_path.
      split.
      + apply (Hrec g (pushSpread s state) st1 names) in Hcall
          as (rank & bound & Hfin1); try done.
        * exists rank, bound. by eapply Finished_same_visited.
        * by rewrite Hname.
        * by apply OnPath_push.
        * by rewrite Hname.
        * simpl. rewrite length_app. simpl. lia.
      + intros _. split; [|done].
        destruct (Hframe g (pushSpread s state) st1) as [_ Hv]; [done|done|].
        simpl. by rewrite <- Hname. }
  destruct Hstep as [Hfin1 Hs1].
  destruct (IH state1 state') as [Hfin' Hrest'];
    [by eapply OnPath_frame|by rewrite (frame_path _ _ Hf)|done|done|done|].
  split; [done|].
  intros s' [->|Hin]%elem_of_cons Hdef; [|by apply Hrest'].
  destruct (Hs1 Hdef) as [Hv Hn]. split; [|done].
  by apply (frame_visited _ _ Hf').
Qed.

(** When no error has been reported, the fragments that the search is done
    with spread only fragments it is done with, of lower rank. *)
Lemma detect_finished :
  ConsistentContext getFragment →
  ∀ fuel fragment state state' stack,
    getFragment (fragmentName fragment) = Some fragment →
    OnPath stack state →
    fragmentName fragment ∉ stack →
    length stack = length (spreadPath state) →
    (cycleErrors state = [] →
     ∃ rank bound,
       Finished getFragmentSpreads getFragment stack state rank bound) →
    detect fuel fragment state = Ok state' →
    cycleErrors state' = [] →
    ∃ rank bound,
      Finished getFragmentSpreads getFragment stack state' rank bound.
Proof.
  intros Hcons fuel.
  induction fuel as [|fuel IH];
    intros fragment state state' stack Hdef Hpath Hout Hlen Hfin; [done|].
  intros [(Hv & ->)|[(Hv & Hs & ->)|(Hv & Hs & state1 & Hloop & ->)]]
    %detect_cases Hnil.
  - by apply Hfin.
  - destruct (Hfin Hnil) as (rank & bound & Hfin0).
    exists (λ x, if decide (x = fragmentName fragment) then bound
                 else rank x), (S bound).
    apply Finished_leave; [done| |].
    + intros s. unfold spreadNodesOf. rewrite Hdef, Hs.
      by intros ?%elem_of_nil.
    + intros name Hvis Hstack. simpl in Hvis.
      assert (Hne : name ≠ fragmentName fragment).
      { intros ->. apply Hstack, elem_of_app. right. left. }
      apply elem_of_union in Hvis as [?%elem_of_singleton|Hvis]; [done|].
      destruct (Hfin0 name) as [Hrank Hsucc]; [done| |].
      { intros Hin. apply Hstack, elem_of_app. by left. }
      split; [done|]. intros s Hs' Hd.
      destruct (Hsucc s Hs' Hd) as (Hv' & Hn' & Hlt). split_and!; [|  |done].
      * apply elem_of_union. by right.
      * intros [?|Heq%list_elem_of_singleton]%elem_of_app; [done|].
        by rewrite Heq in Hv'.
  - simpl in Hnil.
    destruct (loop_finished (detect fuel) (stack ++ [fragmentName fragment])
                (getFragmentSpreads (fragmentSelectionSet fragment)) Hcons)
      with (setIndex (fragmentName fragment)
              (Some (length (spreadPath state)))
              (addVisited (fragmentName fragment) state)) state1
      as [(rank & bound & Hfin1) Hspreads]; try done.
    + intros g s0 s1 Hp0 Hc. by eapply detect_frame.
    + by apply OnPath_enter.
    + rewrite length_app. simpl. lia.
    + simpl. intros Hnil0. destruct (Hfin Hnil0) as (rank & bound & Hfin0).
      exists rank, bound. intros name Hvis Hstack. simpl in Hvis.
      assert (Hne : name ≠ fragmentName fragment).
      { intros ->. apply Hstack, elem_of_app. right. left. }
      apply elem_of_union in Hvis as [?%elem_of_singleton|Hvis]; [done|].
      destruct (Hfin0 name) as [Hrank Hsucc]; [done| |].
      { intros Hin. apply Hstack, elem_of_app. by left. }
      split; [done|]. intros s Hs' Hd.
      destruct (Hsucc s Hs' Hd) as (Hv' & Hn' & Hlt). split_and!; [| |done].
      * apply elem_of_union. by right.
      * intros [?|Heq%list_elem_of_singleton]%elem_of_app; [done|].
        by rewrite Heq in Hv'.
    + exists (λ x, if decide (x = fragmentName fragment) then bound
                   else rank x), (S bound).
      apply (Finished_same_visited _ state1); [done|].
      apply Finished_leave; [done| |done].
      intros s. unfold spreadNodesOf. rewrite Hdef. apply Hspreads.
Qed.

Abbreviation rule := (NoFragmentCyclesRule getFragmentSpreads getFragment).

Lemma rule_frame fuel definitions :
  ∀ state state',
    IndexedVisited state →
    forOf (λ state node, detect fuel node state) definitions state
    = Ok state' →
    CycleFrame state state'
    ∧ ∀ fragment, fragment ∈ definitions →
        fragmentName fragment ∈ visitedFrags state'.
Proof.
  induction definitions as [|f definitions IH]; intros state state' Hpre.
  { rewrite forOf_nil. intros [= <-]. split; [apply CycleFrame_refl|].
    by intros f ?%elem_of_nil. }
  rewrite forOf_cons. intros (state1 & Hf & Hrest)%bind_Ok.
  destruct (detect_frame _ _ _ _ Hpre Hf) as [Hframe Hvis].
  destruct (IH state1 state' (IndexedVisited_frame _ _ Hframe Hpre) Hrest)
    as [Hframe' Hvis'].
  split; [by eapply CycleFrame_trans|].
  intros g [->|Hg]%elem_of_cons; [|by apply Hvis'].
  by apply (frame_visited _ _ Hframe').
Qed.

Lemma OnPath_new : OnPath [] newCyclesState.
Proof.
  split.
  - intros name i. unfold cycleIndexOf, newCyclesState. simpl.
    by rewrite lookup_empty.
  - by intros name ?%elem_of_nil.
Qed.

Lemma rule_correct fuel definitions state :
  ConsistentContext getFragment →
  (∀ fragment, fragment ∈ definitions →
     getFragment (fragmentName fragment) = Some fragment) →
  rule fuel definitions = Ok state →
  SoundErrors getFragmentSpreads getFragment (cycleErrors state)
  ∧ (cycleErrors state = [] →
     ∃ rank bound,
       Finished getFragmentSpreads getFragment [] state rank bound).
Proof.
  intros Hcons Hdefs. unfold NoFragmentCyclesRule.
  enough (Hgen : ∀ state0,
    OnPath [] state0 ∧ spreadPath state0 = []
    ∧ SoundErrors getFragmentSpreads getFragment (cycleErrors state0)
    ∧ (cycleErrors state0 = [] →
       ∃ rank bound,
         Finished getFragmentSpreads getFragment [] state0 rank bound) →
    forOf (λ state node, detect fuel node state) definitions state0
    = Ok state →
    OnPath [] state ∧ spreadPath state = []
    ∧ SoundErrors getFragmentSpreads getFragment (cycleErrors state)
    ∧ (cycleErrors state = [] →
       ∃ rank bound,
         Finished getFragmentSpreads getFragment [] state rank bound)).
  { intros Hrun. apply Hgen in Hrun as (_ & _ & Hsound & Hfin); [done|].
    split_and!; [apply OnPath_new|done| |].
    - by intros error ?%elem_of_nil.
    - intros _. exists (λ _, 0), 0. by intros name ?%elem_of_empty. }
  intros state0 HJ.
  apply (forOf_preserves_elem
           (λ s, OnPath [] s ∧ spreadPath s = []
                 ∧ SoundErrors getFragmentSpreads getFragment (cycleErrors s)
                 ∧ (cycleErrors s = [] →
                    ∃ rank bound,
                      Finished getFragmentSpreads getFragment [] s rank
                        bound))); [|done].
  intros s f s' Hf (Hpath & Hnil & Hsound & Hfin) Hcall.
  destruct (detect_frame _ _ _ _ (OnPath_IndexedVisited _ _ Hpath) Hcall)
    as [Hframe _].
  split_and!.
  - by eapply OnPath_frame.
  - by rewrite (frame_path _ _ Hframe).
  - eapply (detect_sound Hcons fuel f s s' []); try done.
    + by apply Hdefs.
    + rewrite Hnil. split; [done|]. by intros i p [=].
  - eapply (detect_finished Hcons fuel f s s' []); try done.
    + by apply Hdefs.
    + by intros ?%elem_of_nil.
    + by rewrite Hnil.
Qed.

(** Along a chain of spreads from a finished fragment the rank falls. *)
Lemma chain_rank state rank bound from path to :
  Finished getFragmentSpreads getFragment [] state rank bound →
  Chain from path to →
  from ∈ visitedFrags state →
  is_Some (getFragment to) →
  rank to < rank from.
Proof.
  intros Hfin Hchain.
  induction Hchain as [from s Hs|from to s rest Hs Hchain IH];
    intros Hvis Hdef.
  - destruct (Hfin from) as [_ Hsucc]; [done|by intros ?%elem_of_nil|].
    by apply Hsucc.
  - assert (Hmid : is_Some (getFragment (spreadNodeName s))).
    { destruct Hchain as [mid s' Hs'|mid to s' rest Hs' _];
        unfold spreadNodesOf in Hs';
        destruct (getFragment mid); try done;
        by apply elem_of_nil in Hs'. }
    destruct (Hfin from) as [_ Hsucc]; [done|by intros ?%elem_of_nil|].
    destruct (Hsucc s Hs Hmid) as (Hv & _ & Hlt).
    specialize (IH Hv Hdef). lia.
Qed.

End cycles.

Lemma forOf_agree {A S} (body1 body2 : S → A → Outcome S) (xs : list A) :
  (∀ s x, x ∈ xs → body1 s x ≠ OutOfFuel → body2 s x = body1 s x) →
  ∀ s, forOf body1 xs s ≠ OutOfFuel → forOf body2 xs s = forOf body1 xs s.
Proof.
  induction xs as [|x xs IH]; intros Hagree s; [done|].
  rewrite !forOf_cons. intros Hrun.
  assert (Hx : body1 s x ≠ OutOfFuel).
  { intros E. by rewrite E in Hrun. }
  rewrite (Hagree s x (list_elem_of_here _ _) Hx).
  destruct (body1 s x) as [s'| | |]; simpl; try done.
  apply IH; [|done]. intros s0 y Hy. apply Hagree. by right.
Qed.

(** More depth does not change what a collection returns. *)
Lemma collectFieldsImpl_more_fuel
    (gdv : GraphQLDirective → Selection → gmap string JSValue →
           option (gmap string JSValue))
    (schema : GraphQLSchema) (fragments : gmap string FragmentDefinition)
    (vars : gmap string JSValue) (runtimeType : GraphQLType)
    (operation : OperationDefinition) (fuel fuel' : nat) :
  fuel ≤ fuel' →
  ∀ sels P N c,
    collectFieldsImpl gdv schema fragments vars runtimeType operation fuel
      sels P N c ≠ OutOfFuel →
    collectFieldsImpl gdv schema fragments vars runtimeType operation fuel'
      sels P N c
    = collectFieldsImpl gdv schema fragments vars runtimeType operation fuel
        sels P N c.
Proof.
  revert fuel'. induction fuel as [|fuel IH]; intros fuel' Hle sels P N c;
    [done|].
  destruct fuel' as [|fuel']; [lia|].
  rewrite !collectFieldsImpl_S. apply forOf_agree.
  intros c0 s _. unfold collectSelection.
  assert (Hrec : ∀ sels' P' N' c1,
    collectFieldsImpl gdv schema fragments vars runtimeType operation fuel
      sels' P' N' c1 ≠ OutOfFuel →
    collectFieldsImpl gdv schema fragments vars runtimeType operation fuel'
      sels' P' N' c1
    = collectFieldsImpl gdv schema fragments vars runtimeType operation fuel
        sels' P' N' c1).
  { intros sels' P' N' c1. apply IH. lia. }
  destruct s as [node|cond dirs sub|F dirs].
  - done.
  - destruct (_ || _); [done|].
    destruct (getDeferValues gdv operation vars _) as [[d|]| | |]; simpl;
      try done; [|apply Hrec].
    destruct (pushDeferUsage d P c0). apply Hrec.
  - destruct (negb _); [done|].
    destruct (getDeferValues gdv operation vars _) as [d| | |]; simpl;
      try done.
    destruct (_ && _); [done|].
    destruct (fragments !! F) as [frag|]; [|done].
    destruct (negb _); [done|].
    destruct d as [d|]; [|apply Hrec].
    destruct (pushDeferUsage d P c0). apply Hrec.
Qed.

Lemma spreadNodesIn_covers (selectionSet : list Selection) (name : string) :
  name ∈ flat_map spreadsIn selectionSet →
  ∃ spreadNode,
    spreadNode ∈ spreadNodesIn selectionSet
    ∧ spreadNodeName spreadNode = name.
Proof.
  intros Hin. exists (mkFragmentSpreadNode name []). split; [|done].
  unfold spreadNodesIn.
  by apply (list_elem_of_fmap_2 (λ name, mkFragmentSpreadNode name [])).
Qed.

Lemma list_max_elem {A} (f : A → nat) (x : A) (l : list A) :
  x ∈ l → f x ≤ list_max (map f l).
Proof. induction 1; simpl; lia. Qed.

Lemma depth_bound (fragments : gmap string FragmentDefinition) :
  ∃ D, ∀ name fragment,
    fragments !! name = Some fragment →
    selectionSetDepth (fragmentSelectionSet fragment) ≤ D.
Proof.
  exists (list_max (map (λ entry : string * FragmentDefinition,
                          selectionSetDepth (fragmentSelectionSet entry.2))
                     (map_to_list fragments))).
  intros name fragment Hin%elem_of_map_to_list.
  apply (list_max_elem
           (λ entry : string * FragmentDefinition,
              selectionSetDepth (fragmentSelectionSet entry.2))
           (name, fragment) _ Hin).
Qed.

(** X15: the rule returns once the depth allowed exceeds the number of
    fragments of the document, cycles or not; it leaves the spread path
    empty and no name with a position on it, and has visited every
    fragment definition. *)
Theorem no_fragment_cycles_returns
    (getFragmentSpreads : list Selection → list FragmentSpreadNode)
    (getFragment : string → option FragmentDefinition)
    (names : gset string) (fuel : nat)
    (definitions : list FragmentDefinition) :
  ConsistentContext getFragment →
  (∀ name, is_Some (getFragment name) → name ∈ names) →
  (∀ fragment, fragment ∈ definitions → fragmentName fragment ∈ names) →
  size names + 1 ≤ fuel →
  ∃ state,
    NoFragmentCyclesRule getFragmentSpreads getFragment fuel definitions
    = Ok state
    ∧ spreadPath state = []
    ∧ (∀ name, cycleIndexOf state name = None)
    ∧ ∀ fragment, fragment ∈ definitions →
        fragmentName fragment ∈ visitedFrags state.
Proof.
  intros Hcons Hnames Hdefs Hfuel. unfold NoFragmentCyclesRule.
  assert (Hnew : IndexedVisited newCyclesState).
  { apply (OnPath_IndexedVisited []), OnPath_new. }
  destruct (forOf_returns IndexedVisited
              (λ state node,
                 detectCycleRecursive getFragmentSpreads getFragment fuel
                   node state) definitions) with newCyclesState
    as (state & Hrun & _); [|done|].
  - intros s f Hf Hpre.
    destruct (detect_returns getFragmentSpreads getFragment names Hcons
                Hnames fuel f s Hpre (Hdefs f Hf)) as (s' & Hs').
    + assert (size (names ∖ visitedFrags s) ≤ size names); [|lia].
      apply subseteq_size. by intros x [? _]%elem_of_difference.
    + exists s'. split; [done|].
      destruct (detect_frame _ _ _ _ _ _ Hpre Hs') as [Hframe _].
      by eapply IndexedVisited_frame.
  - exists state. split; [done|].
    destruct (rule_frame _ _ _ _ _ _ Hnew Hrun) as [[Hp Hi _ _] Hvis].
    split_and!; [done| |done].
    intros name. rewrite Hi. unfold cycleIndexOf. simpl.
    by rewrite lookup_empty.
Qed.

Lemma no_fragment_cycles_returns_witness :
  ∃ state,
    NoFragmentCyclesRule spreadNodesIn (λ name, loopDocument !! name) 3
      [outerDefinition; loopDefinition] = Ok state
    ∧ spreadPath state = []
    ∧ (∀ name, cycleIndexOf state name = None)
    ∧ ∀ fragment, fragment ∈ [outerDefinition; loopDefinition] →
        fragmentName fragment ∈ visitedFrags state.
Proof.
  apply (no_fragment_cycles_returns spreadNodesIn
           (λ name, loopDocument !! name) (dom loopDocument) 3
           [outerDefinition; loopDefinition]).
  - intros name f. unfold loopDocument.
    intros [[<- <-]|[_ [<- <-]%lookup_singleton_Some]]%lookup_insert_Some;
      reflexivity.
  - intros name. apply elem_of_dom.
  - intros f Hf.
    repeat (apply elem_of_cons in Hf as [->|Hf]; [by vm_compute|]).
    by apply elem_of_nil in Hf.
  - vm_compute. lia.
Defined.



Lemma chain_from_defined
    (getFragmentSpreads : list Selection → list FragmentSpreadNode)
    (getFragment : string → option FragmentDefinition)
    (from to : string) (path : list FragmentSpreadNode) :
  SpreadChain getFragmentSpreads getFragment from path to →
  is_Some (getFragment from).
Proof.
  intros [from' s Hs|from' to' s rest Hs _];
    unfold spreadNodesOf in Hs; destruct (getFragment from'); try done;
    by apply elem_of_nil in Hs.
Qed.

(** X17: when the fragment definitions of the document are the fragments
    of the context, the rule reports no error exactly when no chain of
    spreads leads from a fragment back to itself. *)
Theorem no_cycle_error_iff_acyclic
    (getFragmentSpreads : list Selection → list FragmentSpreadNode)
    (getFragment : string → option FragmentDefinition)
    (fuel : nat) (definitions : list FragmentDefinition)
    (state : CyclesState) :
  ConsistentContext getFragment →
  (∀ fragment, fragment ∈ definitions →
     getFragment (fragmentName fragment) = Some fragment) →
  (∀ name fragment, getFragment name = Some fragment →
     fragment ∈ definitions) →
  NoFragmentCyclesRule getFragmentSpreads getFragment fuel definitions
  = Ok state →
  cycleErrors state = [] ↔
  ∀ name path,
    ¬ SpreadChain getFragmentSpreads getFragment name path name.
Proof.
  intros Hcons Hdefs Hall Hrun.
  destruct (rule_correct _ _ _ _ _ Hcons Hdefs Hrun) as [Hsound Hfin].
  split.
  - intros Hnil name path Hchain.
    destruct (Hfin Hnil) as (rank & bound & Hfinished).
    destruct (chain_from_defined _ _ _ _ _ Hchain) as [f Hf].
    assert (Hvis : name ∈ visitedFrags state).
    { rewrite <- (Hcons _ _ Hf).
      apply (rule_frame getFragmentSpreads getFragment fuel definitions
               newCyclesState state); [|done|by eapply Hall].
      apply (OnPath_IndexedVisited []), OnPath_new. }
    pose proof (chain_rank _ _ _ _ _ _ _ _ Hfinished Hchain Hvis
                  (mk_is_Some _ _ Hf)). lia.
  - intros Hno. destruct (cycleErrors state) as [|error errors]; [done|].
    destruct (Hsound error) as (name & Hchain & _); [left|].
    by destruct (Hno name (errorNodes error)).
Qed.

Lemma no_cycle_error_iff_acyclic_witness :
  ∃ state,
    NoFragmentCyclesRule spreadNodesIn (λ name, chainDocument !! name) 3
      [mkFragmentDefinition "B" (mkNamedTypeNode "Query") [plainField "y"];
       mkFragmentDefinition "A" (mkNamedTypeNode "Query")
         [FragmentSpread "B" []; plainField "x"]] = Ok state
    ∧ (cycleErrors state = [] ↔
       ∀ name path,
         ¬ SpreadChain spreadNodesIn (λ name, chainDocument !! name) name
             path name).
Proof.
  eexists. split; [vm_compute; reflexivity|].
  apply (no_cycle_error_iff_acyclic spreadNodesIn
           (λ name, chainDocument !! name) 3
           [mkFragmentDefinition "B" (mkNamedTypeNode "Query")
              [plainField "y"];
            mkFragmentDefinition "A" (mkNamedTypeNode "Query")
              [FragmentSpread "B" []; plainField "x"]]).
  - intros name f. unfold chainDocument.
    intros [[<- <-]|[_ [<- <-]%lookup_singleton_Some]]%lookup_insert_Some;
      reflexivity.
  - intros f Hf.
    repeat (apply elem_of_cons in Hf as [->|Hf]; [by vm_compute|]).
    by apply elem_of_nil in Hf.
  - intros name f. unfold chainDocument.
    intros [[<- <-]|[_ [<- <-]%lookup_singleton_Some]]%lookup_insert_Some.
    + right. left.
    + left.
  - vm_compute. reflexivity.
Defined.

(** X18: a document that passes the rule can be collected: when the rule
    reports no error on the fragment definitions of the document, and
    [getFragmentSpreads] lists at least the spreads that the collector
    walks, [collectFields] on a query or mutation returns a result, the
    same whenever the depth allowed is large enough. *)
Theorem validated_fragments_collect
    (gdv : GraphQLDirective → Selection → gmap string JSValue →
           option (gmap string JSValue))
    (schema : GraphQLSchema) (fragments : gmap string FragmentDefinition)
    (vars : gmap string JSValue) (runtimeType : GraphQLType)
    (operation : OperationDefinition)
    (getFragmentSpreads : list Selection → list FragmentSpreadNode)
    (fuelOfRule : nat) (definitions : list FragmentDefinition)
    (state : CyclesState) :
  operationType operation ≠ SUBSCRIPTION →
  (∀ name fragment, fragments !! name = Some fragment →
     fragmentName fragment = name ∧ fragment ∈ definitions) →
  (∀ fragment, fragment ∈ definitions →
     fragments !! fragmentName fragment = Some fragment) →
  (∀ selectionSet name,
     name ∈ flat_map spreadsIn selectionSet →
     ∃ spreadNode,
       spreadNode ∈ getFragmentSpreads selectionSet
       ∧ spreadNodeName spreadNode = name) →
  NoFragmentCyclesRule getFragmentSpreads (λ name, fragments !! name)
    fuelOfRule definitions = Ok state →
  cycleErrors state = [] →
  ∃ enough r, ∀ fuel, enough ≤ fuel →
    collectFields gdv fuel schema fragments vars runtimeType operation
    = Ok r.
Proof.
  intros Hop Hmap Hdefs Hcover Hrun Hnil.
  assert (Hcons : ConsistentContext (λ name, fragments !! name)).
  { intros name f Hf. by destruct (Hmap name f Hf). }
  destruct (rule_correct _ _ _ _ _ Hcons Hdefs Hrun) as [_ Hfin].
  destruct (Hfin Hnil) as (rank & bound & Hfinished).
  destruct (depth_bound fragments) as [D HD].
  assert (Hvis : ∀ name f, fragments !! name = Some f →
            name ∈ visitedFrags state).
  { intros name f Hf. destruct (Hmap name f Hf) as [<- Hin].
    apply (rule_frame getFragmentSpreads (λ name, fragments !! name)
             fuelOfRule definitions newCyclesState state); [|done|done].
    apply (OnPath_IndexedVisited []), OnPath_new. }
  set (enough := selectionSetDepth (operationSelectionSet operation) + 1
                 + bound * (D + 1)).
  assert (Hrun0 :
    collectFieldsImpl gdv schema fragments vars runtimeType operation enough
      (operationSelectionSet operation) None None (newContext 0)
    ≠ OutOfFuel).
  { apply (enough_fuel_ranked _ _ _ _ _ _ rank D) with bound;
      [|done| |done].
    - intros F frag G HF HG HGdef.
      destruct (Hcover _ _ HG) as (s & Hs & <-).
      destruct (Hfinished F) as [_ Hsucc];
        [by eapply Hvis|by intros ?%elem_of_nil|].
      apply Hsucc; [|done]. unfold spreadNodesOf. by rewrite HF.
    - intros G _ [frag HG].
      apply (Hfinished G); [by eapply Hvis|by intros ?%elem_of_nil]. }
  destruct (collectFields_returns_if gdv enough schema fragments vars
              runtimeType operation) as [r Hr]; [|done|].
  { intros node msg. by apply getDeferValues_no_InvariantViolation. }
  exists enough, r. intros fuel Hfuel. rewrite <- Hr. unfold collectFields.
  by rewrite (collectFieldsImpl_more_fuel _ _ _ _ _ _ enough fuel Hfuel).
Qed.

Lemma validated_fragments_collect_witness :
  ∃ state,
    NoFragmentCyclesRule spreadNodesIn (λ name, chainDocument !! name) 3
      [mkFragmentDefinition "B" (mkNamedTypeNode "Query") [plainField "y"];
       mkFragmentDefinition "A" (mkNamedTypeNode "Query")
         [FragmentSpread "B" []; plainField "x"]] = Ok state
    ∧ cycleErrors state = []
    ∧ ∃ enough r, ∀ fuel, enough ≤ fuel →
        collectFields getDirectiveValues fuel smallSchema chainDocument ∅
          queryType
          (mkOperationDefinition QUERY
             [InlineFragment None [deferDirective]
                [FragmentSpread "A" []]]) = Ok r.
Proof.
  eexists. split; [vm_compute; reflexivity|].
  split; [vm_compute; reflexivity|].
  eapply (validated_fragments_collect getDirectiveValues smallSchema
           chainDocument ∅ queryType
           (mkOperationDefinition QUERY
              [InlineFragment None [deferDirective] [FragmentSpread "A" []]])
           spreadNodesIn 3
           [mkFragmentDefinition "B" (mkNamedTypeNode "Query")
              [plainField "y"];
            mkFragmentDefinition "A" (mkNamedTypeNode "Query")
              [FragmentSpread "B" []; plainField "x"]]).
  - discriminate.
  - intros name f. unfold chainDocument.
    intros [[<- <-]|[_ [<- <-]%lookup_singleton_Some]]%lookup_insert_Some.
    + split; [reflexivity|]. right. left.
    + split; [reflexivity|]. left.
  - intros f Hf.
    repeat (apply elem_of_cons in Hf as [->|Hf]; [by vm_compute|]).
    by apply elem_of_nil in Hf.
  - apply spreadNodesIn_covers.
  - vm_compute. reflexivity.
  - vm_compute. reflexivity.
Defined.

(** X19: the only invariant that a collection can fail is the one of
    [@defer] on a subscription: when [collectFields] throws an invariant
    violation, the operation is a subscription and the message is the one
    of [getDeferValues]. *)
Theorem invariant_violation_only_for_subscription
    (gdv : GraphQLDirective → Selection → gmap string JSValue →
           option (gmap string JSValue))
    (fuel : nat) (schema : GraphQLSchema)
    (fragments : gmap string FragmentDefinition)
    (vars : gmap string JSValue) (runtimeType : GraphQLType)
    (operation : OperationDefinition) (msg : string) :
  collectFields gdv fuel schema fragments vars runtimeType operation
  = InvariantViolation msg →
  operationType operation = SUBSCRIPTION
  ∧ msg = "`@defer` directive not supported on subscription operations. Disable `@defer` by setting the `if` argument to `false`.".
Proof.
  intros Hrun.
  assert (Himpl : collectFieldsImpl gdv schema fragments vars runtimeType
                    operation fuel (operationSelectionSet operation) None
                    None (newContext 0) = InvariantViolation msg).
  { revert Hrun. unfold collectFields.
    destruct (collectFieldsImpl _ _ _ _ _ _ _ _ _ _ _) as [c'|msg'| |] eqn:E;
      simpl; try done; [|by intros [= ->]].
    pose proof (collectFieldsImpl_synced _ _ _ _ _ _ _ _ _ _
                  (newContext 0) c' Synced_new E) as Hsync.
    destruct (buildGroupedFieldSets_correct _ _ NON_DEFERRED_TARGET_SET
                Hsync) as (sets & -> & _). simpl. by intros [=]. }
  assert (Hdefer : ∀ node msg',
    getDeferValues gdv operation vars node = InvariantViolation msg' →
    operationType operation = SUBSCRIPTION
    ∧ msg' = "`@defer` directive not supported on subscription operations. Disable `@defer` by setting the `if` argument to `false`.").
  { intros node msg'. unfold getDeferValues.
    destruct (gdv _ _ _) as [defer|]; [|done].
    destruct (decide _); [done|].
    destruct (decide _) as [Hsub|]; [|done]. intros [= <-]. by split. }
  destruct (decide (operationType operation = SUBSCRIPTION)) as [Hop|Hop];
    [split; [done|]|].
  - destruct (decide (msg = "`@defer` directive not supported on subscription operations. Disable `@defer` by setting the `if` argument to `false`."))
      as [Hmsg|Hmsg]; [done|].
    exfalso. revert Himpl. apply collectFieldsImpl_no_InvariantViolation.
    intros node Hnode. by destruct (Hdefer node msg Hnode).
  - exfalso. revert Himpl. apply collectFieldsImpl_no_InvariantViolation.
    intros node Hnode. by destruct (Hdefer node msg Hnode).
Qed.

Lemma invariant_violation_only_for_subscription_witness :
  SUBSCRIPTION = SUBSCRIPTION
  ∧ "`@defer` directive not supported on subscription operations. Disable `@defer` by setting the `if` argument to `false`."
    = "`@defer` directive not supported on subscription operations. Disable `@defer` by setting the `if` argument to `false`.".
Proof.
  apply (invariant_violation_only_for_subscription getDirectiveValues 2
           smallSchema fragmentsF ∅ queryType
           (mkOperationDefinition SUBSCRIPTION
              [plainField "a"; FragmentSpread "F" [deferDirective]])).
  by vm_compute.
Defined.

(** * Merging of the fields of a selection set *)

Lemma AccumulatorMap_keys_add {K T} `{EqDecision K} (key : K) (item : T)
    (m : list (K * list T)) :
  JSMap.keys (AccumulatorMap.add key item m) = JSSet.add key (JSMap.keys m).
Proof.
  unfold AccumulatorMap.add, JSSet.add.
  destruct (JSMap.get key m) as [group|] eqn:E;
    rewrite JSMapFacts.keys_set.
  - assert (Hin : key ∈ JSMap.keys m).
    { apply JSMapFacts.get_is_Some. by rewrite E. }
    rewrite decide_True by done.
    by rewrite (proj2 (JSSetFacts.has_true _ _) Hin).
  - apply JSMapFacts.get_None in E. rewrite decide_False by done.
    by rewrite (proj2 (JSSetFacts.has_false _ _) E).
Qed.

Lemma includedWithKey_nil (included : Selection → bool) (key : string)
    (nodes : list FieldNode) :
  includedWithKey included key nodes = [] ↔
  key ∉ getFieldEntryKey <$>
          filter (λ node, included (Field node) = true) nodes.
Proof.
  unfold includedWithKey. induction nodes as [|node rest IH]; csimpl.
  { split; [|done]. by intros _ ?%elem_of_nil. }
  destruct (decide (included (Field node) = true)) as [Hi|Hi].
  - rewrite (filter_cons_True (λ node, included (Field node) = true))
      by done.
    csimpl. rewrite not_elem_of_cons.
    destruct (decide (getFieldEntryKey node = key)) as [Hk|Hk].
    + rewrite filter_cons_True by done. split; [done|]. by intros [? _].
    + rewrite filter_cons_False by (intros [_ ?]; done). rewrite IH.
      split; [|by intros [_ ?]]. intros Hn. split; [|done]. by intros ->.
  - rewrite (filter_cons_False (λ node, included (Field node) = true))
      by done.
    rewrite filter_cons_False by (intros [? _]; done). apply IH.
Qed.

(** The context after a selection set made of fields only, with the order
    of the keys in the map of the target. *)
Lemma fields_only_context
    (gdv : GraphQLDirective → Selection → gmap string JSValue →
           option (gmap string JSValue))
    (schema : GraphQLSchema) (fragments : gmap string FragmentDefinition)
    (vars : gmap string JSValue) (runtimeType : GraphQLType)
    (operation : OperationDefinition) (fuel : nat) (nodes : list FieldNode)
    (P : Target) (N : option DeferUsage) (c : Context) :
  ∃ c',
    collectFieldsImpl gdv schema fragments vars runtimeType operation
      (S fuel) (Field <$> nodes) P N c = Ok c'
    ∧ newDeferUsages c' = newDeferUsages c
    ∧ JSMap.keys (default [] (JSMap.get (effectiveTarget P N)
                                (fieldsByTarget c')))
      = fold_left (λ s key, JSSet.add key s)
          (getFieldEntryKey <$>
             filter (λ node, shouldIncludeNode gdv vars (Field node) = true)
               nodes)
          (JSMap.keys (default [] (JSMap.get (effectiveTarget P N)
                                     (fieldsByTarget c))))
    ∧ (∀ K, nodesOf (fieldsByTarget c') (effectiveTarget P N) K =
            appendNodes (nodesOf (fieldsByTarget c) (effectiveTarget P N) K)
              (includedWithKey (shouldIncludeNode gdv vars) K nodes))
    ∧ (∀ K,
         keyTargetsOf (targetsByKey c') K =
         match includedWithKey (shouldIncludeNode gdv vars) K nodes with
         | [] => keyTargetsOf (targetsByKey c) K
         | _ :: _ =>
             JSSet.add (effectiveTarget P N)
               (keyTargetsOf (targetsByKey c) K)
         end).
Proof.
  revert c. induction nodes as [|node rest IH]; intros c.
  { exists c. by split_and!. }
  rewrite fmap_cons, collectFieldsImpl_cons. unfold collectSelection at 1.
  unfold includedWithKey in *.
  destruct (shouldIncludeNode gdv vars (Field node)) eqn:Hinc; simpl.
  - destruct (IH (recordField node P N c))
      as (c' & Hrun & Hu & Hkeys & Hnodes & Htargets).
    exists c'. split_and!; [done|by rewrite Hu| | |].
    + rewrite Hkeys.
      rewrite (filter_cons_True
                 (λ node, shouldIncludeNode gdv vars (Field node) = true))
        by done.
      csimpl.
      change (match N with Some _ => N | None => P end)
        with (effectiveTarget P N).
      rewrite JSMapFacts.get_set_eq. simpl.
      by rewrite AccumulatorMap_keys_add.
    + intros K. rewrite Hnodes, nodesOf_recordField.
      destruct (decide (K = getFieldEntryKey node)) as [->|HK].
      * rewrite filter_cons_True by done. rewrite decide_True by done.
        apply appendNodes_snoc.
      * rewrite filter_cons_False by (intros [_ ?]; done).
        rewrite decide_False by (intros [_ ?]; done). done.
    + intros K. rewrite Htargets, keyTargetsOf_recordField.
      destruct (decide (K = getFieldEntryKey node)) as [->|HK].
      * rewrite filter_cons_True by done.
        destruct (filter
                    (λ node0, shouldIncludeNode gdv vars (Field node0) = true
                              ∧ getFieldEntryKey node0
                                = getFieldEntryKey node) rest); [done|].
        unfold JSSet.add at 1.
        by rewrite (proj2 (JSSetFacts.has_true _ _))
          by (apply JSSetFacts.elem_of_add; by left).
      * rewrite filter_cons_False by (intros [_ ?]; done). done.
  - destruct (IH c) as (c' & Hrun & Hu & Hkeys & Hnodes & Htargets).
    exists c'. split_and!; [done|done| | |].
    + rewrite Hkeys.
      by rewrite (filter_cons_False
                    (λ node, shouldIncludeNode gdv vars (Field node) = true))
        by congruence.
    + intros K. rewrite Hnodes.
      rewrite filter_cons_False by (intros [? _]; congruence). done.
    + intros K. rewrite Htargets.
      rewrite filter_cons_False by (intros [? _]; congruence). done.
Qed.

Lemma buildGroupedFieldSets_base (tbk : list (string * list Target))
    (fbt : FieldsByTarget) (parentTargets : list Target)
    (sets : GroupedFieldSets) :
  buildGroupedFieldSets tbk fbt parentTargets = Ok sets →
  ((getTargetSetDetails tbk parentTargets).1 = []
   ∧ groupedFieldSet sets = [])
  ∨ ∃ fbt',
      getOrderedGroupedFieldSet (getTargetSetDetails tbk parentTargets).1
        parentTargets tbk fbt = Ok (groupedFieldSet sets, fbt').
Proof.
  unfold buildGroupedFieldSets.
  destruct (getTargetSetDetails tbk parentTargets) as [ptk tsd]. simpl.
  intros (base & Hbase & Hrest)%bind_Ok. destruct base as [gfs fbt1].
  apply bind_Ok in Hrest as (entries & _ & Hret).
  destruct entries as [details fbt2]. injection Hret as <-. simpl.
  destruct ptk as [|K ptk]; simpl in Hbase.
  - injection Hbase as <- <-. by left.
  - right. by exists fbt1.
Qed.

Lemma filter_all {A} (Q : A → Prop) `{∀ x, Decision (Q x)} (l : list A) :
  (∀ x, x ∈ l → Q x) → filter Q l = l.
Proof.
  induction l as [|x l IH]; intros Hall; [done|].
  rewrite filter_cons_True by (apply Hall; left).
  f_equal. apply IH. intros y Hy. apply Hall. by right.
Qed.

(** X20: the merging of fields.  On a selection set made of fields only,
    [collectFields] returns one base grouped field set and nothing
    deferred; its keys are the response keys (alias, else name) of the
    included fields in the order of their first occurrence, and the group
    of a key lists all the included fields with that key, in document
    order, under the base target. *)
Theorem collectFields_merges_fields
    (gdv : GraphQLDirective → Selection → gmap string JSValue →
           option (gmap string JSValue))
    (fuel : nat) (schema : GraphQLSchema)
    (fragments : gmap string FragmentDefinition)
    (vars : gmap string JSValue) (runtimeType : GraphQLType)
    (kind : OperationTypeNode) (nodes : list FieldNode) :
  ∃ r,
    collectFields gdv (S fuel) schema fragments vars runtimeType
      (mkOperationDefinition kind (Field <$> nodes)) = Ok r
    ∧ resultNewDeferUsages r = []
    ∧ resultNewGroupedFieldSetDetails r = []
    ∧ JSMap.keys (resultGroupedFieldSet r)
      = JSSet.of_list
          (getFieldEntryKey <$>
             filter (λ node, shouldIncludeNode gdv vars (Field node) = true)
               nodes)
    ∧ ∀ K g,
        (K, g) ∈ resultGroupedFieldSet r →
        targets g = NON_DEFERRED_TARGET_SET
        ∧ fields g
          = map (λ node, mkFieldDetails node None)
              (includedWithKey (shouldIncludeNode gdv vars) K nodes).
Proof.
  destruct (fields_only_context gdv schema fragments vars runtimeType
              (mkOperationDefinition kind (Field <$> nodes)) fuel nodes
              None None (newContext 0))
    as (c' & Hrun & Hu & Hkeys & Hnodes & Htargets).
  simpl in Hu, Hkeys, Hnodes, Htargets.
  set (ks := getFieldEntryKey <$>
               filter (λ node, shouldIncludeNode gdv vars (Field node) = true)
                 nodes) in *.
  pose proof (collectFieldsImpl_synced _ _ _ _ _ _ _ _ _ _
                (newContext 0) c' Synced_new Hrun) as Hsync.
  destruct (buildGroupedFieldSets_correct _ _ NON_DEFERRED_TARGET_SET Hsync)
    as (sets & Hsets & Hbasekeys & Hcontent & HF).
  pose proof (getTargetSetDetails_inv (targetsByKey c')
                NON_DEFERRED_TARGET_SET) as Hinv.
  assert (Hts : ∀ K ts, JSMap.get K (targetsByKey c') = Some ts →
            ts = [None] ∧ K ∈ ks).
  { intros K ts Hget. pose proof (Htargets K) as HK.
    unfold keyTargetsOf in HK at 1. rewrite Hget in HK. simpl in HK.
    destruct (includedWithKey (shouldIncludeNode gdv vars) K nodes)
      as [|n l] eqn:Ein.
    - by destruct (synced_targets _ _ Hsync K ts Hget) as [_ []].
    - split; [done|].
      destruct (decide (K ∈ ks)) as [|Hout]; [done|].
      apply includedWithKey_nil in Hout. congruence. }
  assert (Hin : ∀ K, K ∈ ks →
            JSMap.get K (targetsByKey c') = Some [None]).
  { intros K HK. pose proof (Htargets K) as HK'.
    destruct (includedWithKey (shouldIncludeNode gdv vars) K nodes)
      as [|n l] eqn:Ein.
    - apply includedWithKey_nil in Ein. done.
    - unfold keyTargetsOf in HK' at 1.
      destruct (JSMap.get K (targetsByKey c')) as [ts|] eqn:Eg; [|done].
      simpl in HK'. by rewrite HK'. }
  assert (Hsame : sameMembers (maskingTargetsOf [None])
                    NON_DEFERRED_TARGET_SET) by done.
  assert (Hparent : ∀ K, K ∈ (getTargetSetDetails (targetsByKey c')
                                NON_DEFERRED_TARGET_SET).1 ↔ K ∈ ks).
  { intros K. rewrite (inv_parent_keys _ _ _ _ Hinv). split.
    - intros (ts & Hts' & _).
      apply (JSMapFacts.elem_of_get _ _ _ (synced_keys _ _ Hsync)) in Hts'.
      by destruct (Hts K ts Hts').
    - intros HK. exists [None]. split; [|done].
      by apply JSMapFacts.get_Some_elem_of, Hin. }
  unfold collectFields. simpl. rewrite Hrun. simpl. rewrite Hsets. simpl.
  eexists. split; [done|]. simpl. split_and!.
  - done.
  - destruct ((getTargetSetDetails (targetsByKey c')
                 NON_DEFERRED_TARGET_SET).2) as [|[M d] tsd] eqn:Etsd.
    { by apply Forall2_nil_inv_l in HF. }
    exfalso.
    destruct (inv_entry_shape _ _ _ _ Hinv M d)
      as (_ & _ & Hnot & K & ts & HK & ->); [left|].
    apply (JSMapFacts.elem_of_get _ _ _ (synced_keys _ _ Hsync)) in HK.
    destruct (Hts K ts HK) as [-> _]. done.
  - destruct (buildGroupedFieldSets_base _ _ _ _ Hsets)
      as [[Hnil ->]|[fbt' Hbase]].
    + destruct ks as [|K ks'] eqn:Eks; [done|]. exfalso.
      assert (HK : K ∈ (getTargetSetDetails (targetsByKey c')
                          NON_DEFERRED_TARGET_SET).1)
        by (apply Hparent; left).
      rewrite Hnil in HK. by apply elem_of_nil in HK.
    + revert Hbase. unfold getOrderedGroupedFieldSet.
      change (match NON_DEFERRED_TARGET_SET with
              | firstTarget :: _ => firstTarget
              | [] => None
              end) with (None : Target).
      destruct (JSMap.get None (fieldsByTarget c')) as [firstFields|] eqn:Ef;
        [|done].
      simpl in Hkeys. intros Hloop.
      apply orderedGroup_keys in Hloop.
      * rewrite Hloop. simpl. rewrite Hkeys. apply filter_all.
        intros K HK. apply Hparent.
        exact (proj1 (JSSetFacts.elem_of_of_list _ _) HK).
      * by apply (synced_inner _ _ Hsync None).
      * by intros K _ ?%elem_of_nil.
  - intros K g Hg. destruct (Hcontent K g Hg) as [Hfields Htg].
    split; [done|]. rewrite Hfields.
    assert (HK : K ∈ ks).
    { apply Hparent, Hbasekeys. unfold JSMap.keys.
      apply list_elem_of_fmap. by exists (K, g). }
    unfold keyTargetsOf. rewrite (Hin K HK). simpl. rewrite app_nil_r.
    unfold detailsOf. f_equal. rewrite Hnodes.
    unfold nodesOf at 1. simpl.
    by destruct (includedWithKey (shouldIncludeNode gdv vars) K nodes).
Qed.
